(** * Chat client core: conversation store, response normalizer, send session

    A shallow embedding of [main.py]: the JSON conversation store
    ([load_conversations], [save_conversations]), the response normalizer
    ([extract_response_content]) and one send turn ([stream_response],
    [on_send_click]).

    Python strings are sequences of code points, so [text] is [list N].
    Dataclass fields are not checked at run time, so they hold a dynamic
    [value].  The interpreter's [json] module is modelled after the code that
    CPython 3.11 runs for the call made here ([indent=2],
    [ensure_ascii=False]): the encoder yields chunks that are written one by
    one through a utf-8 text file, the decoder scans the text that is read
    back.  Exceptions are modelled with what the program can observe of
    them: whether an [except Exception] clause catches them, and what
    [str(e)] gives, which may itself raise. *)

From Stdlib Require Import List NArith ZArith Bool Lia String Ascii Arith.
Import ListNotations.

Set Implicit Arguments.
Set Warnings "-register-all".

(* ================================================================== *)
(** ** Text *)

Module Text.

Definition text := list N.

Definition of_string (s : string) : text :=
  map N_of_ascii (list_ascii_of_string s).

(** Code points U+D800..U+DFFF: a [str] may hold them, utf-8 cannot encode
    them. *)
Definition is_surrogate (c : N) : bool :=
  (0xD800 <=? c)%N && (c <=? 0xDFFF)%N.

Definition encodable (t : text) : bool :=
  forallb (fun c => negb (is_surrogate c)) t.

Fixpoint eqb (a b : text) : bool :=
  match a, b with
  | [], [] => true
  | x :: a', y :: b' => (x =? y)%N && eqb a' b'
  | _, _ => false
  end.

(** [str.join]: [sep.join(parts)]. *)
Fixpoint join (sep : text) (parts : list text) : text :=
  match parts with
  | [] => []
  | [p] => p
  | p :: rest => p ++ sep ++ join sep rest
  end.

(** [' ' * n]. *)
Definition spaces (n : nat) : text := repeat 32%N n.

(** The characters [str.strip()] removes: those for which [str.isspace]
    holds. *)
Definition isspace (c : N) : bool :=
  ((9 <=? c) && (c <=? 13) || (28 <=? c) && (c <=? 32)
   || (c =? 0x85) || (c =? 0xA0) || (c =? 0x1680)
   || (0x2000 <=? c) && (c <=? 0x200A)
   || (c =? 0x2028) || (c =? 0x2029) || (c =? 0x202F)
   || (c =? 0x205F) || (c =? 0x3000))%N.

Fixpoint lstrip (t : text) : text :=
  match t with
  | c :: t' => if isspace c then lstrip t' else t
  | [] => []
  end.

Definition rstrip (t : text) : text := rev (lstrip (rev t)).

Definition strip (t : text) : text := rstrip (lstrip t).

End Text.

Import Text.

Notation "'txt' s" := (Text.of_string s) (at level 1, s at level 0, only parsing).

(* ================================================================== *)
(** ** Dynamic values

    What [json.load] returns and [json.dump] accepts, and what a dataclass
    field can hold.  A [dict] keeps insertion order; its keys are strings
    here (the store never builds another kind).  A float is kept as the text
    of its literal: nothing in the store computes with it.  The encoder
    writes that text back, which is the text [float.__repr__] gives for a
    literal that is already in that form only; what is proved about the
    text written is proved for fields that are strings. *)

Inductive value : Type :=
| VNone
| VBool (b : bool)
| VInt (z : Z)
| VFloat (lit : text)
| VStr (s : text)
| VList (items : list value)
| VDict (pairs : list (text * value)).

(** [d.get(key)] and [d.get(key, default)] on the pairs of a dict. *)
Fixpoint dict_lookup (key : text) (d : list (text * value)) : option value :=
  match d with
  | [] => None
  | (k, v) :: d' => if Text.eqb k key then Some v else dict_lookup key d'
  end.

(** [d[key] = v]: replaces in place, or appends a new key. *)
Fixpoint dict_set (key : text) (v : value) (d : list (text * value))
  : list (text * value) :=
  match d with
  | [] => [(key, v)]
  | (k, w) :: d' =>
      if Text.eqb k key then (k, v) :: d' else (k, w) :: dict_set key v d'
  end.

(** [dict(pairs)]: a later pair with the same key overrides. *)
Definition dict_of_pairs (ps : list (text * value)) : list (text * value) :=
  fold_left (fun d kv => dict_set (fst kv) (snd kv) d) ps [].

(* ================================================================== *)
(** ** [json] encoder: [JSONEncoder(ensure_ascii=False, indent=2).iterencode] *)

Module Encoder.

Definition hex_digit (n : N) : N :=
  (if n <? 10 then 48 + n else 87 + n)%N.

(** ['\\u{0:04x}'.format(i)] for [i < 0x20]. *)
Definition u_escape (c : N) : text :=
  [92; 117; 48; 48; hex_digit (c / 16); hex_digit (c mod 16)]%N.

(** [ESCAPE_DCT[c]] where [ESCAPE] matches, the character itself elsewhere. *)
Definition escape_char (c : N) : text :=
  (if c =? 92 then [92; 92]
   else if c =? 34 then [92; 34]
   else if c =? 8 then [92; 98]
   else if c =? 12 then [92; 102]
   else if c =? 10 then [92; 110]
   else if c =? 13 then [92; 114]
   else if c =? 9 then [92; 116]
   else if c <? 32 then u_escape c
   else [c])%N.

(** [encode_basestring]. *)
Definition encode_basestring (s : text) : text :=
  34%N :: flat_map escape_char s ++ [34%N].

(** [int.__repr__]. *)
Fixpoint pos_digits (fuel : nat) (n : N) (acc : text) : text :=
  match fuel with
  | O => acc
  | S fuel' =>
      let acc' := (48 + n mod 10)%N :: acc in
      if (n <? 10)%N then acc' else pos_digits fuel' (n / 10)%N acc'
  end.

Definition intstr (z : Z) : text :=
  let n := Z.abs_N z in
  let ds := pos_digits (S (N.to_nat (N.log2 n))) n [] in
  if (z <? 0)%Z then 45%N :: ds else ds.

(** ['\n' + _indent * level] with [_indent = ' ' * 2]. *)
Definition newline_indent (level : nat) : text :=
  10%N :: Text.spaces (2 * level).

(** The values [_iterencode_list] and [_iterencode_dict] yield themselves. *)
Definition atom (v : value) : option text :=
  match v with
  | VStr s => Some (encode_basestring s)
  | VNone => Some (txt "null")
  | VBool true => Some (txt "true")
  | VBool false => Some (txt "false")
  | VInt z => Some (intstr z)
  | VFloat lit => Some lit
  | VList _ | VDict _ => None
  end.

(** The loop of [_iterencode_list]: [buf] is prepended to the first chunk of
    an element, and is the separator from the second element on.  [sub] is
    the encoder of an element that is a list or a dict. *)
Definition list_chunks (sub : value -> list text) (separator : text)
  : text -> list value -> list text :=
  fix items (buf : text) (l : list value) {struct l} : list text :=
    match l with
    | [] => []
    | v :: l' =>
        match atom v with
        | Some a => [buf ++ a]
        | None => buf :: sub v
        end ++ items separator l'
    end.

(** The loop of [_iterencode_dict]. *)
Definition dict_chunks (sub : value -> list text) (item_separator : text)
  : bool -> list (text * value) -> list text :=
  fix items (first : bool) (d : list (text * value)) {struct d} : list text :=
    match d with
    | [] => []
    | (k, v) :: d' =>
        (if first then [] else [item_separator])
        ++ [encode_basestring k; txt ": "]
        ++ match atom v with
           | Some a => [a]
           | None => sub v
           end
        ++ items false d'
    end.

(** [_iterencode], [_iterencode_list] and [_iterencode_dict]: the sequence
    of chunks yielded for [o] at the given indentation level. *)
Fixpoint iterencode (o : value) (level : nat) {struct o} : list text :=
  match o with
  | VList [] => [txt "[]"]
  | VList lst =>
      let nl := newline_indent (S level) in
      list_chunks (fun v => iterencode v (S level)) (44%N :: nl)
                  (91%N :: nl) lst
      ++ [newline_indent level; [93%N]]
  | VDict [] => [txt "{}"]
  | VDict dct =>
      let nl := newline_indent (S level) in
      [[123%N]; nl]
      ++ dict_chunks (fun v => iterencode v (S level)) (44%N :: nl) true dct
      ++ [newline_indent level; [125%N]]
  | _ => match atom o with Some a => [a] | None => [] end
  end.

(** [json.dumps(o, ensure_ascii=False, indent=2)]: the chunks joined. *)
Definition dumps (o : value) : text := List.concat (iterencode o 0).

End Encoder.

(* ================================================================== *)
(** ** [json] decoder: [JSONDecoder().decode]

    [scanstring], [JSONObject], [JSONArray] and [scan_once] on the remaining
    text instead of an index into it.  Every failure is a [ValueError]: a
    [JSONDecodeError] for a text that is not a JSON document, the
    [ValueError] of [int] for an integer literal of more than 4300 digits;
    so the result is an [option].  The recursion of [scan_once] through
    arrays and objects is by fuel; [loads] supplies more than the length of
    the text, and each level consumes a character.  The digits of a number
    and of a [\u] escape are the ASCII ones, as in the scanner CPython runs.
    The [RecursionError] the scanner raises on a document nested deeper than
    the interpreter's stack allows depends on the depth of the call stack
    when [json.load] is entered and is not modelled; the documents the store
    writes nest four levels deep. *)

Module Decoder.

(** [WHITESPACE.match(s, end).end()]. *)
Fixpoint skip_ws (s : text) : text :=
  match s with
  | c :: s' =>
      if ((c =? 32) || (c =? 9) || (c =? 10) || (c =? 13))%N
      then skip_ws s' else s
  | [] => []
  end.

Definition hex_value (c : N) : option N :=
  (if (48 <=? c) && (c <=? 57) then Some (c - 48)
   else if (97 <=? c) && (c <=? 102) then Some (c - 87)
   else if (65 <=? c) && (c <=? 70) then Some (c - 55)
   else None)%N.

(** [_decode_uXXXX] on the four characters after [\u]. *)
Definition decode_uXXXX (a b c d : N) : option N :=
  match hex_value a, hex_value b, hex_value c, hex_value d with
  | Some x, Some y, Some z, Some w =>
      Some (((x * 16 + y) * 16 + z) * 16 + w)%N
  | _, _, _, _ => None
  end.

(** [BACKSLASH[esc]]. *)
Definition backslash (esc : N) : option N :=
  (if esc =? 34 then Some 34
   else if esc =? 92 then Some 92
   else if esc =? 47 then Some 47
   else if esc =? 98 then Some 8
   else if esc =? 102 then Some 12
   else if esc =? 110 then Some 10
   else if esc =? 114 then Some 13
   else if esc =? 116 then Some 9
   else None)%N.

Definition cons_char (c : N) (r : option (text * text)) : option (text * text) :=
  match r with
  | Some (s, rest) => Some (c :: s, rest)
  | None => None
  end.

(** [scanstring(s, end, strict=True)], from the character after the opening
    quote: the decoded string and the text after the closing quote. *)
Fixpoint scanstring (s : text) : option (text * text) :=
  match s with
  | [] => None
  | c :: r =>
      if (c =? 34)%N then Some ([], r)
      else if (c =? 92)%N then
        match r with
        | [] => None
        | esc :: r1 =>
            if (esc =? 117)%N then
              match r1 with
              | h1 :: h2 :: h3 :: h4 :: r2 =>
                  match decode_uXXXX h1 h2 h3 h4 with
                  | None => None
                  | Some uni =>
                      if ((0xD800 <=? uni) && (uni <=? 0xDBFF))%N then
                        match r2 with
                        | b :: u :: r3 =>
                            if ((b =? 92) && (u =? 117))%N then
                              match r3 with
                              | g1 :: g2 :: g3 :: g4 :: r4 =>
                                  match decode_uXXXX g1 g2 g3 g4 with
                                  | None => None
                                  | Some uni2 =>
                                      if ((0xDC00 <=? uni2) && (uni2 <=? 0xDFFF))%N
                                      then cons_char
                                             (0x10000 + ((uni - 0xD800) * 1024
                                                         + (uni2 - 0xDC00)))%N
                                             (scanstring r4)
                                      else cons_char uni (scanstring r2)
                                  end
                              | _ => None
                              end
                            else cons_char uni (scanstring r2)
                        | _ => cons_char uni (scanstring r2)
                        end
                      else cons_char uni (scanstring r2)
                  end
              | _ => None
              end
            else
              match backslash esc with
              | Some ch => cons_char ch (scanstring r1)
              | None => None
              end
        end
      else if (c <? 32)%N then None
      else cons_char c (scanstring r)
  end.

Definition is_digit (c : N) : bool := ((48 <=? c) && (c <=? 57))%N.

Fixpoint span_digits (s : text) : text * text :=
  match s with
  | c :: s' =>
      if is_digit c
      then let '(ds, rest) := span_digits s' in (c :: ds, rest)
      else ([], s)
  | [] => ([], [])
  end.

Definition digits_value (ds : text) : Z :=
  fold_left (fun acc c => (acc * 10 + Z.of_N (c - 48))%Z) ds 0%Z.

(** The integer group of [NUMBER_RE], after the sign: a zero, or a non-zero
    digit and the digits that follow it. *)
Definition match_integer (s : text) : option (text * text) :=
  match s with
  | c :: s' =>
      if (c =? 48)%N then Some ([c], s')
      else if is_digit c
      then let '(ds, rest) := span_digits s' in Some (c :: ds, rest)
      else None
  | [] => None
  end.

(** The fraction group of [NUMBER_RE]: a dot and at least one digit. *)
Definition match_frac (s : text) : text * text :=
  match s with
  | c :: s' =>
      if (c =? 46)%N then
        match span_digits s' with
        | ([], _) => ([], s)
        | (ds, rest) => (c :: ds, rest)
        end
      else ([], s)
  | [] => ([], [])
  end.

(** The exponent group of [NUMBER_RE]: [e] or [E], a sign or none, and at
    least one digit. *)
Definition match_exp (s : text) : text * text :=
  match s with
  | e :: s' =>
      if ((e =? 101) || (e =? 69))%N then
        match s' with
        | sg :: s'' =>
            if ((sg =? 45) || (sg =? 43))%N then
              match span_digits s'' with
              | ([], _) => ([], s)
              | (ds, rest) => (e :: sg :: ds, rest)
              end
            else
              match span_digits s' with
              | ([], _) => ([], s)
              | (ds, rest) => (e :: ds, rest)
              end
        | [] => ([], s)
        end
      else ([], s)
  | [] => ([], [])
  end.

(** [sys.get_int_max_str_digits()]: the default, which the program does not
    change. *)
Definition int_max_str_digits : nat := 4300.

(** [NUMBER_RE.match] and the conversion of its groups: [int] of the literal
    when it has no fraction and no exponent, which raises when the digits
    are more than the limit allows (the sign is not counted); [float] of the
    literal otherwise. *)
Definition match_number (s : text) : option (value * text) :=
  let '(neg, s0) :=
    match s with
    | c :: s' => if (c =? 45)%N then (true, s') else (false, s)
    | [] => (false, s)
    end in
  match match_integer s0 with
  | None => None
  | Some (int, s1) =>
      let '(frac, s2) := match_frac s1 in
      let '(exp, s3) := match_exp s2 in
      let sign := if neg then [45%N] else [] in
      match frac, exp with
      | [], [] =>
          if int_max_str_digits <? List.length int then None
          else
            let z := digits_value int in
            Some (VInt (if neg then (- z)%Z else z), s3)
      | _, _ => Some (VFloat (sign ++ int ++ frac ++ exp), s3)
      end
  end.

(** [s[idx:idx+len(lit)] == lit], giving the text after the literal. *)
Fixpoint strip_prefix (lit s : text) : option text :=
  match lit, s with
  | [], _ => Some s
  | a :: lit', b :: s' => if (a =? b)%N then strip_prefix lit' s' else None
  | _ :: _, [] => None
  end.

(** A literal other than a string, an array or an object. *)
Definition scan_literal (s : text) : option (value * text) :=
  match strip_prefix (txt "null") s with
  | Some r => Some (VNone, r)
  | None =>
  match strip_prefix (txt "true") s with
  | Some r => Some (VBool true, r)
  | None =>
  match strip_prefix (txt "false") s with
  | Some r => Some (VBool false, r)
  | None =>
  match match_number s with
  | Some r => Some r
  | None =>
  match strip_prefix (txt "NaN") s with
  | Some r => Some (VFloat (txt "NaN"), r)
  | None =>
  match strip_prefix (txt "Infinity") s with
  | Some r => Some (VFloat (txt "Infinity"), r)
  | None =>
  match strip_prefix (txt "-Infinity") s with
  | Some r => Some (VFloat (txt "-Infinity"), r)
  | None => None
  end end end end end end end.

(** [scan_once], with the loops of [JSONArray] and [JSONObject].
    [array_items] is entered at the first character of an element,
    [object_items] just after the opening quote of a key. *)
Fixpoint scan_once (fuel : nat) (s : text) {struct fuel}
  : option (value * text) :=
  match fuel with
  | O => None
  | S fuel' =>
      match s with
      | [] => None
      | c :: r =>
          if (c =? 34)%N then
            match scanstring r with
            | Some (str, rest) => Some (VStr str, rest)
            | None => None
            end
          else if (c =? 123)%N then
            match skip_ws r with
            | d :: r' =>
                if (d =? 125)%N then Some (VDict [], r')
                else if (d =? 34)%N then
                  match object_items fuel' [] r' with
                  | Some (pairs, rest) => Some (VDict (dict_of_pairs pairs), rest)
                  | None => None
                  end
                else None
            | [] => None
            end
          else if (c =? 91)%N then
            match skip_ws r with
            | d :: r' =>
                if (d =? 93)%N then Some (VList [], r')
                else
                  match array_items fuel' [] (d :: r') with
                  | Some (values, rest) => Some (VList values, rest)
                  | None => None
                  end
            | [] => None
            end
          else scan_literal s
      end
  end
with array_items (fuel : nat) (values : list value) (s : text) {struct fuel}
  : option (list value * text) :=
  match fuel with
  | O => None
  | S fuel' =>
      match scan_once fuel' s with
      | None => None
      | Some (v, rest) =>
          let values := values ++ [v] in
          match skip_ws rest with
          | c :: r =>
              if (c =? 93)%N then Some (values, r)
              else if (c =? 44)%N then array_items fuel' values (skip_ws r)
              else None
          | [] => None
          end
      end
  end
with object_items (fuel : nat) (pairs : list (text * value)) (s : text)
  {struct fuel} : option (list (text * value) * text) :=
  match fuel with
  | O => None
  | S fuel' =>
      match scanstring s with
      | None => None
      | Some (key, rest) =>
          match skip_ws rest with
          | c :: r =>
              if (c =? 58)%N then
                match scan_once fuel' (skip_ws r) with
                | None => None
                | Some (v, rest') =>
                    let pairs := pairs ++ [(key, v)] in
                    match skip_ws rest' with
                    | e :: r' =>
                        if (e =? 125)%N then Some (pairs, r')
                        else if (e =? 44)%N then
                          match skip_ws r' with
                          | q :: r'' =>
                              if (q =? 34)%N
                              then object_items fuel' pairs r''
                              else None
                          | [] => None
                          end
                        else None
                    | [] => None
                    end
                end
              else None
          | [] => None
          end
      end
  end.

(** [json.loads(s)]: a leading byte order mark is refused, the document may
    be surrounded by whitespace, and nothing else may follow it. *)
Definition loads (s : text) : option value :=
  match s with
  | 0xFEFF%N :: _ => None
  | _ =>
      match scan_once (S (2 * List.length s)) (skip_ws s) with
      | Some (v, rest) =>
          match skip_ws rest with
          | [] => Some v
          | _ :: _ => None
          end
      | None => None
      end
  end.

End Decoder.

(* ================================================================== *)
(** ** Exceptions and results

    The program observes an exception in three ways: an [except Exception]
    clause tests whether its class derives from [Exception], [hasattr]
    tests whether it derives from [AttributeError], and [str(e)], also
    inside an f-string, asks for its text.  A class stands for itself and
    its subclasses.

    [exn] is an exception whose [str] returns: those the interpreter raises
    are of this kind.  Their text is the interpreter's where it carries data
    of the program (a key of the stored file, a position in a text), and is
    abbreviated where it only names a type.  [thrown] is any exception: the
    provider and the objects it returns are foreign code, and may raise one
    whose class does not derive from [Exception] ([KeyboardInterrupt],
    [asyncio.CancelledError], ...), or one whose [__str__] itself raises. *)

Inductive exn_class : Type :=
| IndexError | TypeError | AttributeError | ValueError
| UnicodeEncodeError | UnicodeDecodeError | OSError | OtherError
| KeyboardInterrupt | SystemExit | GeneratorExit | CancelledError
| OtherBaseException.

(** [issubclass(c, Exception)]. *)
Definition is_Exception (c : exn_class) : bool :=
  match c with
  | KeyboardInterrupt | SystemExit | GeneratorExit | CancelledError
  | OtherBaseException => false
  | _ => true
  end.

Record exn : Type := Exn { exn_cls : exn_class; exn_str : text }.

Inductive thrown : Type :=
| Printable (e : exn)
| Unprintable (cls : exn_class) (inner : thrown).

Coercion Printable : exn >-> thrown.

Definition thrown_cls (e : thrown) : exn_class :=
  match e with
  | Printable x => exn_cls x
  | Unprintable c _ => c
  end.

(** What [except Exception] catches. *)
Definition caught (e : thrown) : bool := is_Exception (thrown_cls e).

Definition is_AttributeError (e : thrown) : bool :=
  match thrown_cls e with AttributeError => true | _ => false end.

Inductive result (A : Type) : Type :=
| Return (a : A)
| Raise (e : thrown).

Arguments Return {A} a.
Arguments Raise {A} e.

Definition bind {A B : Type} (r : result A) (k : A -> result B) : result B :=
  match r with
  | Return a => k a
  | Raise e => Raise e
  end.

Notation "x <- r ;; k" := (bind r (fun x => k))
  (at level 61, r at next level, right associativity).

(** [str(e)], and [e] inside an f-string. *)
Definition str_thrown (e : thrown) : result text :=
  match e with
  | Printable x => Return (exn_str x)
  | Unprintable _ inner => Raise inner
  end.

(** An exception that an [except Exception] clause catches and whose text
    [str] gives. *)
Definition tame (e : thrown) : bool :=
  match e with
  | Printable x => is_Exception (exn_cls x)
  | Unprintable _ _ => false
  end.

(** The value returned, if one is. *)
Definition returned {A : Type} (r : result A) : option A :=
  match r with
  | Return a => Some a
  | Raise _ => None
  end.

(* ================================================================== *)
(** ** Data model *)

Record Message : Type := mkMessage { role : value; content : value }.

Record Conversation : Type := mkConversation {
  id : value;
  title : value;
  messages : list Message
}.

Definition DEFAULT_MODEL : text := txt "gpt-4o-mini".

(* ================================================================== *)
(** ** The world outside the process

    [disk] is what [DATA_FILE] holds, seen through a utf-8 text file: no
    file, a file that cannot be opened or decoded (with the exception that
    reading it raises), or the text it decodes to.  [write_fault] is the
    [OSError] that [open(DATA_FILE, "w")] raises, if the place cannot be
    written.  [stdout] collects the lines that reached the standard output,
    oldest first; it is a utf-8 text stream with strict error handling, as
    the data file is.  Line ends are written as they are ([os.linesep] is a
    line feed). *)

Inductive file : Type :=
| Missing
| Unreadable (e : exn)
| Content (t : text).

Record world : Type := mkWorld {
  disk : file;
  write_fault : option exn;
  stdout : list text
}.

(** The world after [line] has reached the standard output. *)
Definition print (line : text) (w : world) : world :=
  {| disk := disk w; write_fault := write_fault w;
     stdout := stdout w ++ [line] |}.

(** The [UnicodeEncodeError] of the utf-8 codec for a text that holds a
    surrogate: it names the first run of surrogates, by the code point and
    its position when the run is one character long, by its first and last
    positions otherwise. *)
Fixpoint surrogate_run (t : text) : nat :=
  match t with
  | c :: t' => if Text.is_surrogate c then S (surrogate_run t') else 0
  | [] => 0
  end.

Fixpoint first_surrogate (t : text) (pos : nat) : option (nat * N * nat) :=
  match t with
  | [] => None
  | c :: t' =>
      if Text.is_surrogate c then Some (pos, c, surrogate_run t')
      else first_surrogate t' (S pos)
  end.

Definition hex4 (c : N) : text :=
  [Encoder.hex_digit (c / 4096); Encoder.hex_digit (c / 256 mod 16);
   Encoder.hex_digit (c / 16 mod 16); Encoder.hex_digit (c mod 16)].

Definition encode_error (t : text) : exn :=
  Exn UnicodeEncodeError
      match first_surrogate t 0 with
      | Some (start, c, O) =>
          txt "'utf-8' codec can't encode character '\u" ++ hex4 c
          ++ txt "' in position " ++ Encoder.intstr (Z.of_nat start)
          ++ txt ": surrogates not allowed"
      | Some (start, _, S more) =>
          txt "'utf-8' codec can't encode characters in position "
          ++ Encoder.intstr (Z.of_nat start) ++ txt "-"
          ++ Encoder.intstr (Z.of_nat (start + S more))
          ++ txt ": surrogates not allowed"
      | None => txt "surrogates not allowed"
      end.

(** [print(line)]: the line is encoded before anything is written, so a line
    that holds a surrogate raises and leaves the output as it was. *)
Definition print_line (line : text) (w : world) : result world :=
  if Text.encodable line then Return (print line w)
  else Raise (encode_error line).

Definition set_disk (f : file) (w : world) : world :=
  {| disk := f; write_fault := write_fault w; stdout := stdout w |}.

(** What [f.read()] makes of the decoded file, with the default
    [newline=None]: a carriage return, alone or before a line feed, is read
    as a line feed. *)
Fixpoint universal_newlines (t : text) : text :=
  match t with
  | [] => []
  | c :: t' =>
      if (c =? 13)%N then
        match t' with
        | d :: t'' =>
            if (d =? 10)%N then 10%N :: universal_newlines t''
            else 10%N :: universal_newlines t'
        | [] => [10%N]
        end
      else c :: universal_newlines t'
  end.

(* ================================================================== *)
(** ** Storage helpers *)

Module Store.

(** [type(v).__name__]. *)
Definition type_name (v : value) : text :=
  match v with
  | VNone => txt "NoneType"
  | VBool _ => txt "bool"
  | VInt _ => txt "int"
  | VFloat _ => txt "float"
  | VStr _ => txt "str"
  | VList _ => txt "list"
  | VDict _ => txt "dict"
  end.

(** [for x in v]: the elements a value yields, or the [TypeError] for one
    that is not iterable. *)
Definition iterate (v : value) : result (list value) :=
  match v with
  | VList items => Return items
  | VDict pairs => Return (map (fun kv => VStr (fst kv)) pairs)
  | VStr s => Return (map (fun c => VStr [c]) s)
  | _ =>
      Raise (Exn TypeError
                 (txt "'" ++ type_name v ++ txt "' object is not iterable"))
  end.

Definition is_field (k : text) : bool :=
  Text.eqb k (txt "role") || Text.eqb k (txt "content").

(** The keyword the call [Message( **m )] refuses, if any: the first key, in
    the order of the dict, that is not a field.  The message names the key
    as it is. *)
Fixpoint bad_keyword (kw : list (text * value)) : option exn :=
  match kw with
  | [] => None
  | (k, _) :: kw' =>
      if is_field k then bad_keyword kw'
      else if Text.eqb k (txt "self") then
        Some (Exn TypeError
                  (txt "Message.__init__() got multiple values for argument 'self'"))
      else
        Some (Exn TypeError
                  (txt "Message.__init__() got an unexpected keyword argument '"
                   ++ k ++ txt "'"))
  end.

(** [Message( **m )]: [m] must be a mapping whose keys are exactly [role] and
    [content].  (The program runs as the module [__main__].) *)
Definition Message_kwargs (m : value) : result Message :=
  match m with
  | VDict kw =>
      match bad_keyword kw with
      | Some e => Raise e
      | None =>
          match dict_lookup (txt "role") kw, dict_lookup (txt "content") kw with
          | Some r, Some c => Return (mkMessage r c)
          | Some _, None =>
              Raise (Exn TypeError
                         (txt "Message.__init__() missing 1 required positional argument: 'content'"))
          | None, Some _ =>
              Raise (Exn TypeError
                         (txt "Message.__init__() missing 1 required positional argument: 'role'"))
          | None, None =>
              Raise (Exn TypeError
                         (txt "Message.__init__() missing 2 required positional arguments: 'role' and 'content'"))
          end
      end
  | _ =>
      Raise (Exn TypeError
                 (txt "__main__.Message() argument after ** must be a mapping, not "
                  ++ type_name m))
  end.

(** The comprehension [[Message( **m ) for m in ...]]. *)
Fixpoint Message_list (ms : list value) : result (list Message) :=
  match ms with
  | [] => Return []
  | m :: ms' =>
      x <- Message_kwargs m ;;
      xs <- Message_list ms' ;;
      Return (x :: xs)
  end.

(** [c.get(key, default)]; anything but a dict has no [get]. *)
Definition get (c : value) (key : text) (default : value) : result value :=
  match c with
  | VDict d =>
      Return match dict_lookup key d with Some v => v | None => default end
  | _ =>
      Raise (Exn AttributeError
                 (txt "'" ++ type_name c ++ txt "' object has no attribute 'get'"))
  end.

(** One round of the loop of [load_conversations]: the [Conversation] built
    from the record [c]. *)
Definition load_record (c : value) : result Conversation :=
  i <- get c (txt "id") VNone ;;
  t <- get c (txt "title") VNone ;;
  raw <- get c (txt "messages") (VList []) ;;
  ms <- iterate raw ;;
  msgs <- Message_list ms ;;
  Return (mkConversation i t msgs).

(** The loop [for c in data: convos.append(...)]. *)
Fixpoint load_loop (data : list value) (convos : list Conversation)
  : result (list Conversation) :=
  match data with
  | [] => Return convos
  | c :: data' =>
      conv <- load_record c ;;
      load_loop data' (convos ++ [conv])
  end.

(** [json.load(f)] on the text read.  The text of the exception is
    abbreviated; the interpreter's is ASCII as well. *)
Definition json_load (t : text) : result value :=
  match Decoder.loads t with
  | Some v => Return v
  | None => Raise (Exn ValueError (txt "invalid JSON document"))
  end.

(** What follows [data = json.load(f)] inside the [try]. *)
Definition load_data (data : value) : result (list Conversation) :=
  items <- iterate data ;;
  load_loop items [].

(** The body of the [try] of [load_conversations], on the decoded file. *)
Definition load_body (t : text) : result (list Conversation) :=
  data <- json_load (universal_newlines t) ;;
  load_data data.

(** The clause [except Exception as e] of [load_conversations]: the line is
    formatted, then printed, then the empty list is returned; an exception
    of the formatting or of the printing leaves the function. *)
Definition load_handler (e : thrown) (w : world)
  : result (list Conversation) * world :=
  if caught e then
    match
      (s <- str_thrown e ;;
       print_line (txt "Error loading conversations: " ++ s) w)
    with
    | Return w' => (Return [], w')
    | Raise e' => (Raise e', w)
    end
  else (Raise e, w).

(** The [try] statement, given what its body did. *)
Definition load_outcome (r : result (list Conversation)) (w : world)
  : result (list Conversation) * world :=
  match r with
  | Return convos => (Return convos, w)
  | Raise e => load_handler e w
  end.


Definition load_conversations (w : world)
  : result (list Conversation) * world :=
  match disk w with
  | Missing => (Return [], w)
  | Unreadable e => load_handler e w
  | Content t => load_outcome (load_body t) w
  end.

(** [asdict(m)]. *)
Definition asdict (m : Message) : value :=
  VDict [(txt "role", role m); (txt "content", content m)].

(** The list handed to [json.dump]. *)
Definition document (convos : list Conversation) : value :=
  VList (map (fun c =>
                VDict [(txt "id", id c); (txt "title", title c);
                       (txt "messages", VList (map asdict (messages c)))])
             convos).

(** [for chunk in iterable: fp.write(chunk)] on a utf-8 text file: a chunk
    that holds a surrogate raises, and what was written before it stays. *)
Fixpoint write_chunks (chunks : list text) (written : text)
  : text * option exn :=
  match chunks with
  | [] => (written, None)
  | chunk :: chunks' =>
      if Text.encodable chunk then write_chunks chunks' (written ++ chunk)
      else (written, Some (encode_error chunk))
  end.

(** [save_conversations].  The exceptions its handler formats and prints
    are the interpreter's own, the [OSError] of [open] and the
    [UnicodeEncodeError] of the write: their texts name the file and the
    code point in ASCII, and the line reaches the output. *)
Definition save_conversations (convos : list Conversation) (w : world)
  : world :=
  match write_fault w with
  | Some e => print (txt "Error saving conversations: " ++ exn_str e) w
  | None =>
      let '(written, fault) :=
        write_chunks (Encoder.iterencode (document convos) 0) [] in
      let w' := set_disk (Content written) w in
      match fault with
      | None => w'
      | Some e => print (txt "Error saving conversations: " ++ exn_str e) w'
      end
  end.

End Store.

(* ================================================================== *)
(** ** Provider responses

    What [g4f.ChatCompletion.create] may hand back: a [str], or an object
    described by what the program asks of it:
    - its [content] attribute: absent, raising on access, or a value;
    - what [hasattr(o, "__iter__")] gives, or the exception it lets through;
    - what [for chunk in o] does: the chunks it yields and the exception
      that ends the iteration if one does, or nothing when the object cannot
      be iterated.  The two are independent: an object that only defines
      [__getitem__] is iterated by [for] and has no [__iter__], and one
      whose [__iter__] is an instance attribute has it and cannot be
      iterated;
    - the result of [str(...)] on it. *)

Inductive pyobj : Type :=
| PStr (s : text)
| PObj (content_attr : option (result pyobj))
       (iter_attr : result bool)
       (iter : option (list pyobj * option thrown))
       (str : result text).

Module Response.

(** [hasattr(o, "content")]: false when the lookup raises [AttributeError],
    any other exception of the lookup propagates. *)
Definition hasattr_content (o : pyobj) : result bool :=
  match o with
  | PStr _ => Return false
  | PObj None _ _ _ => Return false
  | PObj (Some (Return _)) _ _ _ => Return true
  | PObj (Some (Raise e)) _ _ _ =>
      if is_AttributeError e then Return false else Raise e
  end.

(** [o.content]. *)
Definition getattr_content (o : pyobj) : result pyobj :=
  match o with
  | PObj (Some r) _ _ _ => r
  | _ => Raise (Exn AttributeError (txt "object has no attribute 'content'"))
  end.

(** [hasattr(o, "__iter__")]. *)
Definition hasattr_iter (o : pyobj) : result bool :=
  match o with
  | PStr _ => Return true
  | PObj _ h _ _ => h
  end.

(** [for chunk in o]: the chunks in arrival order and the exception that
    ends the iteration, if any.  A [str] yields its characters. *)
Definition iterate (o : pyobj) : list pyobj * option thrown :=
  match o with
  | PStr s => (map (fun c => PStr [c]) s, None)
  | PObj _ _ (Some it) _ => it
  | PObj _ _ None _ =>
      ([], Some (Printable (Exn TypeError (txt "object is not iterable"))))
  end.

(** [str(o)]. *)
Definition str_of (o : pyobj) : result text :=
  match o with
  | PStr s => Return s
  | PObj _ _ _ r => r
  end.

(** [acc + x] for a [str] on the left: [x] must be a [str]. *)
Definition concat_str (acc : text) (x : pyobj) : result text :=
  match x with
  | PStr s => Return (acc ++ s)
  | PObj _ _ _ _ =>
      Raise (Exn TypeError (txt "can only concatenate str to str"))
  end.

(** ["".join(chunks)]: every item must be a [str]. *)
Fixpoint join_chunks (chunks : list pyobj) : result text :=
  match chunks with
  | [] => Return []
  | PStr s :: chunks' =>
      rest <- join_chunks chunks' ;;
      Return (s ++ rest)
  | PObj _ _ _ _ :: _ =>
      Raise (Exn TypeError (txt "sequence item: expected str instance"))
  end.

(** Whether [P] holds of every exception that [o] holds: those its
    attributes, its iteration and [str] raise, and those of the objects
    reached from it. *)
Fixpoint all_exceptions (P : thrown -> bool) (o : pyobj) : bool :=
  match o with
  | PStr _ => true
  | PObj attr h it s =>
      match attr with
      | None => true
      | Some (Return c) => all_exceptions P c
      | Some (Raise e) => P e
      end
      && match h with Return _ => true | Raise e => P e end
      && match it with
         | None => true
         | Some (items, fault) =>
             forallb (all_exceptions P) items
             && match fault with Some e => P e | None => true end
         end
      && match s with Return _ => true | Raise e => P e end
  end.

End Response.

(* ================================================================== *)
(** ** The application *)

Module App.

Import Response.

(** One call of [g4f.ChatCompletion.create]. *)
Record call : Type := mkCall {
  call_model : text;
  call_messages : list (value * value);
  call_stream : bool
}.

(** The provider is outside the program: given the calls made before and the
    present one, it returns a response or raises. *)
Definition provider : Type := list call -> call -> result pyobj.

(** The variables [main] closes over, the world, and the provider calls made
    so far (oldest first).  The widgets are left out but for the three whose
    values the send path reads. *)
Record state : Type := mkState {
  conversations : list Conversation;
  selected_index : nat;
  model_dropdown : option text;
  streaming_toggle : bool;
  input_field : text;
  outside : world;
  calls : list call
}.

Definition set_conversations (cs : list Conversation) (st : state) : state :=
  mkState cs (selected_index st) (model_dropdown st) (streaming_toggle st)
          (input_field st) (outside st) (calls st).

Definition set_outside (w : world) (st : state) : state :=
  mkState (conversations st) (selected_index st) (model_dropdown st)
          (streaming_toggle st) (input_field st) w (calls st).

Definition set_input_field (t : text) (st : state) : state :=
  mkState (conversations st) (selected_index st) (model_dropdown st)
          (streaming_toggle st) t (outside st) (calls st).

Definition add_call (c : call) (st : state) : state :=
  mkState (conversations st) (selected_index st) (model_dropdown st)
          (streaming_toggle st) (input_field st) (outside st)
          (calls st ++ [c]).

(** The conversation at position [i] replaced by [f] of it: what a mutation
    through the reference [conversations[i]] does to the list. *)
Fixpoint update_nth (i : nat) (f : Conversation -> Conversation)
  (cs : list Conversation) : list Conversation :=
  match cs, i with
  | [], _ => []
  | c :: cs', O => f c :: cs'
  | c :: cs', S i' => c :: update_nth i' f cs'
  end.

(** [conv.messages.append(m)]. *)
Definition append_message (m : Message) (c : Conversation) : Conversation :=
  mkConversation (id c) (title c) (messages c ++ [m]).

(** [conv.title = t]. *)
Definition set_title (t : value) (c : Conversation) : Conversation :=
  mkConversation (id c) t (messages c).

(** [save_conversations(conversations)] from inside [main]. *)
Definition save (st : state) : state :=
  set_outside (Store.save_conversations (conversations st) (outside st)) st.

Definition placeholder : text := txt "[Error: Could not parse response]".

(** One round of the loop of [extract_response_content]: what is appended to
    [chunks]. *)
Definition extract_chunk (chunk : pyobj) : result pyobj :=
  match chunk with
  | PStr _ => Return chunk
  | _ =>
      has <- hasattr_content chunk ;;
      if has then getattr_content chunk
      else s <- str_of chunk ;; Return (PStr s)
  end.

Fixpoint extract_loop (items : list pyobj) (chunks : list pyobj)
  : result (list pyobj) :=
  match items with
  | [] => Return chunks
  | chunk :: items' =>
      x <- extract_chunk chunk ;;
      extract_loop items' (chunks ++ [x])
  end.

(** The body of the [try] of [extract_response_content]. *)
Definition extract_body (response : pyobj) : result text :=
  match response with
  | PStr s => Return s
  | _ =>
      has <- hasattr_content response ;;
      if has then c <- getattr_content response ;; str_of c
      else
        it <- hasattr_iter response ;;
        if it then
          let '(items, fault) := iterate response in
          chunks <- extract_loop items [] ;;
          match fault with
          | Some e => Raise e
          | None => join_chunks chunks
          end
        else str_of response
  end.

(** [extract_response_content]: the clause [except Exception] turns what it
    catches into the placeholder; an exception of another class leaves the
    function. *)
Definition extract_response_content (response : pyobj) : result text :=
  match extract_body response with
  | Return t => Return t
  | Raise e => if caught e then Return placeholder else Raise e
  end.

(** One round of the streaming loop of [stream_response]: the new value of
    [assistant_msg_content]. *)
Definition stream_chunk (acc : text) (chunk : pyobj) : result text :=
  match chunk with
  | PStr s => Return (acc ++ s)
  | _ =>
      has <- hasattr_content chunk ;;
      if has then c <- getattr_content chunk ;; concat_str acc c
      else s <- str_of chunk ;; Return (acc ++ s)
  end.

(** The streaming loop: the text accumulated, and the exception that stopped
    it if one did. *)
Fixpoint stream_loop (items : list pyobj) (acc : text)
  : text * option thrown :=
  match items with
  | [] => (acc, None)
  | chunk :: items' =>
      match stream_chunk acc chunk with
      | Return acc' => stream_loop items' acc'
      | Raise e => (acc, Some e)
      end
  end.

Definition consume (response : pyobj) : text * option thrown :=
  let '(items, fault) := iterate response in
  match stream_loop items [] with
  | (acc, None) => (acc, fault)
  | stopped => stopped
  end.

(** The body of the inner [try] of [stream_response], given what the
    streaming call gave: the text accumulated and the exception that leaves
    the body, if any. *)
Definition streaming_attempt (r : result pyobj) : text * option thrown :=
  match r with
  | Return response => consume response
  | Raise e => ([], Some e)
  end.

(** [g4f.ChatCompletion.create(model=..., messages=..., stream=...)]. *)
Definition create (p : provider) (c : call) (st : state)
  : result pyobj * state :=
  (p (calls st) c, add_call c st).

(** [print(f"Streaming failed for {model}: {e}")]: the state after the
    line was printed, or the exception of the formatting or of the
    printing. *)
Definition log_failure (model : text) (e : thrown) (st : state)
  : result state :=
  s <- str_thrown e ;;
  w <- print_line (txt "Streaming failed for " ++ model ++ txt ": " ++ s)
                  (outside st) ;;
  Return (set_outside w st).

(** [f"[Error: Cannot get response from '{model}'. {str(e)}]"], given the
    text [str(e)] gave. *)
Definition error_text (model detail : text) : text :=
  txt "[Error: Cannot get response from '" ++ model ++ txt "'. "
  ++ detail ++ txt "]".

(** [model_dropdown.value or DEFAULT_MODEL]. *)
Definition chosen_model (st : state) : text :=
  match model_dropdown st with
  | None | Some [] => DEFAULT_MODEL
  | Some m => m
  end.

(** The payload [[{"role": m.role, "content": m.content} for m in ...]]. *)
Definition payload (c : Conversation) : list (value * value) :=
  map (fun m => (role m, content m)) (messages c).

(** The call without streaming and the normalization of its value: the
    state, the new value of [assistant_msg_content], which is [acc] when an
    exception came first, and that exception. *)
Definition plain_request (p : provider) (model : text) (conv : Conversation)
  (acc : text) (st : state) : state * text * option thrown :=
  let '(r, st1) := create p (mkCall model (payload conv) false) st in
  match r with
  | Raise e => (st1, acc, Some e)
  | Return response =>
      match extract_response_content response with
      | Return t => (st1, t, None)
      | Raise e => (st1, acc, Some e)
      end
  end.

(** The body of the outer [try] of [stream_response] up to the point where
    the assistant message is appended: the state, the value of
    [assistant_msg_content], and the exception that leaves the body, if
    any.  The inner handler runs for the exceptions [except Exception]
    catches; an exception raised inside it leaves the body as well. *)
Definition request (p : provider) (model : text) (conv : Conversation)
  (st : state) : state * text * option thrown :=
  if streaming_toggle st then
    let '(r, st1) := create p (mkCall model (payload conv) true) st in
    let '(acc, fault) := streaming_attempt r in
    match fault with
    | None => (st1, acc, None)
    | Some e =>
        if caught e then
          match log_failure model e st1 with
          | Raise e' => (st1, acc, Some e')
          | Return st2 => plain_request p model conv acc st2
          end
        else (st1, acc, Some e)
    end
  else plain_request p model conv [] st.

Definition user_message (prompt : text) : Message :=
  mkMessage (VStr (txt "user")) (VStr prompt).

Definition assistant_message (t : text) : Message :=
  mkMessage (VStr (txt "assistant")) (VStr t).

Definition append_to_selected (m : Message) (st : state) : state :=
  set_conversations
    (update_nth (selected_index st) (append_message m) (conversations st)) st.

(** The text of the assistant message, given what the body of the outer
    [try] left: the text accumulated when no exception left it; for an
    exception the outer [except Exception] catches, that text followed by
    the error text, unless [str(e)] raises.  The exception otherwise. *)
Definition final_text (model acc : text) (fault : option thrown)
  : result text :=
  match fault with
  | None => Return acc
  | Some e =>
      if caught e then
        detail <- str_thrown e ;;
        Return (acc ++ error_text model detail)
      else Raise e
  end.

(** The end of [stream_response]: the assistant message is appended and
    saved, by the body of the [try] or by its handler; an exception the
    handler does not catch, or raises, leaves the function. *)
Definition finish (model : text) (st : state) (acc : text)
  (fault : option thrown) : state * option thrown :=
  match final_text model acc fault with
  | Return final =>
      (save (append_to_selected (assistant_message final) st), None)
  | Raise e => (st, Some e)
  end.

(** [stream_response(prompt)]: the state it leaves, and the exception that
    leaves it, if any.  What was done before an exception stays done. *)
Definition stream_response (p : provider) (prompt : text) (st : state)
  : state * option thrown :=
  match nth_error (conversations st) (selected_index st) with
  | None => (st, Some (Printable (Exn IndexError (txt "list index out of range"))))
  | Some conv =>
      let conv1 := append_message (user_message prompt) conv in
      let st1 := save (append_to_selected (user_message prompt) st) in
      let model := chosen_model st1 in
      let '(st2, acc, fault) := request p model conv1 st1 in
      finish model st2 acc fault
  end.

(** [text[:30] + "..." if len(text) > 30 else text]. *)
Definition derive_title (t : text) : text :=
  if 30 <? List.length t then firstn 30 t ++ txt "..." else t.

Definition on_send_click (p : provider) (st : state)
  : state * option thrown :=
  let t := Text.strip (input_field st) in
  match t with
  | [] => (st, None)
  | _ :: _ =>
      match nth_error (conversations st) (selected_index st) with
      | None =>
          (st, Some (Printable (Exn IndexError (txt "list index out of range"))))
      | Some conv =>
          let st1 :=
            match messages conv with
            | [] =>
                set_conversations
                  (update_nth (selected_index st)
                              (set_title (VStr (derive_title t)))
                              (conversations st)) st
            | _ :: _ => st
            end in
          stream_response p t (set_input_field [] st1)
      end
  end.

(** The start of [main]: the conversations are loaded, and a first one is
    made when there is none.  [new_id] is what [str(uuid.uuid4())] gives.
    An exception that leaves [load_conversations] leaves [main]. *)
Definition main (new_id : text) (w : world) : result state :=
  let '(r, w') := Store.load_conversations w in
  loaded <- r ;;
  let conversations :=
    match loaded with
    | [] => loaded ++ [mkConversation (VStr new_id) (VStr (txt "New Chat")) []]
    | _ :: _ => loaded
    end in
  Return (mkState conversations 0 (Some DEFAULT_MODEL) true [] w' []).

(** Several sends in a row: each input is typed into the field and sent,
    up to the first exception. *)
Fixpoint send_all (p : provider) (inputs : list text) (st : state)
  : state * option thrown :=
  match inputs with
  | [] => (st, None)
  | input :: inputs' =>
      match on_send_click p (set_input_field input st) with
      | (st', None) => send_all p inputs' st'
      | stopped => stopped
      end
  end.

(** A provider whose exceptions, and those of the values it returns and
    of the objects reached from them, all derive from [Exception] and have
    a text. *)
Definition well_behaved (p : provider) : Prop :=
  forall history c,
    match p history c with
    | Raise e => tame e = true
    | Return response => all_exceptions tame response = true
    end.

End App.

(* ================================================================== *)
(** ** The normalizer as the specification words it

    Section 4.2 of the specification: three shape classes checked in
    priority order, the chunks of an iterable classified recursively by the
    same rules.  An iterable is what [for] can iterate.  Kept apart from
    [App.extract_response_content], which is the program's. *)

Module Spec.

Import Response.

Fixpoint normalize_spec (o : pyobj) : result text :=
  match o with
  | PStr s => Return s
  | PObj attr _ it s =>
      has <- hasattr_content o ;;
      if has then c <- getattr_content o ;; str_of c
      else
        match it with
        | Some (items, fault) =>
            (fix chunks (l : list pyobj) : result text :=
               match l with
               | [] =>
                   match fault with
                   | Some e => Raise e
                   | None => Return []
                   end
               | x :: l' =>
                   a <- normalize_spec x ;;
                   b <- chunks l' ;;
                   Return (a ++ b)
               end) items
        | None => s
        end
  end.

(** The rule the program applies to one chunk of an iterable response, as
    one function: a string is taken as it is, a [content] field is taken when
    it is a string, anything else is stringified. *)
Definition chunk_text (c : pyobj) : result text :=
  match c with
  | PStr s => Return s
  | _ =>
      has <- hasattr_content c ;;
      if has then v <- getattr_content c ;; concat_str [] v
      else str_of c
  end.

Fixpoint chunk_texts (items : list pyobj) : result (list text) :=
  match items with
  | [] => Return []
  | c :: items' =>
      t <- chunk_text c ;;
      ts <- chunk_texts items' ;;
      Return (t :: ts)
  end.

End Spec.

(* ================================================================== *)
(** ** The stored document as text

    The text of the file after a save that runs to its end, written out for
    the shape [save_conversations] dumps: an array of objects with three
    members, the third an array of objects with two.  [RoundTripFacts] shows
    that the encoder produces it and that the decoder reads it back. *)

Module Layout.

Import Encoder.

(** An array at [level] whose elements have the given texts. *)
Definition array_text (level : nat) (elems : list text) : text :=
  match elems with
  | [] => txt "[]"
  | _ :: _ =>
      91%N :: newline_indent (S level)
      ++ Text.join (44%N :: newline_indent (S level)) elems
      ++ newline_indent level ++ [93%N]
  end.

(** An object at [level] whose members have the given texts. *)
Definition object_text (level : nat) (members : list text) : text :=
  match members with
  | [] => txt "{}"
  | _ :: _ =>
      123%N :: newline_indent (S level)
      ++ Text.join (44%N :: newline_indent (S level)) members
      ++ newline_indent level ++ [125%N]
  end.

Definition member_text (key : text) (val : text) : text :=
  encode_basestring key ++ txt ": " ++ val.

(** A field that is not a list or a dict. *)
Definition field_text (v : value) : text :=
  match atom v with
  | Some a => a
  | None => []
  end.

Definition message_text (level : nat) (m : Message) : text :=
  object_text level
    [member_text (txt "role") (field_text (role m));
     member_text (txt "content") (field_text (content m))].

Definition conversation_text (level : nat) (c : Conversation) : text :=
  object_text level
    [member_text (txt "id") (field_text (id c));
     member_text (txt "title") (field_text (title c));
     member_text (txt "messages")
       (array_text (S level) (map (message_text (S (S level))) (messages c)))].

Definition document_text (convos : list Conversation) : text :=
  array_text 0 (map (conversation_text 1) convos).

(** The first character of [t] can start a value inside an array or after a
    colon: it is not whitespace and does not close an array. *)
Definition leading (t : text) : Prop :=
  exists c r,
    t = c :: r
    /\ ((c =? 32) || (c =? 9) || (c =? 10) || (c =? 13) || (c =? 93))%N = false.

(** [t] is read as [v] by [scan_once], whatever follows it, with the fuel
    [loads] provides for a text of that length. *)
Definition parses (t : text) (v : value) : Prop :=
  leading t
  /\ forall fuel rest,
       2 * List.length (t ++ rest) + 1 <= fuel ->
       Decoder.scan_once fuel (t ++ rest) = Some (v, rest).

End Layout.

(** The fields the round trip is about: strings, and strings that utf-8 can
    encode. *)
Module Fields.

Definition is_str (v : value) : bool :=
  match v with VStr _ => true | _ => false end.

Definition is_utf8_str (v : value) : bool :=
  match v with VStr s => Text.encodable s | _ => false end.

Definition all_fields (ok : value -> bool) (c : Conversation) : bool :=
  ok (id c) && ok (title c)
  && forallb (fun m => ok (role m) && ok (content m)) (messages c).

(** A string whose characters satisfy [P], but for the control characters,
    which the encoder escapes; and a field that is such a string. *)
Definition escapable (P : N -> bool) (s : text) : bool :=
  forallb (fun c => P c || (c <? 32)%N) s.

Definition field_ok (P : N -> bool) (v : value) : bool :=
  match v with
  | VStr s => escapable P s
  | _ => false
  end.

(** The two properties used: utf-8 can encode the character, and the
    character is not a carriage return. *)
Definition not_surrogate (c : N) : bool := negb (Text.is_surrogate c).

Definition not_cr (c : N) : bool := negb (c =? 13)%N.

(** An exception of the interpreter that [except Exception] catches; its
    text can be printed when [ok] holds. *)
Definition reported (ok : bool) (e : thrown) : Prop :=
  exists x,
    e = Printable x
    /\ is_Exception (exn_cls x) = true
    /\ (ok = true -> Text.encodable (exn_str x) = true).

(** No key of an object anywhere in [v] holds a surrogate. *)
Fixpoint keys_encodable (v : value) : bool :=
  match v with
  | VList items => forallb keys_encodable items
  | VDict pairs =>
      forallb (fun kv : text * value =>
                 let (k, x) := kv in Text.encodable k && keys_encodable x)
              pairs
  | _ => true
  end.

End Fields.

(* ================================================================== *)
(** ** Conversations: selecting one, starting one, and the events of a run *)

Module Chats.

Import App.

Definition set_selected_index (i : nat) (st : state) : state :=
  mkState (conversations st) i (model_dropdown st) (streaming_toggle st)
          (input_field st) (outside st) (calls st).

(** [m.role == "user"]. *)
Definition is_user (m : Message) : bool :=
  match role m with
  | VStr s => Text.eqb s (txt "user")
  | _ => false
  end.

(** [rebuild_messages]: the bubbles put into the message view, each the
    content shown and whether it is laid out as the user's; the lookup of
    the selected conversation raises when the index is out of range. *)
Definition rebuild_messages (st : state) : result (list (value * bool)) :=
  match nth_error (conversations st) (selected_index st) with
  | None => Raise (Exn IndexError (txt "list index out of range"))
  | Some convo => Return (map (fun m => (content m, is_user m)) (messages convo))
  end.

(** [select_convo(idx)]: the index is stored first, then the views are
    rebuilt; the state is given back with the exception of the rebuild, if
    it raised. *)
Definition select_convo (idx : nat) (st : state) : state * option thrown :=
  let st' := set_selected_index idx st in
  match rebuild_messages st' with
  | Return _ => (st', None)
  | Raise e => (st', Some e)
  end.

(** [new_chat()], with [new_id] for [str(uuid.uuid4())]. *)
Definition new_chat (new_id : text) (st : state) : state * option thrown :=
  let title :=
    txt "Chat "
    ++ Encoder.intstr (Z.of_nat (List.length (conversations st) + 1)) in
  let st1 :=
    save (set_conversations
            (conversations st ++ [mkConversation (VStr new_id) (VStr title) []])
            st) in
  select_convo (List.length (conversations st1) - 1) st1.

(** What the user can do that reaches the handlers above: type a text and
    send it (the send button, the field's submit, or Enter), press
    [New chat], or press the button of a conversation in the list. *)
Inductive event : Type :=
| Send (input : text)
| NewChat (new_id : text)
| Select (idx : nat).

Definition handle (p : provider) (ev : event) (st : state)
  : state * option thrown :=
  match ev with
  | Send input => on_send_click p (set_input_field input st)
  | NewChat new_id => new_chat new_id st
  | Select idx => select_convo idx st
  end.

(** The events handled one after the other, up to the first exception. *)
Fixpoint run (p : provider) (evs : list event) (st : state)
  : state * option thrown :=
  match evs with
  | [] => (st, None)
  | ev :: evs' =>
      match handle p ev st with
      | (st', None) => run p evs' st'
      | stopped => stopped
      end
  end.

(** Every [Select] names a conversation that exists when it is handled,
    [n] being the number of conversations at the start: the list shows one
    button per conversation. *)
Fixpoint in_range (n : nat) (evs : list event) : bool :=
  match evs with
  | [] => true
  | Send _ :: evs' => in_range n evs'
  | NewChat _ :: evs' => in_range (S n) evs'
  | Select idx :: evs' => (idx <? n) && in_range n evs'
  end.

(** The ids the [NewChat] events bring, in order. *)
Fixpoint new_ids (evs : list event) : list value :=
  match evs with
  | [] => []
  | NewChat new_id :: evs' => VStr new_id :: new_ids evs'
  | _ :: evs' => new_ids evs'
  end.

(** The selection names a conversation. *)
Definition valid (st : state) : Prop :=
  selected_index st < List.length (conversations st).

(** [cs'] holds, at every position of [cs], a conversation with the same id
    whose messages start with those it had in [cs]. *)
Definition grows (cs cs' : list Conversation) : Prop :=
  forall j c,
    nth_error cs j = Some c ->
    exists c' extra,
      nth_error cs' j = Some c'
      /\ id c' = id c
      /\ messages c' = messages c ++ extra.

End Chats.

(* ================================================================== *)
(** ** The conversation list shown *)

Module Views.

Import App Chats.

(** [enumerate(l)], counting from [start]. *)
Fixpoint enumerate (A : Type) (start : nat) (l : list A) : list (nat * A) :=
  match l with
  | [] => []
  | x :: l' => (start, x) :: enumerate (S start) l'
  end.

(** One button of the conversation list: its label, the index its click
    hands to [select_convo], and whether it is drawn as the selected one
    (white on blue). *)
Record button : Type := mkButton {
  label : value;
  on_click : nat;
  highlighted : bool
}.

(** [rebuild_convo_list]: the buttons put into the list, one per
    conversation. *)
Definition rebuild_convo_list (st : state) : list button :=
  map (fun ic =>
         mkButton (title (snd ic)) (fst ic) (fst ic =? selected_index st))
      (enumerate 0 (conversations st)).

End Views.

(* ================================================================== *)
(** ** Sample inputs *)

Module Samples.

(** The list [['a', 'b']] as a response object: no [content], two chunks,
    and the text [str] gives for it. *)
Definition inner_list : pyobj :=
  PObj None (Return true) (Some ([PStr (txt "a"); PStr (txt "b")], None))
       (Return (txt "['a', 'b']")).

(** The list [['x', ['a', 'b']]]. *)
Definition nested_response : pyobj :=
  PObj None (Return true) (Some ([PStr (txt "x"); inner_list], None))
       (Return (txt "['x', ['a', 'b']]")).

(** An object that yields [Hel] and [lo] through [__getitem__] and defines
    no [__iter__]. *)
Definition getitem_only : pyobj :=
  PObj None (Return false)
       (Some ([PStr (txt "Hel"); PStr (txt "lo")], None))
       (Return (txt "<Chunks object>")).

(** An iterable whose iteration is cancelled after a first chunk. *)
Definition cancelled_stream : pyobj :=
  PObj None (Return true)
       (Some ([PStr (txt "Hel")], Some (Printable (Exn CancelledError []))))
       (Return (txt "<generator>")).

(** A provider whose every call raises. *)
Definition always_raise : App.provider :=
  fun _ _ => Raise (Exn OtherError (txt "boom")).

(** A provider whose every call is interrupted from the keyboard. *)
Definition interrupted : App.provider :=
  fun _ _ => Raise (Exn KeyboardInterrupt []).

(** A provider whose every call raises an exception whose [__str__] raises
    a [ValueError]. *)
Definition unprintable : App.provider :=
  fun _ _ =>
    Raise (Unprintable OtherError
             (Printable (Exn ValueError (txt "bad format")))).

(** A provider whose stream breaks after a first chunk and whose call
    without streaming answers. *)
Definition broken_stream : App.provider :=
  fun _ c =>
    if App.call_stream c
    then Return (PObj None (Return true)
                      (Some ([PStr (txt "Hel")],
                             Some (Printable
                                     (Exn OtherError (txt "connection lost")))))
                      (Return (txt "<generator>")))
    else Return (PStr (txt "Hello")).


(** A world without data file, and one whose file is not JSON. *)
Definition no_file : world := mkWorld Missing None [].


(** The state [main] starts in when there is no data file and the id drawn
    is [0000]. *)
Definition fresh_state : App.state :=
  App.mkState [mkConversation (VStr (txt "0000")) (VStr (txt "New Chat")) []]
              0 (Some DEFAULT_MODEL) true [] no_file [].

(** A conversation whose strings all encode, and one whose message holds a
    lone surrogate, U+D800. *)
Definition plain_conversation : Conversation :=
  mkConversation (VStr (txt "id-1")) (VStr (txt "Greeting"))
    [mkMessage (VStr (txt "user")) (VStr (txt "hello"))].

Definition surrogate_conversation : Conversation :=
  mkConversation (VStr (txt "id-2")) (VStr (txt "Emoji"))
    [mkMessage (VStr (txt "assistant")) (VStr [0xD800%N])].



End Samples.

(* ================================================================== *)
(** * Facts *)

Module TextFacts.

Lemma eqb_spec (a b : text) : reflect (a = b) (Text.eqb a b).
Proof.
  revert b; induction a as [|x a IH]; intros [|y b]; simpl;
    try (constructor; congruence).
  destruct (N.eqb_spec x y) as [->|Hxy]; simpl.
  - destruct (IH b) as [->|Hab]; constructor; congruence.
  - constructor; congruence.
Qed.

Lemma eqb_refl (a : text) : Text.eqb a a = true.
Proof. destruct (eqb_spec a a); congruence. Qed.


Lemma eqb_neq (a b : text) : Text.eqb a b = false <-> a <> b.
Proof. destruct (eqb_spec a b); split; congruence. Qed.

Lemma encodable_app (a b : text) :
  Text.encodable (a ++ b) = Text.encodable a && Text.encodable b.
Proof. apply forallb_app. Qed.

End TextFacts.

(* ================================================================== *)
(** ** What the encoder writes *)

Module EncoderFacts.

Import Encoder Layout.

Lemma iterencode_atom (v : value) (a : text) (level : nat) :
  atom v = Some a -> iterencode v level = [a].
Proof.
  destruct v as [| [|] | z | lit | s | l | d]; simpl; intros H;
    try discriminate; injection H as <-; reflexivity.
Qed.

Lemma join_cons (sep x y : text) (xs : list text) :
  Text.join sep (x :: y :: xs) = x ++ sep ++ Text.join sep (y :: xs).
Proof. reflexivity. Qed.

Section Chunks.

Variable sub : value -> list text.
Variable sep : text.
Hypothesis sub_atom : forall v a, atom v = Some a -> sub v = [a].

Lemma concat_list_chunks (l : list value) :
  forall buf,
    List.concat (list_chunks sub sep buf l)
    = match l with
      | [] => []
      | _ :: _ =>
          buf ++ Text.join sep (map (fun v => List.concat (sub v)) l)
      end.
Proof.
  induction l as [|v l IH]; intros buf; [reflexivity|].
  cbn [list_chunks]. rewrite concat_app, IH.
  assert (Hv : List.concat match atom v with
                           | Some a => [buf ++ a]
                           | None => buf :: sub v
                           end = buf ++ List.concat (sub v)).
  { destruct (atom v) as [a|] eqn:Ha; [|reflexivity].
    erewrite sub_atom by exact Ha. simpl. now rewrite !app_nil_r. }
  rewrite Hv. destruct l as [|w l].
  - simpl. now rewrite !app_nil_r.
  - cbn [map]. rewrite join_cons.
    now rewrite <- !app_assoc.
Qed.

Lemma concat_dict_chunks (d : list (text * value)) :
  forall first,
    List.concat (dict_chunks sub sep first d)
    = match d with
      | [] => []
      | _ :: _ =>
          (if first then [] else sep)
          ++ Text.join sep
               (map (fun kv =>
                       member_text (fst kv) (List.concat (sub (snd kv)))) d)
      end.
Proof.
  induction d as [|[k v] d IH]; intros first; [reflexivity|].
  cbn [dict_chunks]. rewrite !concat_app, IH.
  assert (Hv : List.concat match atom v return list text with
                           | Some a => [a]
                           | None => sub v
                           end = List.concat (sub v)).
  { destruct (atom v) as [a|] eqn:Ha; [|reflexivity].
    now erewrite sub_atom by exact Ha. }
  rewrite Hv. unfold member_text. destruct d as [|kv d].
  - destruct first; simpl; now rewrite ?app_nil_r, <- ?app_assoc.
  - cbn [map]. rewrite join_cons.
    destruct first; simpl; now rewrite ?app_nil_r, <- ?app_assoc.
Qed.

End Chunks.

Lemma dumps_list (level : nat) (l : list value) :
  List.concat (iterencode (VList l) level)
  = array_text level
      (map (fun v => List.concat (iterencode v (S level))) l).
Proof.
  destruct l as [|v l]; [reflexivity|].
  cbn [iterencode]. rewrite concat_app, concat_list_chunks
    by (intros w a; apply iterencode_atom).
  unfold array_text. cbn [map List.concat app].
  rewrite ?app_nil_r, <- ?app_assoc. reflexivity.
Qed.

Lemma dumps_dict (level : nat) (d : list (text * value)) :
  List.concat (iterencode (VDict d) level)
  = object_text level
      (map (fun kv =>
              member_text (fst kv)
                          (List.concat (iterencode (snd kv) (S level)))) d).
Proof.
  destruct d as [|kv d]; [reflexivity|].
  cbn [iterencode]. rewrite !concat_app, concat_dict_chunks
    by (intros w a; apply iterencode_atom).
  unfold object_text. cbn [map List.concat app].
  rewrite ?app_nil_r, <- ?app_assoc. reflexivity.
Qed.

Lemma is_str_atom (v : value) (level : nat) :
  Fields.is_str v = true ->
  List.concat (iterencode v level) = field_text v.
Proof.
  destruct v; simpl; try discriminate. intros _. now rewrite app_nil_r.
Qed.

Lemma dumps_message (level : nat) (m : Message) :
  Fields.is_str (role m) = true ->
  Fields.is_str (content m) = true ->
  List.concat (iterencode (Store.asdict m) level) = message_text level m.
Proof.
  intros Hr Hc. unfold Store.asdict. rewrite dumps_dict.
  cbn [map fst snd]. rewrite !is_str_atom by assumption. reflexivity.
Qed.

Lemma dumps_messages (level : nat) (ms : list Message) :
  forallb (fun m => Fields.is_str (role m) && Fields.is_str (content m)) ms
  = true ->
  List.concat (iterencode (VList (map Store.asdict ms)) level)
  = array_text level (map (message_text (S level)) ms).
Proof.
  intros H. rewrite dumps_list, map_map. f_equal.
  apply map_ext_in. intros m Hm.
  rewrite forallb_forall in H. specialize (H m Hm).
  apply andb_true_iff in H as [Hr Hc]. now apply dumps_message.
Qed.

(** The encoder writes the layout: a save of conversations whose fields are
    strings yields chunks that join to [document_text]. *)
Lemma dumps_document (convos : list Conversation) :
  Forall (fun c => Fields.all_fields Fields.is_str c = true) convos ->
  dumps (Store.document convos) = document_text convos.
Proof.
  intros H. unfold dumps, Store.document, document_text.
  rewrite dumps_list, map_map. f_equal.
  apply map_ext_in. intros c Hc.
  rewrite Forall_forall in H. specialize (H c Hc).
  unfold Fields.all_fields in H.
  apply andb_true_iff in H as [H Hms]. apply andb_true_iff in H as [Hi Ht].
  rewrite dumps_dict. cbn [map fst snd].
  rewrite !is_str_atom by assumption.
  now rewrite dumps_messages.
Qed.

End EncoderFacts.

(* ================================================================== *)
(** ** The characters of the stored document *)

Module CharFacts.

Import Encoder Layout.

Section Predicate.

(** A property of characters that the ASCII characters the encoder emits
    have, the line feed among them. *)
Variable P : N -> bool.
Hypothesis P_ascii : forall c, (c = 10 \/ 32 <= c <= 126)%N -> P c = true.

Lemma all_hex_digit (n : N) : (n < 16)%N -> P (hex_digit n) = true.
Proof.
  intros H. apply P_ascii. right. unfold hex_digit.
  destruct (N.ltb_spec n 10); lia.
Qed.

Lemma all_escape_char (c : N) :
  P c || (c <? 32)%N = true -> forallb P (escape_char c) = true.
Proof.
  intros H. unfold escape_char.
  repeat match goal with
         | |- context [(c =? ?k)%N] =>
             destruct (N.eqb_spec c k);
             [simpl; rewrite !P_ascii by lia; reflexivity|]
         end.
  destruct (N.ltb_spec c 32) as [Hlt|Hge].
  - unfold u_escape. cbn [forallb].
    rewrite !P_ascii by lia.
    rewrite !all_hex_digit; [reflexivity| |].
    + apply N.mod_lt. lia.
    + apply N.Div0.div_lt_upper_bound. lia.
  - simpl. rewrite orb_false_r in H. now rewrite H.
Qed.

Lemma all_encode_basestring (s : text) :
  Fields.escapable P s = true -> forallb P (encode_basestring s) = true.
Proof.
  intros H. unfold encode_basestring. cbn [forallb].
  rewrite P_ascii by lia. rewrite forallb_app. cbn [forallb].
  rewrite (P_ascii (c := 34)) by lia. rewrite !andb_true_r. simpl.
  induction s as [|c s IH]; [reflexivity|].
  unfold Fields.escapable in *. simpl in H.
  apply andb_true_iff in H as [Hc Hs].
  cbn [flat_map]. rewrite forallb_app, all_escape_char, IH by assumption.
  reflexivity.
Qed.

Lemma all_newline_indent (level : nat) :
  forallb P (newline_indent level) = true.
Proof.
  unfold newline_indent, Text.spaces. generalize (2 * level). intros n.
  cbn [forallb]. rewrite P_ascii by lia. cbn [andb].
  induction n as [|n IH]; [reflexivity|].
  simpl. rewrite P_ascii by lia. exact IH.
Qed.

Lemma all_join (sep : text) (parts : list text) :
  forallb P sep = true ->
  Forall (fun t => forallb P t = true) parts ->
  forallb P (Text.join sep parts) = true.
Proof.
  intros Hsep. induction 1 as [|t parts Ht Hparts IH]; [reflexivity|].
  destruct parts as [|u parts]; [exact Ht|].
  rewrite EncoderFacts.join_cons, !forallb_app, Ht, Hsep. exact IH.
Qed.

Lemma all_bracketed (opening closing : N) (level : nat) (parts : list text) :
  P opening = true -> P closing = true ->
  Forall (fun t => forallb P t = true) parts ->
  forallb P
    (opening :: newline_indent (S level)
     ++ Text.join (44%N :: newline_indent (S level)) parts
     ++ newline_indent level ++ [closing]) = true.
Proof.
  intros Ho Hc Hparts. cbn [forallb]. rewrite Ho, !forallb_app.
  rewrite !all_newline_indent, all_join; try assumption.
  - simpl. now rewrite Hc.
  - cbn [forallb]. rewrite P_ascii by lia. apply all_newline_indent.
Qed.

Lemma all_array_text (level : nat) (elems : list text) :
  Forall (fun t => forallb P t = true) elems ->
  forallb P (array_text level elems) = true.
Proof.
  intros H. unfold array_text. destruct elems as [|t elems].
  - simpl. now rewrite !P_ascii by lia.
  - apply all_bracketed; try assumption; apply P_ascii; lia.
Qed.

Lemma all_object_text (level : nat) (members : list text) :
  Forall (fun t => forallb P t = true) members ->
  forallb P (object_text level members) = true.
Proof.
  intros H. unfold object_text. destruct members as [|t members].
  - simpl. now rewrite !P_ascii by lia.
  - apply all_bracketed; try assumption; apply P_ascii; lia.
Qed.

Lemma escapable_ascii (key : text) :
  forallb (fun c => (32 <=? c) && (c <=? 126))%N key = true ->
  Fields.escapable P key = true.
Proof.
  unfold Fields.escapable. induction key as [|c key IH]; [reflexivity|].
  simpl. intros H. apply andb_true_iff in H as [Hc Hkey].
  apply andb_true_iff in Hc as [H1 H2].
  apply N.leb_le in H1, H2.
  rewrite P_ascii by lia. simpl. now apply IH.
Qed.

Lemma all_member_text (key val : text) :
  forallb (fun c => (32 <=? c) && (c <=? 126))%N key = true ->
  forallb P val = true ->
  forallb P (member_text key val) = true.
Proof.
  intros Hkey Hval. unfold member_text. rewrite !forallb_app.
  rewrite all_encode_basestring by now apply escapable_ascii.
  rewrite Hval. simpl. now rewrite !P_ascii by lia.
Qed.

Lemma all_field_text (v : value) :
  Fields.field_ok P v = true -> forallb P (field_text v) = true.
Proof.
  destruct v; simpl; try discriminate. apply all_encode_basestring.
Qed.

Lemma all_message_text (level : nat) (m : Message) :
  Fields.field_ok P (role m) = true ->
  Fields.field_ok P (content m) = true ->
  forallb P (message_text level m) = true.
Proof.
  intros Hr Hc. unfold message_text. apply all_object_text.
  repeat constructor; apply all_member_text;
    (reflexivity || now apply all_field_text).
Qed.

Lemma all_conversation_text (level : nat) (c : Conversation) :
  Fields.all_fields (Fields.field_ok P) c = true ->
  forallb P (conversation_text level c) = true.
Proof.
  unfold Fields.all_fields. intros H.
  apply andb_true_iff in H as [H Hms]. apply andb_true_iff in H as [Hi Ht].
  unfold conversation_text. apply all_object_text.
  repeat constructor; apply all_member_text;
    try reflexivity; try (now apply all_field_text).
  apply all_array_text. apply Forall_forall. intros t Hin.
  apply in_map_iff in Hin as (m & <- & Hm).
  rewrite forallb_forall in Hms. specialize (Hms m Hm).
  apply andb_true_iff in Hms as [Hr Hc]. now apply all_message_text.
Qed.

Lemma all_document_text (convos : list Conversation) :
  Forall (fun c => Fields.all_fields (Fields.field_ok P) c = true) convos ->
  forallb P (document_text convos) = true.
Proof.
  intros H. unfold document_text. apply all_array_text.
  apply Forall_forall. intros t Hin.
  apply in_map_iff in Hin as (c & <- & Hc).
  rewrite Forall_forall in H. now apply all_conversation_text, H.
Qed.

End Predicate.

Lemma all_fields_impl (ok1 ok2 : value -> bool) (c : Conversation) :
  (forall v, ok1 v = true -> ok2 v = true) ->
  Fields.all_fields ok1 c = true -> Fields.all_fields ok2 c = true.
Proof.
  intros Himp. unfold Fields.all_fields. intros H.
  apply andb_true_iff in H as [H Hms]. apply andb_true_iff in H as [Hi Ht].
  rewrite (Himp _ Hi), (Himp _ Ht). simpl.
  rewrite forallb_forall in *. intros m Hm. specialize (Hms m Hm).
  apply andb_true_iff in Hms as [Hr Hc].
  now rewrite (Himp _ Hr), (Himp _ Hc).
Qed.

(** Every chunk of a document whose strings hold no surrogate can be
    encoded. *)
Lemma document_text_encodable (convos : list Conversation) :
  Forall (fun c => Fields.all_fields Fields.is_utf8_str c = true) convos ->
  Text.encodable (document_text convos) = true.
Proof.
  intros H. apply (@all_document_text Fields.not_surrogate).
  - intros c Hc. unfold Fields.not_surrogate, Text.is_surrogate.
    apply negb_true_iff, andb_false_iff.
    destruct (N.leb_spec 0xD800 c); [lia | now left].
  - eapply Forall_impl; [|exact H]. intros c. apply all_fields_impl.
    intros [| | | |s| |]; simpl; try discriminate.
    unfold Text.encodable, Fields.escapable. intros Hs.
    rewrite forallb_forall in *. intros x Hx.
    unfold Fields.not_surrogate. now rewrite (Hs x Hx).
Qed.

(** A document never holds a carriage return: the encoder escapes it. *)
Lemma document_text_no_cr (convos : list Conversation) :
  Forall (fun c => Fields.all_fields Fields.is_str c = true) convos ->
  forallb Fields.not_cr (document_text convos) = true.
Proof.
  intros H. apply (@all_document_text Fields.not_cr).
  - intros c Hc. unfold Fields.not_cr. apply negb_true_iff, N.eqb_neq. lia.
  - eapply Forall_impl; [|exact H]. intros c. apply all_fields_impl.
    intros [| | | |s| |]; simpl; try discriminate. intros _.
    unfold Fields.escapable. apply forallb_forall. intros x _.
    unfold Fields.not_cr.
    destruct (N.eqb_spec x 13) as [->|]; reflexivity.
Qed.

End CharFacts.

(* ================================================================== *)
(** ** What the decoder reads *)

Module DecoderFacts.

Import Encoder Decoder Layout.

Lemma skip_ws_spaces (n : nat) (c : N) (r : text) :
  skip_ws (c :: r) = c :: r -> skip_ws (Text.spaces n ++ c :: r) = c :: r.
Proof. intros H. induction n as [|n IH]; [exact H | exact IH]. Qed.

Lemma leading_skip (t rest : text) :
  leading t -> skip_ws (t ++ rest) = t ++ rest.
Proof.
  intros (c & r & -> & Hc). simpl.
  apply orb_false_iff in Hc as [Hc _]. now rewrite Hc.
Qed.

Lemma leading_cons (c : N) (r : text) :
  ((c =? 32) || (c =? 9) || (c =? 10) || (c =? 13) || (c =? 93))%N = false ->
  leading (c :: r).
Proof. intros H. now exists c, r. Qed.

Lemma leading_app (t u : text) : leading t -> leading (t ++ u).
Proof. intros (c & r & -> & Hc). now exists c, (r ++ u). Qed.

(** Whitespace before a value is skipped. *)
Lemma skip_newline_indent (level : nat) (t : text) :
  skip_ws t = t -> t <> [] -> skip_ws (newline_indent level ++ t) = t.
Proof.
  intros H Hne. destruct t as [|c r]; [congruence|].
  unfold newline_indent. simpl. now apply skip_ws_spaces.
Qed.

Lemma lt_32_cases (c : N) :
  (c < 32)%N -> In c (map N.of_nat (seq 0 32)).
Proof.
  intros H. rewrite <- (N2Nat.id c). apply in_map, in_seq. lia.
Qed.

(** Reading back one character as the encoder wrote it. *)
Lemma scanstring_escape_char (c : N) (rest : text) :
  scanstring (escape_char c ++ rest) = cons_char c (scanstring rest).
Proof.
  unfold escape_char.
  repeat match goal with
         | |- context [(c =? ?k)%N] =>
             destruct (N.eqb_spec c k) as [->|]; [reflexivity|]
         end.
  destruct (N.ltb_spec c 32) as [Hlt|Hge].
  - apply lt_32_cases in Hlt. simpl in Hlt.
    repeat (destruct Hlt as [<-|Hlt]; [reflexivity|]). contradiction.
  - cbn [app scanstring].
    destruct (N.eqb_spec c 34); [contradiction|].
    destruct (N.eqb_spec c 92); [contradiction|].
    destruct (N.ltb_spec c 32); [lia|]. reflexivity.
Qed.

Lemma scanstring_encode (s rest : text) :
  scanstring (flat_map escape_char s ++ 34%N :: rest) = Some (s, rest).
Proof.
  induction s as [|c s IH]; [reflexivity|].
  cbn [flat_map]. rewrite <- app_assoc, scanstring_escape_char, IH.
  reflexivity.
Qed.

Lemma scan_once_string (fuel : nat) (r : text) :
  scan_once (S fuel) (34%N :: r)
  = match scanstring r with
    | Some (str, rest) => Some (VStr str, rest)
    | None => None
    end.
Proof. reflexivity. Qed.

Lemma scan_once_array (fuel : nat) (r : text) :
  scan_once (S fuel) (91%N :: r)
  = match skip_ws r with
    | d :: r' =>
        if (d =? 93)%N then Some (VList [], r')
        else
          match array_items fuel [] (d :: r') with
          | Some (values, rest) => Some (VList values, rest)
          | None => None
          end
    | [] => None
    end.
Proof. reflexivity. Qed.

Lemma scan_once_object (fuel : nat) (r : text) :
  scan_once (S fuel) (123%N :: r)
  = match skip_ws r with
    | d :: r' =>
        if (d =? 125)%N then Some (VDict [], r')
        else if (d =? 34)%N then
          match object_items fuel [] r' with
          | Some (pairs, rest) => Some (VDict (dict_of_pairs pairs), rest)
          | None => None
          end
        else None
    | [] => None
    end.
Proof. reflexivity. Qed.

Lemma array_items_step (fuel : nat) (values : list value) (s : text) :
  array_items (S fuel) values s
  = match scan_once fuel s with
    | None => None
    | Some (v, rest) =>
        match skip_ws rest with
        | c :: r =>
            if (c =? 93)%N then Some (values ++ [v], r)
            else if (c =? 44)%N
            then array_items fuel (values ++ [v]) (skip_ws r)
            else None
        | [] => None
        end
    end.
Proof. reflexivity. Qed.

Lemma object_items_step (fuel : nat) (pairs : list (text * value)) (s : text) :
  object_items (S fuel) pairs s
  = match scanstring s with
    | None => None
    | Some (key, rest) =>
        match skip_ws rest with
        | c :: r =>
            if (c =? 58)%N then
              match scan_once fuel (skip_ws r) with
              | None => None
              | Some (v, rest') =>
                  match skip_ws rest' with
                  | e :: r' =>
                      if (e =? 125)%N then Some (pairs ++ [(key, v)], r')
                      else if (e =? 44)%N then
                        match skip_ws r' with
                        | q :: r'' =>
                            if (q =? 34)%N
                            then object_items fuel (pairs ++ [(key, v)]) r''
                            else None
                        | [] => None
                        end
                      else None
                  | [] => None
                  end
              end
            else None
        | [] => None
        end
    end.
Proof. reflexivity. Qed.

(** A string is read back as it was. *)
Lemma parses_string (s : text) : parses (encode_basestring s) (VStr s).
Proof.
  split; [now apply leading_cons|].
  intros fuel rest Hfuel. destruct fuel as [|fuel]; [lia|].
  unfold encode_basestring. cbn [app]. rewrite <- app_assoc. cbn [app].
  now rewrite scan_once_string, scanstring_encode.
Qed.

#[local] Arguments newline_indent : simpl never.

Lemma skip_ws_keep (c : N) (r : text) :
  ((c =? 32) || (c =? 9) || (c =? 10) || (c =? 13))%N = false ->
  skip_ws (c :: r) = c :: r.
Proof. intros H. simpl. now rewrite H. Qed.

Lemma skip_ws_space (r : text) : skip_ws (32%N :: r) = skip_ws r.
Proof. reflexivity. Qed.

Lemma cons_eq_tail (a : N) (x y : text) : a :: x = a :: y -> x = y.
Proof. congruence. Qed.

Lemma join_head (sep u : text) (l : list text) :
  exists tail, Text.join sep (u :: l) = u ++ tail.
Proof.
  destruct l as [|w l]; [exists []; simpl; now rewrite app_nil_r|].
  eexists. reflexivity.
Qed.

Lemma leading_join (sep u : text) (l : list text) :
  leading u -> leading (Text.join sep (u :: l)).
Proof.
  intros H. destruct (@join_head sep u l) as [tail ->].
  now apply leading_app.
Qed.

Lemma leading_nonempty (t u : text) : leading t -> t ++ u <> [].
Proof. intros (c & r & -> & _). discriminate. Qed.

Lemma array_items_join (texts : list text) (vals : list value) :
  Forall2 parses texts vals ->
  forall level level' fuel acc rest,
    texts <> [] ->
    2 * List.length (Text.join (44%N :: newline_indent level) texts
                     ++ newline_indent level' ++ 93%N :: rest) + 2 <= fuel ->
    array_items fuel acc
      (Text.join (44%N :: newline_indent level) texts
       ++ newline_indent level' ++ 93%N :: rest)
    = Some (acc ++ vals, rest).
Proof.
  induction 1 as [|t v texts vals Htv Hrest IH];
    intros level level' fuel acc rest Hne Hfuel; [congruence|].
  destruct fuel as [|fuel]; [lia|].
  rewrite array_items_step.
  destruct Htv as [Hlead Hscan].
  destruct texts as [|u texts].
  - inversion Hrest; subst. cbn [Text.join] in *.
    rewrite Hscan by lia.
    rewrite skip_newline_indent; [| reflexivity | discriminate].
    reflexivity.
  - rewrite EncoderFacts.join_cons in *. rewrite <- !app_assoc in *.
    rewrite Hscan by lia.
    cbn [app].
    rewrite (@skip_ws_keep 44%N _ eq_refl).
    cbv iota beta.
    change ((44 =? 93)%N) with false. change ((44 =? 44)%N) with true.
    cbv iota.
    assert (Hu : leading u) by (inversion Hrest; subst; apply H1).
    rewrite skip_newline_indent.
    + rewrite (IH level level' fuel (acc ++ [v]) rest); [|discriminate|].
      * now rewrite <- app_assoc.
      * rewrite length_app in Hfuel. cbn [app List.length] in Hfuel.
        unfold newline_indent in Hfuel at 1. cbn [app List.length] in Hfuel.
        rewrite length_app in Hfuel. lia.
    + apply leading_skip. now apply leading_join.
    + apply leading_nonempty. now apply leading_join.
Qed.

Lemma parses_array (level : nat) (texts : list text) (vals : list value) :
  Forall2 parses texts vals -> parses (array_text level texts) (VList vals).
Proof.
  intros H. split.
  - unfold array_text. destruct texts; [now exists 91%N, [93%N]|].
    now apply leading_cons.
  - intros fuel rest Hfuel. destruct fuel as [|fuel]; [lia|].
    unfold array_text in *. destruct texts as [|t texts].
    + inversion H; subst. reflexivity.
    + assert (Ht : leading t) by (inversion H; subst; apply H2).
      cbn [app] in *. rewrite <- !app_assoc in *. cbn [app] in *.
      rewrite scan_once_array.
      rewrite skip_newline_indent;
        [| apply leading_skip; now apply leading_join
         | apply leading_nonempty; now apply leading_join ].
      pose proof (@leading_app _
                    (newline_indent level ++ 93%N :: rest)
                    (@leading_join (44%N :: newline_indent (S level)) t texts Ht))
        as (c & r & Heq & Hc).
      rewrite Heq. apply orb_false_iff in Hc as [_ Hc]. rewrite Hc.
      rewrite <- Heq.
      rewrite (@array_items_join (t :: texts) vals H (S level) level fuel []
                 rest); [reflexivity | discriminate |].
      cbn [List.length] in Hfuel. unfold newline_indent in Hfuel at 1.
      cbn [app List.length] in Hfuel. rewrite length_app in Hfuel. lia.
Qed.

Lemma member_join_head (sep key val more : text) (l : list text) :
  exists body,
    Text.join sep (member_text key val :: l) ++ more = 34%N :: body.
Proof.
  destruct (@join_head sep (member_text key val) l) as [tail ->].
  unfold member_text, encode_basestring. cbn [app]. eexists. reflexivity.
Qed.

Lemma member_text_unfold (key val more : text) :
  member_text key val ++ more
  = 34%N :: flat_map escape_char key ++ 34%N :: 58%N :: 32%N :: val ++ more.
Proof.
  unfold member_text, encode_basestring.
  change (txt ": ") with [58%N; 32%N].
  rewrite <- !app_comm_cons, <- !app_assoc. reflexivity.
Qed.

Lemma object_items_join (members : list (text * (text * value))) :
  Forall (fun m => parses (fst (snd m)) (snd (snd m))) members ->
  forall level level' fuel pairs body rest,
    members <> [] ->
    34%N :: body
    = Text.join (44%N :: newline_indent level)
        (map (fun m => member_text (fst m) (fst (snd m))) members)
      ++ newline_indent level' ++ 125%N :: rest ->
    2 * List.length body + 2 <= fuel ->
    object_items fuel pairs body
    = Some (pairs ++ map (fun m => (fst m, snd (snd m))) members, rest).
Proof.
  induction 1 as [|[k [t v]] members Hm Hms IH];
    intros level level' fuel pairs body rest Hne Hbody Hfuel; [congruence|].
  cbn [fst snd] in Hm. destruct Hm as [Hlead Hscan].
  destruct fuel as [|fuel]; [lia|].
  rewrite object_items_step.
  cbn [map fst snd] in *.
  destruct members as [|m2 members].
  - cbn [map Text.join] in Hbody.
    rewrite member_text_unfold in Hbody. apply cons_eq_tail in Hbody. subst body.
    rewrite scanstring_encode.
    rewrite (@skip_ws_keep 58%N _ eq_refl). cbv iota beta.
    change ((58 =? 58)%N) with true. cbv iota.
    rewrite skip_ws_space.
    rewrite (@leading_skip t _ Hlead).
    rewrite Hscan.
    + rewrite skip_newline_indent; [| reflexivity | discriminate].
      reflexivity.
    + rewrite length_app in Hfuel. cbn [List.length] in Hfuel. lia.
  - cbn [map] in Hbody. rewrite EncoderFacts.join_cons in Hbody.
    rewrite <- !app_assoc in Hbody.
    rewrite member_text_unfold in Hbody. apply cons_eq_tail in Hbody. subst body.
    rewrite <- app_comm_cons in *.
    rewrite scanstring_encode.
    rewrite (@skip_ws_keep 58%N _ eq_refl). cbv iota beta.
    change ((58 =? 58)%N) with true. cbv iota.
    rewrite skip_ws_space.
    rewrite (@leading_skip t _ Hlead).
    rewrite length_app in Hfuel. cbn [List.length] in Hfuel.
    rewrite Hscan by lia.
    rewrite (@skip_ws_keep 44%N _ eq_refl). cbv iota beta.
    change ((44 =? 125)%N) with false. change ((44 =? 44)%N) with true.
    cbv iota.
    destruct m2 as [k2 [t2 v2]]. cbn [fst snd] in *.
    destruct (@member_join_head (44%N :: newline_indent level) k2 t2
                (newline_indent level' ++ 125%N :: rest)
                (map (fun m => member_text (fst m) (fst (snd m))) members))
      as [body2 Hbody2].
    rewrite length_app in Hfuel. cbn [List.length] in Hfuel.
    rewrite length_app in Hfuel.
    rewrite Hbody2 in *. cbn [List.length] in Hfuel.
    rewrite skip_newline_indent; [| reflexivity | discriminate].
    cbv iota beta. change ((34 =? 34)%N) with true. cbv iota.
    rewrite (IH level level' fuel (pairs ++ [(k, v)]) body2 rest);
      [ now rewrite <- app_assoc | discriminate | now rewrite <- Hbody2 | lia ].
Qed.

Lemma parses_object (level : nat) (members : list (text * (text * value))) :
  Forall (fun m => parses (fst (snd m)) (snd (snd m))) members ->
  parses (object_text level
            (map (fun m => member_text (fst m) (fst (snd m))) members))
         (VDict (dict_of_pairs (map (fun m => (fst m, snd (snd m))) members))).
Proof.
  intros H. split.
  - unfold object_text. destruct members; [now exists 123%N, [125%N]|].
    now apply leading_cons.
  - intros fuel rest Hfuel. destruct fuel as [|fuel]; [lia|].
    unfold object_text in *. destruct members as [|[k [t v]] members].
    + reflexivity.
    + cbn [map fst snd] in *.
      rewrite <- app_comm_cons, <- !app_assoc in *.
      change ([125%N] ++ rest) with (125%N :: rest) in *.
      destruct (@member_join_head (44%N :: newline_indent (S level)) k t
                  (newline_indent level ++ 125%N :: rest)
                  (map (fun m => member_text (fst m) (fst (snd m))) members))
        as [body Hbody].
      rewrite scan_once_object. rewrite Hbody in *.
      rewrite skip_newline_indent; [| reflexivity | discriminate].
      cbv iota beta. change ((34 =? 125)%N) with false.
      change ((34 =? 34)%N) with true. cbv iota.
      rewrite (@object_items_join ((k, (t, v)) :: members) H (S level) level
                 fuel [] body rest);
        [reflexivity | discriminate | now rewrite <- Hbody |].
      cbn [List.length] in Hfuel. rewrite length_app in Hfuel.
      cbn [List.length] in Hfuel. lia.
Qed.

Lemma parses_field (v : value) :
  Fields.is_str v = true -> parses (field_text v) v.
Proof. destruct v; simpl; try discriminate. intros _. apply parses_string. Qed.

Lemma parses_message (level : nat) (m : Message) :
  Fields.is_str (role m) = true ->
  Fields.is_str (content m) = true ->
  parses (message_text level m) (Store.asdict m).
Proof.
  intros Hr Hc.
  assert (Hall : Forall (fun f => parses (fst (snd f)) (snd (snd f)))
                   [(txt "role", (field_text (role m), role m));
                    (txt "content", (field_text (content m), content m))])
    by (repeat (apply Forall_cons; [now apply parses_field|]);
        apply Forall_nil).
  exact (@parses_object level _ Hall).
Qed.

Lemma Forall2_map (A : Type) (f : A -> text) (g : A -> value) (l : list A) :
  (forall x, In x l -> parses (f x) (g x)) ->
  Forall2 parses (map f l) (map g l).
Proof.
  induction l as [|x l IH]; intros H; simpl; constructor.
  - apply H. now left.
  - apply IH. intros y Hy. apply H. now right.
Qed.

Lemma parses_conversation (level : nat) (c : Conversation) :
  Fields.all_fields Fields.is_str c = true ->
  parses (conversation_text level c)
         (VDict [(txt "id", id c); (txt "title", title c);
                 (txt "messages", VList (map Store.asdict (messages c)))]).
Proof.
  unfold Fields.all_fields. intros H.
  apply andb_true_iff in H as [H Hms]. apply andb_true_iff in H as [Hi Ht].
  assert (Hmsgs : parses
                    (array_text (S level)
                       (map (message_text (S (S level))) (messages c)))
                    (VList (map Store.asdict (messages c)))).
  { apply parses_array, Forall2_map. intros m Hm.
    rewrite forallb_forall in Hms. specialize (Hms m Hm).
    apply andb_true_iff in Hms as [Hr Hc]. now apply parses_message. }
  assert (Hall : Forall (fun f => parses (fst (snd f)) (snd (snd f)))
                   [(txt "id", (field_text (id c), id c));
                    (txt "title", (field_text (title c), title c));
                    (txt "messages",
                     (array_text (S level)
                        (map (message_text (S (S level))) (messages c)),
                      VList (map Store.asdict (messages c))))])
    by (repeat (apply Forall_cons;
                [(exact Hmsgs || now apply parses_field)|]);
        apply Forall_nil).
  exact (@parses_object level _ Hall).
Qed.

Lemma parses_document (convos : list Conversation) :
  Forall (fun c => Fields.all_fields Fields.is_str c = true) convos ->
  parses (document_text convos) (Store.document convos).
Proof.
  intros H. unfold document_text, Store.document.
  apply parses_array, Forall2_map. intros c Hc.
  rewrite Forall_forall in H. now apply parses_conversation, H.
Qed.

Lemma array_text_head (level : nat) (elems : list text) :
  exists r, array_text level elems = 91%N :: r.
Proof. destruct elems; eexists; reflexivity. Qed.

(** The decoder reads the layout back. *)
Lemma loads_document (convos : list Conversation) :
  Forall (fun c => Fields.all_fields Fields.is_str c = true) convos ->
  loads (document_text convos) = Some (Store.document convos).
Proof.
  intros H. destruct (parses_document H) as [Hlead Hscan].
  specialize (Hscan (S (2 * List.length (document_text convos))) []).
  pose proof (@leading_skip _ [] Hlead) as Hskip.
  rewrite app_nil_r in Hscan, Hskip.
  unfold loads.
  destruct (array_text_head 0 (map (conversation_text 1) convos)) as [r Hr].
  unfold document_text in *. rewrite Hr in *. cbv iota beta.
  rewrite Hskip, Hscan by lia. reflexivity.
Qed.

End DecoderFacts.

(* ================================================================== *)
(** ** Saving *)

Module SaveFacts.

Import Store App.

Lemma save_keeps_write_fault (cs : list Conversation) (w : world) :
  write_fault (save_conversations cs w) = write_fault w.
Proof.
  unfold save_conversations.
  destruct (write_fault w) eqn:E; [exact E|].
  destruct (write_chunks _ _) as [written [f|]]; exact E.
Qed.

(** The chunks reach the file in order, up to the first that cannot be
    encoded. *)
Lemma write_chunks_prefix (chunks : list text) :
  forall written,
    exists k,
      fst (write_chunks chunks written)
      = written ++ List.concat (firstn k chunks)
      /\ ((k = List.length chunks /\ snd (write_chunks chunks written) = None)
          \/ (k < List.length chunks
              /\ Text.encodable (nth k chunks []) = false
              /\ exists e, snd (write_chunks chunks written) = Some e)).
Proof.
  induction chunks as [|chunk chunks IH]; intros written; simpl.
  - exists 0. simpl. rewrite app_nil_r. auto.
  - destruct (Text.encodable chunk) eqn:Henc.
    + destruct (IH (written ++ chunk)) as (k & Hfst & Hk).
      exists (S k). simpl. rewrite Hfst, <- app_assoc. split; [reflexivity|].
      destruct Hk as [[-> Hnone]|(Hlt & Hbad & e & He)]; [left|right].
      * auto.
      * split; [lia|]. split; [exact Hbad|]. eauto.
    + exists 0. simpl. rewrite app_nil_r. split; [reflexivity|].
      right. split; [lia|]. split; [exact Henc|]. eauto.
Qed.

Lemma write_chunks_all (chunks : list text) :
  Forall (fun c => Text.encodable c = true) chunks ->
  forall written,
    write_chunks chunks written = (written ++ List.concat chunks, None).
Proof.
  induction 1 as [|chunk chunks Hc _ IH]; intros written; simpl.
  - now rewrite app_nil_r.
  - rewrite Hc, IH. now rewrite <- app_assoc.
Qed.

(** C8, as stated, fails: a save that stops partway leaves neither the old
    document nor the new one.  Here the file holds one conversation, and the
    save of another, whose message holds a lone surrogate, stops at the chunk
    that cannot be encoded; what is on disk then loads as the empty list. *)
Lemma interrupted_save_loses_old_content :
  ~ (forall old new w,
        write_fault w = None ->
        fst (load_conversations (save_conversations old w)) = Return old ->
        let w' := save_conversations new (save_conversations old w) in
        fst (load_conversations w') = Return old
        \/ fst (load_conversations w') = Return new).
Proof.
  intros H.
  specialize (H [Samples.plain_conversation] [Samples.surrogate_conversation]
                Samples.no_file eq_refl).
  assert (Hold : fst (load_conversations
                        (save_conversations [Samples.plain_conversation]
                                            Samples.no_file))
                 = Return [Samples.plain_conversation])
    by (vm_compute; reflexivity).
  specialize (H Hold). vm_compute in H.
  destruct H as [H|H]; discriminate H.
Qed.

(** C8, amended: [save_conversations] rewrites the file in place.  When the
    file can be opened, what it held is discarded and it ends up holding the
    first [k] chunks of the new document and nothing else: all of them, with
    nothing printed, unless a chunk cannot be encoded, in which case the
    chunks before that one, with the fault printed.  When the file cannot be
    opened it is left as it was and the fault is printed. *)
Theorem save_rewrites_in_place :
  (forall convos w,
      write_fault w = None ->
      let chunks := Encoder.iterencode (document convos) 0 in
      let w' := save_conversations convos w in
      exists k,
        disk w' = Content (List.concat (firstn k chunks))
        /\ ((k = List.length chunks /\ stdout w' = stdout w)
            \/ (k < List.length chunks
                /\ Text.encodable (nth k chunks []) = false
                /\ exists e,
                     stdout w'
                     = stdout w
                       ++ [txt "Error saving conversations: " ++ exn_str e])))
  /\ (forall convos w e,
         write_fault w = Some e ->
         save_conversations convos w
         = print (txt "Error saving conversations: " ++ exn_str e) w).
Proof.
  split.
  - intros convos w Hw chunks w'. unfold w', save_conversations. rewrite Hw.
    fold chunks.
    destruct (write_chunks_prefix chunks []) as (k & Hfst & Hk).
    destruct (write_chunks chunks []) as [written fault]. simpl in *.
    exists k. subst written.
    destruct Hk as [[-> ->]|(Hlt & Hbad & e & ->)].
    + split; [reflexivity|]. left. auto.
    + split; [reflexivity|]. right. split; [exact Hlt|].
      split; [exact Hbad|]. exists e. reflexivity.
  - intros convos w e Hw. unfold save_conversations. now rewrite Hw.
Qed.

Lemma save_rewrites_witness :
  exists k,
    disk (save_conversations [Samples.surrogate_conversation]
            (save_conversations [Samples.plain_conversation] Samples.no_file))
    = Content (List.concat
                 (firstn k (Encoder.iterencode
                              (document [Samples.surrogate_conversation]) 0))).
Proof.
  destruct save_rewrites_in_place as [Hsave _].
  destruct (Hsave [Samples.surrogate_conversation]
                  (save_conversations [Samples.plain_conversation]
                                      Samples.no_file)
                  eq_refl) as (k & Hdisk & _).
  exists k. exact Hdisk.
Defined.

End SaveFacts.

(* ================================================================== *)
(** ** Loading *)

Module LoadFacts.

Import Store App Fields.

Lemma reported_tame (ok : bool) (e : thrown) : reported ok e -> tame e = true.
Proof. intros (x & -> & H & _). exact H. Qed.

Lemma bad_keyword_reported (kw : list (text * value)) (e : exn) :
  bad_keyword kw = Some e ->
  reported (forallb (fun kv : text * value => Text.encodable (fst kv)) kw)
           (Printable e).
Proof.
  induction kw as [|[k v] kw IH]; [discriminate|]. cbn [bad_keyword forallb fst].
  destruct (is_field k).
  - intros H. destruct (IH H) as (x & Hx & Hc & Henc).
    exists x. split; [exact Hx|]. split; [exact Hc|].
    intros Hok. apply andb_true_iff in Hok as [_ Hok]. auto.
  - destruct (Text.eqb k (txt "self")); intros [= <-]; eexists;
      (split; [reflexivity|]); (split; [reflexivity|]); intros Hok;
      [reflexivity|].
    apply andb_true_iff in Hok as [Hk _].
    unfold Text.encodable in *. simpl. rewrite forallb_app, Hk. reflexivity.
Qed.

Lemma keys_of_dict (kw : list (text * value)) :
  keys_encodable (VDict kw) = true ->
  forallb (fun kv : text * value => Text.encodable (fst kv)) kw = true.
Proof.
  cbn [keys_encodable]. induction kw as [|[k v] kw IH]; [reflexivity|].
  cbn [forallb fst]. intros H. apply andb_true_iff in H as [Hk H].
  apply andb_true_iff in Hk as [-> _]. now rewrite IH.
Qed.

Lemma type_name_encodable (v : value) (a b : text) :
  Text.encodable a = true -> Text.encodable b = true ->
  Text.encodable (a ++ Store.type_name v ++ b) = true.
Proof.
  intros Ha Hb. rewrite !TextFacts.encodable_app, Ha, Hb.
  destruct v; reflexivity.
Qed.

Lemma Message_kwargs_reported (m : value) (e : thrown) :
  Message_kwargs m = Raise e -> reported (keys_encodable m) e.
Proof.
  assert (Hmap : forall v : value,
             (forall d, v <> VDict d) ->
             reported true
               (Printable
                  (Exn TypeError
                       (txt "__main__.Message() argument after ** must be a mapping, not "
                        ++ Store.type_name v)))).
  { intros v _. eexists. split; [reflexivity|]. split; [reflexivity|].
    intros _. cbn [exn_str]. rewrite TextFacts.encodable_app.
    destruct v; reflexivity. }
  destruct m as [|b|z|lit|s|l|kw]; cbn [Message_kwargs];
    try (intros [= <-]; eexists; split; [reflexivity|];
         split; [reflexivity|]; intros _; reflexivity).
  destruct (bad_keyword kw) as [x|] eqn:Hbad.
  - intros [= <-]. destruct (@bad_keyword_reported kw x Hbad) as (y & Hy & Hc & Henc).
    exists y. split; [exact Hy|]. split; [exact Hc|].
    intros Hok. apply Henc. now apply keys_of_dict.
  - destruct (dict_lookup (txt "role") kw), (dict_lookup (txt "content") kw);
      try discriminate;
      intros [= <-]; eexists; (split; [reflexivity|]);
      (split; [reflexivity|]); intros _; reflexivity.
Qed.

Lemma Message_list_reported (ms : list value) (e : thrown) :
  Message_list ms = Raise e -> reported (forallb keys_encodable ms) e.
Proof.
  induction ms as [|m ms IH]; [discriminate|]. cbn [Message_list forallb].
  destruct (Message_kwargs m) as [x|e1] eqn:Hm; cbn [bind].
  - destruct (Message_list ms) as [xs|e2]; cbn [bind]; [discriminate|].
    intros [= <-]. destruct (IH eq_refl) as (y & Hy & Hc & Henc).
    exists y. split; [exact Hy|]. split; [exact Hc|].
    intros Hok. apply andb_true_iff in Hok as [_ Hok]. auto.
  - intros [= <-]. destruct (@Message_kwargs_reported _ _ Hm) as (y & Hy & Hc & Henc).
    exists y. split; [exact Hy|]. split; [exact Hc|].
    intros Hok. apply andb_true_iff in Hok as [Hok _]. auto.
Qed.

Lemma iterate_reported (v : value) (e : thrown) :
  iterate v = Raise e -> reported true e.
Proof.
  destruct v; cbn [iterate]; try discriminate;
    intros [= <-]; eexists; (split; [reflexivity|]);
    (split; [reflexivity|]); intros _; reflexivity.
Qed.

Lemma iterate_keys (v : value) (items : list value) :
  iterate v = Return items ->
  keys_encodable v = true -> forallb keys_encodable items = true.
Proof.
  destruct v as [|b|z|lit|s|l|d]; cbn [iterate]; try discriminate;
    intros [= <-]; intros H.
  - clear H. induction s; [reflexivity | exact IHs].
  - exact H.
  - clear H. induction d; [reflexivity | exact IHd].
Qed.

Lemma lookup_keys (key : text) (d : list (text * value)) (v : value) :
  keys_encodable (VDict d) = true ->
  dict_lookup key d = Some v -> keys_encodable v = true.
Proof.
  cbn [keys_encodable]. induction d as [|[k x] d IH]; [discriminate|].
  cbn [forallb dict_lookup]. intros H. apply andb_true_iff in H as [Hk H].
  apply andb_true_iff in Hk as [_ Hx].
  destruct (Text.eqb k key); [intros [= <-]; exact Hx | now apply IH].
Qed.

Lemma load_record_reported (c : value) (e : thrown) :
  load_record c = Raise e -> reported (keys_encodable c) e.
Proof.
  destruct c as [|b|z|lit|s|l|d];
    try (intros [= <-]; eexists; split; [reflexivity|];
         split; [reflexivity|]; intros _; reflexivity).
  unfold load_record. cbn [get bind].
  set (raw := match dict_lookup (txt "messages") d with
              | Some v => v
              | None => VList []
              end).
  assert (Hraw : keys_encodable (VDict d) = true -> keys_encodable raw = true).
  { intros Hd. unfold raw.
    destruct (dict_lookup (txt "messages") d) as [v|] eqn:Hl; [|reflexivity].
    exact (@lookup_keys _ _ _ Hd Hl). }
  destruct (iterate raw) as [ms|e1] eqn:Hit; cbn [bind].
  - destruct (Message_list ms) as [msgs|e2] eqn:Hms; cbn [bind]; [discriminate|].
    intros [= <-]. destruct (@Message_list_reported _ _ Hms) as (y & Hy & Hc & Henc).
    exists y. split; [exact Hy|]. split; [exact Hc|].
    intros Hok. apply Henc. exact (@iterate_keys _ _ Hit (Hraw Hok)).
  - intros [= <-]. destruct (@iterate_reported _ _ Hit) as (y & Hy & Hc & Henc).
    exists y. split; [exact Hy|]. split; [exact Hc|]. auto.
Qed.

Lemma load_loop_reported (records : list value) (e : thrown) :
  forall acc,
    load_loop records acc = Raise e ->
    reported (forallb keys_encodable records) e.
Proof.
  induction records as [|r records IH]; intros acc; [discriminate|].
  cbn [load_loop forallb].
  destruct (load_record r) as [c|e1] eqn:Hr; cbn [bind].
  - intros H. destruct (@IH _ H) as (y & Hy & Hc & Henc).
    exists y. split; [exact Hy|]. split; [exact Hc|].
    intros Hok. apply andb_true_iff in Hok as [_ Hok]. auto.
  - intros [= <-]. destruct (@load_record_reported _ _ Hr) as (y & Hy & Hc & Henc).
    exists y. split; [exact Hy|]. split; [exact Hc|].
    intros Hok. apply andb_true_iff in Hok as [Hok _]. auto.
Qed.

Lemma load_data_reported (data : value) (e : thrown) :
  load_data data = Raise e -> reported (keys_encodable data) e.
Proof.
  unfold load_data. destruct (iterate data) as [items|e1] eqn:Hit; cbn [bind].
  - intros H. destruct (@load_loop_reported _ _ _ H) as (y & Hy & Hc & Henc).
    exists y. split; [exact Hy|]. split; [exact Hc|].
    intros Hok. apply Henc. exact (@iterate_keys _ _ Hit Hok).
  - intros [= <-]. destruct (@iterate_reported _ _ Hit) as (y & Hy & Hc & Henc).
    exists y. split; [exact Hy|]. split; [exact Hc|]. auto.
Qed.

Lemma load_body_reported (t : text) (e : thrown) :
  load_body t = Raise e -> reported false e.
Proof.
  unfold load_body, json_load.
  destruct (Decoder.loads (universal_newlines t)) as [data|]; cbn [bind].
  - intros H. destruct (@load_data_reported _ _ H) as (y & Hy & Hc & _).
    exists y. split; [exact Hy|]. split; [exact Hc|]. discriminate.
  - intros [= <-]. eexists. split; [reflexivity|]. split; [reflexivity|].
    discriminate.
Qed.

(** The handler on an exception it catches and whose text [str] gives: the
    line is printed and the empty list returned, or the print raises. *)
Lemma load_handler_cases (x : exn) (w : world) :
  is_Exception (exn_cls x) = true ->
  let line := txt "Error loading conversations: " ++ exn_str x in
  (Text.encodable (exn_str x) = true
   /\ load_handler (Printable x) w = (Return [], print line w))
  \/ (Text.encodable (exn_str x) = false
      /\ load_handler (Printable x) w
         = (Raise (Printable (encode_error line)), w)).
Proof.
  intros Hc line. unfold load_handler, caught, print_line. cbn [thrown_cls].
  rewrite Hc. cbn [str_thrown bind]. fold line.
  assert (Hl : Text.encodable line = Text.encodable (exn_str x))
    by (unfold line; now rewrite TextFacts.encodable_app).
  rewrite Hl. destruct (Text.encodable (exn_str x)); [left | right];
    now split.
Qed.






(** What [load_conversations] can do, the file being missing, readable or
    unreadable with an exception that derives from [Exception]: return what
    it loaded and print nothing; print the line that reports an exception
    and return the empty list; or, when that line holds a surrogate, raise
    the [UnicodeEncodeError] of the print and print nothing. *)
Lemma load_conversations_cases (w : world) :
  (forall e, disk w = Unreadable e -> is_Exception (exn_cls e) = true) ->
  (exists convos, load_conversations w = (Return convos, w))
  \/ (exists e,
        Text.encodable (exn_str e) = true
        /\ load_conversations w
           = (Return [],
              print (txt "Error loading conversations: " ++ exn_str e) w))
  \/ (exists e,
        Text.encodable (exn_str e) = false
        /\ load_conversations w
           = (Raise
                (Printable
                   (encode_error
                      (txt "Error loading conversations: " ++ exn_str e))),
              w)).
Proof.
  intros Hread. unfold load_conversations.
  assert (Hh : forall x,
             is_Exception (exn_cls x) = true ->
             (exists e,
                 Text.encodable (exn_str e) = true
                 /\ load_handler (Printable x) w
                    = (Return [],
                       print (txt "Error loading conversations: "
                              ++ exn_str e) w))
             \/ (exists e,
                    Text.encodable (exn_str e) = false
                    /\ load_handler (Printable x) w
                       = (Raise
                            (Printable
                               (encode_error
                                  (txt "Error loading conversations: "
                                   ++ exn_str e))),
                          w))).
  { intros x Hc. destruct (@load_handler_cases x w Hc) as [[He Hh]|[He Hh]];
      [left | right]; exists x; now split. }
  destruct (disk w) as [|e|t] eqn:Hd.
  - left. eexists. reflexivity.
  - right. apply Hh. now apply Hread.
  - unfold load_outcome. destruct (load_body t) as [convos|e] eqn:Hb.
    + left. eexists. reflexivity.
    + right. destruct (@load_body_reported _ _ Hb) as (x & -> & Hc & _).
      now apply Hh.
Qed.

(** Loading writes nothing to the file. *)
Lemma load_keeps_disk (w : world) :
  disk (snd (load_conversations w)) = disk w
  /\ write_fault (snd (load_conversations w)) = write_fault w.
Proof.
  assert (Hh : forall e,
             disk (snd (load_handler e w)) = disk w
             /\ write_fault (snd (load_handler e w)) = write_fault w).
  { intros e. unfold load_handler, print_line.
    destruct (caught e); [|now split].
    destruct (str_thrown e) as [s|e1]; cbn [bind]; [|now split].
    destruct (Text.encodable _); now split. }
  unfold load_conversations. destruct (disk w) as [|e|t] eqn:Hd.
  - now split.
  - apply Hh.
  - unfold load_outcome. destruct (load_body t); [now split | apply Hh].
Qed.







End LoadFacts.

(* ================================================================== *)
(** ** Save, then load *)

Module RoundTripFacts.

Import Store.

Lemma universal_newlines_no_cr (t : text) :
  forallb Fields.not_cr t = true -> universal_newlines t = t.
Proof.
  induction t as [|c t IH]; [reflexivity|].
  cbn [forallb universal_newlines]. intros H.
  apply andb_true_iff in H as [Hc Ht].
  unfold Fields.not_cr in Hc. apply negb_true_iff in Hc.
  rewrite Hc. now rewrite IH.
Qed.

Lemma forallb_concat (P : N -> bool) (l : list text) :
  forallb P (List.concat l) = true ->
  Forall (fun c => forallb P c = true) l.
Proof.
  induction l as [|x l IH]; intros H; constructor;
    simpl in H; rewrite forallb_app in H;
    apply andb_true_iff in H as [Hx Hl]; auto.
Qed.

Lemma Message_list_asdict (ms : list Message) :
  Message_list (map asdict ms) = Return ms.
Proof.
  induction ms as [|[r c] ms IH]; [reflexivity|].
  cbn [map Message_list]. rewrite IH. reflexivity.
Qed.

Lemma load_record_document (c : Conversation) :
  load_record
    (VDict [(txt "id", id c); (txt "title", title c);
            (txt "messages", VList (map asdict (messages c)))])
  = Return c.
Proof.
  unfold load_record.
  change (get (VDict [(txt "id", id c); (txt "title", title c);
                      (txt "messages", VList (map asdict (messages c)))])
              (txt "id") VNone) with (Return (id c)).
  change (get (VDict [(txt "id", id c); (txt "title", title c);
                      (txt "messages", VList (map asdict (messages c)))])
              (txt "title") VNone) with (Return (title c)).
  change (get (VDict [(txt "id", id c); (txt "title", title c);
                      (txt "messages", VList (map asdict (messages c)))])
              (txt "messages") (VList []))
    with (Return (VList (map asdict (messages c)))).
  cbn [bind iterate]. rewrite Message_list_asdict. cbn [bind].
  now destruct c.
Qed.

Lemma load_loop_document (convos : list Conversation) :
  forall acc,
    load_loop
      (map (fun c =>
              VDict [(txt "id", id c); (txt "title", title c);
                     (txt "messages", VList (map asdict (messages c)))])
           convos) acc
    = Return (acc ++ convos).
Proof.
  induction convos as [|c convos IH]; intros acc.
  - simpl. now rewrite app_nil_r.
  - cbn [map load_loop]. rewrite load_record_document. cbn [bind].
    rewrite IH. now rewrite <- app_assoc.
Qed.

Lemma utf8_str_is_str (c : Conversation) :
  Fields.all_fields Fields.is_utf8_str c = true ->
  Fields.all_fields Fields.is_str c = true.
Proof.
  apply CharFacts.all_fields_impl. intros [| | | |s| |]; simpl; congruence.
Qed.

(** The text of the document of conversations whose fields are strings
    without surrogates loads as these conversations. *)
Lemma load_body_document (convos : list Conversation) :
  Forall (fun c => Fields.all_fields Fields.is_utf8_str c = true) convos ->
  load_body (Encoder.dumps (document convos)) = Return convos.
Proof.
  intros H.
  assert (Hstr : Forall (fun c => Fields.all_fields Fields.is_str c = true)
                        convos)
    by (eapply Forall_impl; [|exact H]; apply utf8_str_is_str).
  unfold load_body, json_load.
  rewrite (EncoderFacts.dumps_document Hstr).
  rewrite universal_newlines_no_cr
    by now apply CharFacts.document_text_no_cr.
  rewrite DecoderFacts.loads_document by exact Hstr.
  unfold document, load_data. cbn [bind iterate].
  now rewrite load_loop_document.
Qed.

(** What a save leaves on the disk, when the file can be opened. *)
Lemma save_disk_open (convos : list Conversation) (w : world) :
  write_fault w = None ->
  disk (save_conversations convos w)
  = Content (fst (write_chunks (Encoder.iterencode (document convos) 0) [])).
Proof.
  intros Hw. unfold save_conversations. rewrite Hw.
  destruct (write_chunks _ _) as [written [e|]]; reflexivity.
Qed.

Lemma save_disk_document (convos : list Conversation) (w : world) :
  write_fault w = None ->
  Forall (fun c => Fields.all_fields Fields.is_utf8_str c = true) convos ->
  disk (save_conversations convos w)
  = Content (Encoder.dumps (document convos)).
Proof.
  intros Hw H. rewrite save_disk_open by exact Hw.
  assert (Hstr : Forall (fun c => Fields.all_fields Fields.is_str c = true)
                        convos)
    by (eapply Forall_impl; [|exact H]; apply utf8_str_is_str).
  assert (Henc : Forall (fun c => Text.encodable c = true)
                        (Encoder.iterencode (document convos) 0)).
  { apply forallb_concat.
    fold (Encoder.dumps (document convos)).
    rewrite (EncoderFacts.dumps_document Hstr).
    now apply CharFacts.document_text_encodable. }
  rewrite (@SaveFacts.write_chunks_all _ Henc []). reflexivity.
Qed.

Lemma load_saved (convos : list Conversation) (w : world) :
  write_fault w = None ->
  Forall (fun c => Fields.all_fields Fields.is_utf8_str c = true) convos ->
  fst (load_conversations (save_conversations convos w)) = Return convos.
Proof.
  intros Hw H. unfold load_conversations.
  rewrite (@save_disk_document convos w Hw H). unfold load_outcome.
  rewrite (@load_body_document convos H). reflexivity.
Qed.

(** C1, as stated, fails: a string may hold a lone surrogate, which the
    utf-8 file refuses; the save stops there and the load gives nothing. *)
Lemma lone_surrogate_breaks_round_trip :
  ~ (forall convos w,
        write_fault w = None ->
        Forall (fun c => Fields.all_fields Fields.is_str c = true) convos ->
        fst (load_conversations (save_conversations convos w))
        = Return convos).
Proof.
  intros H.
  specialize (H [Samples.surrogate_conversation] Samples.no_file eq_refl).
  assert (Hstr : Forall (fun c => Fields.all_fields Fields.is_str c = true)
                        [Samples.surrogate_conversation])
    by (repeat constructor).
  specialize (H Hstr). vm_compute in H. discriminate H.
Qed.

(** C1, amended: for conversations whose id, title, roles and contents are
    strings without surrogate code points, empty strings and control
    characters included, and a file that can be written,
    [load_conversations] after [save_conversations] gives the same
    conversations back, field for field, and nothing is reported. *)
Theorem save_load_round_trip (convos : list Conversation) (w : world) :
  write_fault w = None ->
  Forall (fun c => Fields.all_fields Fields.is_utf8_str c = true) convos ->
  load_conversations (save_conversations convos w)
  = (Return convos, set_disk (Content (Encoder.dumps (document convos))) w).
Proof.
  intros Hw H.
  assert (Hstr : Forall (fun c => Fields.all_fields Fields.is_str c = true)
                        convos)
    by (eapply Forall_impl; [|exact H]; apply utf8_str_is_str).
  pose proof (EncoderFacts.dumps_document Hstr) as Hd.
  assert (Henc : Forall (fun c => Text.encodable c = true)
                        (Encoder.iterencode (document convos) 0)).
  { apply forallb_concat. fold (Encoder.dumps (document convos)).
    rewrite Hd. now apply CharFacts.document_text_encodable. }
  unfold save_conversations. rewrite Hw.
  rewrite (@SaveFacts.write_chunks_all _ Henc []). cbn [app].
  fold (Encoder.dumps (document convos)).
  unfold load_conversations. cbn [disk set_disk].
  unfold load_outcome, load_body, json_load.
  rewrite Hd.
  rewrite universal_newlines_no_cr
    by now apply CharFacts.document_text_no_cr.
  rewrite DecoderFacts.loads_document by exact Hstr.
  unfold document, load_data. cbn [bind iterate]. rewrite load_loop_document.
  reflexivity.
Qed.

Lemma round_trip_witness :
  fst (load_conversations
         (save_conversations [Samples.plain_conversation] Samples.no_file))
  = Return [Samples.plain_conversation].
Proof.
  rewrite (@save_load_round_trip [Samples.plain_conversation] Samples.no_file
             eq_refl).
  - reflexivity.
  - repeat constructor.
Defined.

End RoundTripFacts.

(* ================================================================== *)
(** ** The response normalizer *)

Module NormalizerFacts.

Import Response App Spec.

Lemma extract_chunk_text (c : pyobj) :
  chunk_text c = (x <- extract_chunk c ;; concat_str [] x).
Proof.
  destruct c as [s | attr h it s]; [reflexivity|].
  unfold chunk_text, extract_chunk.
  destruct (hasattr_content (PObj attr h it s)) as [[|]|e]; simpl;
    [ | destruct s; simpl; reflexivity | reflexivity ].
  destruct (getattr_content (PObj attr h it s)); reflexivity.
Qed.

Lemma join_chunks_app (xs ys : list pyobj) :
  returned (join_chunks (xs ++ ys)) =
  match returned (join_chunks xs), returned (join_chunks ys) with
  | Some a, Some b => Some (a ++ b)
  | _, _ => None
  end.
Proof.
  induction xs as [|[s|attr h it r] xs IH]; simpl.
  - destruct (join_chunks ys); reflexivity.
  - destruct (join_chunks (xs ++ ys)), (join_chunks xs), (join_chunks ys);
      simpl in *; try congruence.
    injection IH as ->. now rewrite app_assoc.
  - reflexivity.
Qed.

Lemma join_chunks_single (x : pyobj) :
  returned (join_chunks [x]) = returned (concat_str [] x).
Proof. destruct x; simpl; [now rewrite app_nil_r | reflexivity]. Qed.

(** The loop that collects the chunks and the join that follows give what
    one pass of [chunk_text] over the chunks gives. *)
Lemma extract_loop_texts (items acc : list pyobj) :
  returned (chunks <- extract_loop items acc ;; join_chunks chunks) =
  match returned (join_chunks acc), returned (chunk_texts items) with
  | Some a, Some ts => Some (a ++ List.concat ts)
  | _, _ => None
  end.
Proof.
  revert acc; induction items as [|c items IH]; intros acc; simpl.
  - destruct (join_chunks acc); simpl; [now rewrite app_nil_r | reflexivity].
  - rewrite extract_chunk_text.
    destruct (extract_chunk c) as [x|e]; simpl.
    + rewrite IH, join_chunks_app, join_chunks_single.
      destruct (join_chunks acc) as [a|]; simpl; [|reflexivity].
      destruct (concat_str [] x) as [t|]; simpl; [|reflexivity].
      destruct (chunk_texts items) as [ts|]; simpl; [|reflexivity].
      now rewrite <- app_assoc.
    + now destruct (join_chunks acc).
Qed.

(** The exceptions that leave the body of [extract_response_content] are
    those the response holds, and the [TypeError] and [AttributeError] of
    the interpreter: a property [P] of exceptions that holds of the latter
    and of all the former holds of any exception that leaves the body. *)
Section Exceptions.

Variable P : thrown -> bool.

Hypothesis P_exn :
  forall x : exn, is_Exception (exn_cls x) = true -> P (Printable x) = true.

Lemma all_exceptions_parts attr h it s :
  all_exceptions P (PObj attr h it s) = true ->
  match attr with
  | None => True
  | Some (Return c) => all_exceptions P c = true
  | Some (Raise e) => P e = true
  end
  /\ match h with Return _ => True | Raise e => P e = true end
  /\ match it with
     | None => True
     | Some (items, fault) =>
         forallb (all_exceptions P) items = true
         /\ match fault with Some e => P e = true | None => True end
     end
  /\ match s with Return _ => True | Raise e => P e = true end.
Proof.
  cbn [all_exceptions]. intros H.
  apply andb_true_iff in H as [H Hs].
  apply andb_true_iff in H as [H Hit].
  apply andb_true_iff in H as [Hattr Hh].
  split; [|split; [|split]].
  - destruct attr as [[c|e]|]; auto.
  - destruct h; auto.
  - destruct it as [[items [e|]]|]; auto;
      apply andb_true_iff in Hit as [Hitems He]; auto.
  - destruct s; auto.
Qed.

Lemma hasattr_content_exceptions (o : pyobj) (e : thrown) :
  all_exceptions P o = true -> hasattr_content o = Raise e -> P e = true.
Proof.
  destruct o as [s|attr h it s]; [discriminate|]. intros H.
  apply all_exceptions_parts in H as (Hattr & _). simpl.
  destruct attr as [[c|e0]|]; try discriminate.
  destruct (is_AttributeError e0); [discriminate|]. now intros [= <-].
Qed.

Lemma getattr_content_exceptions (o : pyobj) :
  all_exceptions P o = true ->
  match getattr_content o with
  | Return c => all_exceptions P c = true
  | Raise e => P e = true
  end.
Proof.
  destruct o as [s|attr h it s]; [intros _; now apply P_exn|]. intros H.
  apply all_exceptions_parts in H as (Hattr & _). simpl.
  destruct attr as [[c|e0]|]; try exact Hattr. now apply P_exn.
Qed.

Lemma hasattr_iter_exceptions (o : pyobj) (e : thrown) :
  all_exceptions P o = true -> hasattr_iter o = Raise e -> P e = true.
Proof.
  destruct o as [s|attr h it s]; [discriminate|]. intros H.
  apply all_exceptions_parts in H as (_ & Hh & _). simpl.
  intros ->. exact Hh.
Qed.

Lemma str_of_exceptions (o : pyobj) (e : thrown) :
  all_exceptions P o = true -> str_of o = Raise e -> P e = true.
Proof.
  destruct o as [s|attr h it s]; [discriminate|]. intros H.
  apply all_exceptions_parts in H as (_ & _ & _ & Hs). simpl.
  intros ->. exact Hs.
Qed.

Lemma iterate_exceptions (o : pyobj) :
  all_exceptions P o = true ->
  forallb (all_exceptions P) (fst (iterate o)) = true
  /\ forall e, snd (iterate o) = Some e -> P e = true.
Proof.
  destruct o as [s|attr h it s]; simpl.
  - intros _. split; [|discriminate]. now induction s.
  - intros H. apply all_exceptions_parts in H as (_ & _ & Hit & _).
    destruct it as [[items fault]|]; simpl.
    + destruct Hit as [Hitems Hfault]. split; [exact Hitems|].
      intros e ->. exact Hfault.
    + split; [reflexivity|]. intros e [= <-]. now apply P_exn.
Qed.

Lemma concat_str_exceptions (acc : text) (x : pyobj) (e : thrown) :
  concat_str acc x = Raise e -> P e = true.
Proof. destruct x; [discriminate|]. intros [= <-]. now apply P_exn. Qed.

Lemma join_chunks_exceptions (chunks : list pyobj) (e : thrown) :
  join_chunks chunks = Raise e -> P e = true.
Proof.
  induction chunks as [|[s|attr h it r] chunks IH]; simpl; [discriminate| |].
  - destruct (join_chunks chunks); simpl; [discriminate|].
    intros [= <-]. now apply IH.
  - intros [= <-]. now apply P_exn.
Qed.

Lemma extract_chunk_exceptions (c : pyobj) (e : thrown) :
  all_exceptions P c = true -> extract_chunk c = Raise e -> P e = true.
Proof.
  intros H. destruct c as [s|attr h it s]; [discriminate|].
  unfold extract_chunk.
  pose proof (@hasattr_content_exceptions (PObj attr h it s)) as Hh.
  destruct (hasattr_content (PObj attr h it s)) as [[|]|e0]; cbn [bind].
  - pose proof (@getattr_content_exceptions _ H) as Hg.
    destruct (getattr_content (PObj attr h it s)); [discriminate|].
    now intros [= <-].
  - pose proof (@str_of_exceptions (PObj attr h it s)) as Hs.
    destruct (str_of (PObj attr h it s)); cbn [bind]; [discriminate|].
    intros [= <-]. now apply Hs.
  - intros [= <-]. now apply Hh.
Qed.

Lemma extract_loop_exceptions (items : list pyobj) (e : thrown) :
  forall acc,
    forallb (all_exceptions P) items = true ->
    extract_loop items acc = Raise e -> P e = true.
Proof.
  induction items as [|c items IH]; intros acc; simpl; [discriminate|].
  intros H. apply andb_true_iff in H as [Hc Hitems].
  pose proof (@extract_chunk_exceptions c) as Hx.
  destruct (extract_chunk c) as [x|e0]; cbn [bind].
  - now apply IH.
  - intros [= <-]. now apply Hx.
Qed.

Lemma extract_body_exceptions (response : pyobj) (e : thrown) :
  all_exceptions P response = true ->
  extract_body response = Raise e -> P e = true.
Proof.
  intros H. destruct response as [s|attr h it s]; [discriminate|].
  unfold extract_body.
  pose proof (@hasattr_content_exceptions (PObj attr h it s)) as Hh.
  destruct (hasattr_content (PObj attr h it s)) as [[|]|e0]; cbn [bind].
  - pose proof (@getattr_content_exceptions _ H) as Hg.
    destruct (getattr_content (PObj attr h it s)) as [c|e0]; cbn [bind].
    + intros Hs. exact (@str_of_exceptions c e Hg Hs).
    + now intros [= <-].
  - pose proof (@hasattr_iter_exceptions (PObj attr h it s)) as Hi.
    destruct (hasattr_iter (PObj attr h it s)) as [[|]|e0]; cbn [bind].
    + destruct (@iterate_exceptions _ H) as [Hitems Hfault].
      destruct (iterate (PObj attr h it s)) as [items fault].
      simpl in Hitems, Hfault.
      pose proof (@extract_loop_exceptions items e [] Hitems) as Hl.
      destruct (extract_loop items []) as [chunks|e0]; cbn [bind];
        [|intros [= <-]; now apply Hl].
      destruct fault as [e0|].
      * intros [= <-]. now apply Hfault.
      * apply join_chunks_exceptions.
    + now apply str_of_exceptions.
    + intros [= <-]. now apply Hi.
  - intros [= <-]. now apply Hh.
Qed.

End Exceptions.

(** What [extract_response_content] makes of its body. *)
Lemma extract_cases (response : pyobj) :
  match extract_body response with
  | Return t => extract_response_content response = Return t
  | Raise e =>
      (caught e = true
       /\ extract_response_content response = Return placeholder)
      \/ (caught e = false /\ extract_response_content response = Raise e)
  end.
Proof.
  unfold extract_response_content.
  destruct (extract_body response) as [t|e]; [reflexivity|].
  destruct (caught e); [left | right]; now split.
Qed.

(** C9: a response that is already plain text is returned as it is. *)
Theorem extract_plain_text_unchanged (s : text) :
  extract_response_content (PStr s) = Return s.
Proof. reflexivity. Qed.

(** C4, as stated, fails: the handler is [except Exception], and an
    iteration that ends in an exception of another class, here
    [asyncio.CancelledError] after a first chunk, leaves the function. *)
Lemma cancelled_iteration_escapes :
  ~ (forall response, exists t, extract_response_content response = Return t).
Proof.
  intros H. destruct (H Samples.cancelled_stream) as [t Ht].
  vm_compute in Ht. discriminate Ht.
Qed.

(** C4, amended: [extract_response_content] lets no exception out that
    derives from [Exception].  For every response whose exceptions, and
    those of the objects reached from it, all derive from [Exception], it
    returns a text.  In general, an exception that leaves it is one that
    its body raised and that [except Exception] does not catch; a text it
    returns is the one its body returned, or the placeholder for an
    exception of the body that the clause catches.  So an iteration that
    ends in an exception gives the placeholder, whatever chunks came before,
    when the exception derives from [Exception], and lets the exception out
    otherwise; and a [content] attribute whose access raises is taken for
    absent when the exception is an [AttributeError], gives the placeholder
    for another exception that derives from [Exception], and lets any other
    out. *)
Theorem extract_raises_no_exception :
  (forall response,
      all_exceptions caught response = true ->
      exists t, extract_response_content response = Return t)
  /\ (forall response e,
         extract_response_content response = Raise e ->
         caught e = false /\ extract_body response = Raise e)
  /\ (forall response t,
         extract_response_content response = Return t ->
         extract_body response = Return t
         \/ (t = placeholder
             /\ exists e, extract_body response = Raise e /\ caught e = true))
  /\ (forall items e s chunks,
         extract_loop items [] = Return chunks ->
         extract_response_content
           (PObj None (Return true) (Some (items, Some e)) s)
         = if caught e then Return placeholder else Raise e)
  /\ (forall e h it s,
         extract_response_content (PObj (Some (Raise e)) h it s)
         = if is_AttributeError e
           then extract_response_content (PObj None h it s)
           else if caught e then Return placeholder else Raise e).
Proof.
  split; [|split; [|split; [|split]]].
  - intros response Hall. pose proof (extract_cases response) as Hc.
    destruct (extract_body response) as [t|e] eqn:Hb; [eauto|].
    destruct Hc as [[_ Hc]|[Hn _]]; [eauto|].
    rewrite (@extract_body_exceptions caught (fun x H => H) response e
               Hall Hb) in Hn.
    discriminate Hn.
  - intros response e H. pose proof (extract_cases response) as Hc.
    destruct (extract_body response) as [t|e0].
    + rewrite Hc in H. discriminate H.
    + destruct Hc as [[_ Hc]|[Hn Hc]]; rewrite Hc in H;
        [discriminate H|]. injection H as <-. now split.
  - intros response t H. pose proof (extract_cases response) as Hc.
    destruct (extract_body response) as [t0|e0].
    + left. congruence.
    + right. destruct Hc as [[Hy Hc]|[_ Hc]]; rewrite Hc in H;
        [|discriminate H]. injection H as <-. split; [reflexivity|].
      exists e0. now split.
  - intros items e s chunks Hloop.
    unfold extract_response_content, extract_body; simpl.
    rewrite Hloop. reflexivity.
  - intros e h it s. unfold extract_response_content, extract_body; simpl.
    destruct (is_AttributeError e); reflexivity.
Qed.

Lemma extract_raises_witness :
  (exists t,
      extract_response_content
        (PObj None (Return true)
              (Some ([PStr (txt "Hel")],
                     Some (Printable (Exn OtherError (txt "connection lost")))))
              (Return (txt "<generator>")))
      = Return t)
  /\ extract_response_content Samples.cancelled_stream
     = Raise (Printable (Exn CancelledError []))
  /\ caught (Printable (Exn CancelledError [])) = false.
Proof.
  destruct extract_raises_no_exception as (Hall & H & _).
  split; [apply Hall; reflexivity|].
  split; [reflexivity|].
  exact (proj1 (H Samples.cancelled_stream
                  (Printable (Exn CancelledError [])) eq_refl)).
Defined.

(** C3, as stated, fails: a chunk that is itself an iterable is not flattened.
    For [['x', ['a', 'b']]] the recursive rules of the specification give
    [xab], the program gives [x['a', 'b']]. *)
Lemma nested_chunk_not_flattened :
  ~ (forall items s t,
        normalize_spec (PObj None (Return true) (Some (items, None)) s)
        = Return t ->
        extract_response_content
          (PObj None (Return true) (Some (items, None)) s)
        = Return t).
Proof.
  intros H.
  specialize (H [PStr (txt "x"); Samples.inner_list]
                (Return (txt "['x', ['a', 'b']]")) (txt "xab") eq_refl).
  vm_compute in H. discriminate H.
Qed.

(** C3, amended: the test the program makes is not whether the response can
    be iterated but whether it has an attribute [__iter__].  For a response
    that is not a string, has no [content] field and has that attribute,
    with an iteration that ends normally, the result is the concatenation,
    in arrival order, of one text per chunk, given by one pass of rules that
    are not recursive: the chunk itself when it is a string, its [content]
    when it has one and that is a string, [str(chunk)] otherwise; when one
    of these fails the result is the placeholder, or the exception if
    [except Exception] does not catch it.  A chunk that is itself an
    iterable is stringified.  A response without the attribute is
    stringified as a whole, even when [for] can iterate it. *)
Theorem extract_iterable_chunk_texts :
  (forall items s,
      match chunk_texts items with
      | Return ts =>
          extract_response_content
            (PObj None (Return true) (Some (items, None)) s)
          = Return (List.concat ts)
      | Raise _ =>
          extract_response_content
            (PObj None (Return true) (Some (items, None)) s)
          = Return placeholder
          \/ exists e,
               extract_response_content
                 (PObj None (Return true) (Some (items, None)) s)
               = Raise e
               /\ caught e = false
      end)
  /\ (forall h inner t,
         chunk_text (PObj None h (Some inner) (Return t)) = Return t)
  /\ (forall it t,
         extract_response_content (PObj None (Return false) it (Return t))
         = Return t).
Proof.
  split; [|split; reflexivity].
  intros items s.
  pose proof (extract_loop_texts items []) as H. simpl in H.
  pose proof (extract_cases (PObj None (Return true) (Some (items, None)) s))
    as Hc.
  unfold extract_body in Hc; simpl in Hc.
  destruct (chunk_texts items) as [ts|e0]; simpl in H.
  - destruct (extract_loop items []) as [chunks|e]; simpl in *;
      [|discriminate H].
    destruct (join_chunks chunks) as [t|e]; simpl in *; [|discriminate H].
    injection H as <-. exact Hc.
  - destruct (extract_loop items []) as [chunks|e]; simpl in *.
    + destruct (join_chunks chunks) as [t|e]; simpl in *; [discriminate H|].
      destruct Hc as [[_ Hc]|[Hn Hc]]; [left; exact Hc|].
      right. exists e. now split.
    + destruct Hc as [[_ Hc]|[Hn Hc]]; [left; exact Hc|].
      right. exists e. now split.
Qed.

End NormalizerFacts.

(* ================================================================== *)
(** ** Streaming and extraction side by side *)

Module StreamingFacts.

Import Response App Spec.

(** The streaming loop applies to a chunk the rule the normalizer applies. *)
Lemma stream_chunk_text (acc : text) (c : pyobj) :
  stream_chunk acc c = (t <- chunk_text c ;; Return (acc ++ t)).
Proof.
  destruct c as [s | attr h it s]; [reflexivity|].
  unfold stream_chunk, chunk_text.
  destruct attr as [[[t|a h' i r]|e]|]; simpl; try reflexivity;
    try (destruct (is_AttributeError e); simpl; try reflexivity);
    destruct s; reflexivity.
Qed.

Lemma stream_loop_all (items : list pyobj) :
  forall ts acc,
    chunk_texts items = Return ts ->
    stream_loop items acc = (acc ++ List.concat ts, None).
Proof.
  induction items as [|c items IH]; intros ts acc H; simpl in *.
  - injection H as <-. simpl. now rewrite app_nil_r.
  - rewrite stream_chunk_text.
    destruct (chunk_text c) as [t|e]; simpl in *; [|discriminate].
    destruct (chunk_texts items) as [ts'|e]; simpl in *; [|discriminate].
    injection H as <-. rewrite (IH ts' (acc ++ t) eq_refl).
    simpl. now rewrite <- app_assoc.
Qed.

Lemma stream_loop_prefix (items : list pyobj) :
  forall acc,
    exists k ts,
      chunk_texts (firstn k items) = Return ts
      /\ fst (stream_loop items acc) = acc ++ List.concat ts
      /\ (snd (stream_loop items acc) = None -> k = List.length items)
      /\ (forall e,
             snd (stream_loop items acc) = Some e ->
             k < List.length items
             /\ chunk_text (nth k items (PStr [])) = Raise e).
Proof.
  induction items as [|c items IH]; intros acc.
  - exists 0, []. simpl. rewrite app_nil_r. repeat split; discriminate.
  - simpl. rewrite stream_chunk_text.
    destruct (chunk_text c) as [t|e] eqn:Hc; simpl.
    + destruct (IH (acc ++ t)) as (k & ts & Hts & Hfst & Hnone & Hsome).
      exists (S k), (t :: ts). simpl. rewrite Hc, Hts. simpl.
      rewrite Hfst, <- app_assoc. repeat split.
      * intros H. now rewrite (Hnone H).
      * destruct (Hsome e H). lia.
      * now destruct (Hsome e H).
    + exists 0, []. simpl. rewrite app_nil_r. repeat split.
      * discriminate.
      * lia.
      * congruence.
Qed.

Lemma stream_loop_none (items : list pyobj) (acc acc' : text) :
  stream_loop items acc = (acc', None) ->
  exists ts, chunk_texts items = Return ts /\ acc' = acc ++ List.concat ts.
Proof.
  intros H. destruct (stream_loop_prefix items acc) as (k & ts & Hts & Hfst & Hnone & _).
  rewrite H in *. simpl in *. rewrite (Hnone eq_refl), firstn_all in Hts.
  eauto.
Qed.

Lemma chunk_texts_fail (items : list pyobj) (c : pyobj) (e : thrown) :
  In c items -> chunk_text c = Raise e -> returned (chunk_texts items) = None.
Proof.
  induction items as [|x items IH]; intros Hin Hc; [contradiction|].
  simpl. destruct Hin as [->|Hin].
  - now rewrite Hc.
  - destruct (chunk_text x); [|reflexivity]. simpl.
    specialize (IH Hin Hc). now destruct (chunk_texts items).
Qed.

(** An exception of the loop that collects the chunks is the exception of
    the rule on one of them. *)
Lemma extract_loop_fail (items : list pyobj) (e : thrown) :
  forall acc,
    extract_loop items acc = Raise e ->
    exists c, In c items /\ chunk_text c = Raise e.
Proof.
  induction items as [|x items IH]; intros acc; [discriminate|].
  cbn [extract_loop]. destruct (extract_chunk x) as [y|e1] eqn:Hx; cbn [bind].
  - intros H. destruct (IH _ H) as (c & Hin & Hc).
    exists c. split; [now right | exact Hc].
  - intros [= <-]. exists x. split; [now left|].
    rewrite NormalizerFacts.extract_chunk_text, Hx. reflexivity.
Qed.

(** The exception the streaming loop stops with is one the response
    holds, or a [TypeError] of the interpreter. *)
Section StreamExceptions.

Variable P : thrown -> bool.

Hypothesis P_exn :
  forall x : exn, is_Exception (exn_cls x) = true -> P (Printable x) = true.

Lemma chunk_text_exceptions (c : pyobj) (e : thrown) :
  all_exceptions P c = true -> chunk_text c = Raise e -> P e = true.
Proof.
  intros H. rewrite NormalizerFacts.extract_chunk_text.
  pose proof (@NormalizerFacts.extract_chunk_exceptions P P_exn c) as Hx.
  destruct (extract_chunk c) as [x|e0]; cbn [bind].
  - exact (@NormalizerFacts.concat_str_exceptions P P_exn [] x e).
  - intros [= <-]. now apply Hx.
Qed.

Lemma stream_loop_exceptions (items : list pyobj) (e : thrown) :
  forall acc,
    forallb (all_exceptions P) items = true ->
    snd (stream_loop items acc) = Some e -> P e = true.
Proof.
  induction items as [|c items IH]; intros acc; simpl; [discriminate|].
  intros H. apply andb_true_iff in H as [Hc Hitems].
  rewrite stream_chunk_text.
  pose proof (@chunk_text_exceptions c) as Hx.
  destruct (chunk_text c) as [t|e0]; simpl.
  - now apply IH.
  - intros [= <-]. now apply Hx.
Qed.

Lemma consume_exceptions (response : pyobj) (e : thrown) :
  all_exceptions P response = true ->
  snd (consume response) = Some e -> P e = true.
Proof.
  intros H. unfold consume.
  destruct (@NormalizerFacts.iterate_exceptions P P_exn response H)
    as [Hitems Hfault].
  destruct (iterate response) as [items fault]. simpl in Hitems, Hfault.
  pose proof (@stream_loop_exceptions items e [] Hitems) as Hl.
  destruct (stream_loop items []) as [acc [e0|]]; simpl in *.
  - exact Hl.
  - apply Hfault.
Qed.

End StreamExceptions.

(** Streaming and extraction agree on a response that has an attribute
    [__iter__]: for such a response without [content] whose iteration ends
    normally, the text the streaming loop accumulates without fault is the
    text [extract_response_content] gives, and whenever the extraction
    succeeds the streaming loop ends without fault on the same text.  They
    part on a response that [for] can iterate without that attribute: the
    streaming loop does not ask for the attribute and accumulates the
    chunks all the same, the extraction returns [str] of the response. *)
Theorem streaming_agrees_with_extraction (items : list pyobj)
  (s : result text) (acc : text) :
  (consume (PObj None (Return true) (Some (items, None)) s) = (acc, None) ->
   extract_response_content (PObj None (Return true) (Some (items, None)) s)
   = Return acc)
  /\ (extract_body (PObj None (Return true) (Some (items, None)) s)
      = Return acc ->
      consume (PObj None (Return true) (Some (items, None)) s) = (acc, None))
  /\ (forall h,
         consume (PObj None h (Some (items, None)) s)
         = consume (PObj None (Return true) (Some (items, None)) s))
  /\ (forall t,
         extract_response_content
           (PObj None (Return false) (Some (items, None)) (Return t))
         = Return t).
Proof.
  pose proof (NormalizerFacts.extract_loop_texts items []) as Hx.
  simpl in Hx. split; [|split; [|split; reflexivity]].
  - unfold consume. simpl. intros H.
    destruct (stream_loop items []) as [a [e|]] eqn:Hloop; [discriminate|].
    injection H as ->.
    destruct (@stream_loop_none _ _ _ Hloop) as (ts & Hts & ->).
    rewrite Hts in Hx. simpl in Hx.
    unfold extract_response_content, extract_body. simpl.
    destruct (extract_loop items []) as [chunks|e]; simpl in *;
      [|discriminate].
    destruct (join_chunks chunks); simpl in *; congruence.
  - unfold extract_body. simpl. intros H.
    destruct (extract_loop items []) as [chunks|e]; simpl in *;
      [|discriminate].
    rewrite H in Hx. simpl in Hx.
    destruct (chunk_texts items) as [ts|e] eqn:Hts; simpl in Hx;
      [|discriminate].
    injection Hx as ->. unfold consume. simpl.
    now rewrite (@stream_loop_all _ _ [] Hts).
Qed.

Lemma streaming_agrees_witness :
  consume (PObj None (Return true)
                (Some ([PStr (txt "Hel"); PStr (txt "lo")], None))
                (Return (txt "<generator>")))
  = (txt "Hello", None)
  /\ extract_response_content
       (PObj None (Return true)
             (Some ([PStr (txt "Hel"); PStr (txt "lo")], None))
             (Return (txt "<generator>")))
     = Return (txt "Hello")
  /\ consume Samples.getitem_only = (txt "Hello", None)
  /\ extract_response_content Samples.getitem_only
     = Return (txt "<Chunks object>").
Proof.
  destruct (@streaming_agrees_with_extraction
              [PStr (txt "Hel"); PStr (txt "lo")]
              (Return (txt "<generator>")) (txt "Hello"))
    as (H1 & _ & _ & _).
  destruct (@streaming_agrees_with_extraction
              [PStr (txt "Hel"); PStr (txt "lo")]
              (Return (txt "<Chunks object>")) (txt "Hello"))
    as (_ & _ & H3 & H4).
  split; [reflexivity|]. split; [exact (H1 eq_refl)|].
  split; [exact (H3 (Return false)) | exact (H4 (txt "<Chunks object>"))].
Defined.

(** A response that is a plain string streams to itself: the loop receives
    its characters one by one and puts them together again, so both modes
    store the same text. *)
Theorem streaming_plain_string (s : text) :
  consume (PStr s) = (s, None)
  /\ extract_response_content (PStr s) = Return s.
Proof.
  split; [|reflexivity].
  unfold consume. simpl.
  assert (H : chunk_texts (map (fun c => PStr [c]) s)
              = Return (map (fun c => [c]) s)).
  { induction s as [|c s IH]; [reflexivity|]. simpl. now rewrite IH. }
  rewrite (@stream_loop_all _ _ [] H). simpl. f_equal.
  clear H. induction s as [|c s IH]; [reflexivity|]. simpl. now rewrite IH.
Qed.

(** What streaming has accumulated when it stops is the text of the chunks
    that came before the one that failed, in order.  It ends without fault
    only after every chunk, when the iteration itself ended normally; the
    fault it ends with is the exception of the rule on the first chunk that
    failed, the chunks before it having given their texts, or, after every
    chunk, the exception that ended the iteration. *)
Theorem streaming_keeps_text_before_fault (response : pyobj) :
  exists k ts,
    chunk_texts (firstn k (fst (iterate response))) = Return ts
    /\ fst (consume response) = List.concat ts
    /\ (snd (consume response) = None ->
        k = List.length (fst (iterate response))
        /\ snd (iterate response) = None)
    /\ (forall e,
           snd (consume response) = Some e ->
           (k < List.length (fst (iterate response))
            /\ chunk_text (nth k (fst (iterate response)) (PStr []))
               = Raise e)
           \/ (k = List.length (fst (iterate response))
               /\ snd (iterate response) = Some e)).
Proof.
  unfold consume. destruct (iterate response) as [items fault]. simpl.
  destruct (stream_loop_prefix items [])
    as (k & ts & Hts & Hfst & Hnone & Hsome).
  exists k, ts. split; [exact Hts|].
  destruct (stream_loop items []) as [acc [e|]]; simpl in *.
  - split; [exact Hfst|]. split; [discriminate|].
    intros e0 [= <-]. left. exact (Hsome e eq_refl).
  - split; [exact Hfst|]. split.
    + intros H. split; [now apply Hnone | exact H].
    + intros e0 H. right. split; [now apply Hnone | exact H].
Qed.

Lemma streaming_keeps_text_witness :
  fst (consume Samples.cancelled_stream) = txt "Hel"
  /\ snd (iterate Samples.cancelled_stream)
     = Some (Printable (Exn CancelledError [])).
Proof.
  destruct (streaming_keeps_text_before_fault Samples.cancelled_stream)
    as (k & ts & Hts & Hfst & _ & Hsome).
  split; [reflexivity|].
  destruct (Hsome (Printable (Exn CancelledError [])) eq_refl)
    as [[Hk Hc]|[_ Hf]]; [|exact Hf].
  destruct k as [|[|k]]; simpl in Hk, Hc; [discriminate Hc | lia | lia].
Defined.

(** One chunk that fails its rule spoils the response: extraction gives no
    text of the chunks, whatever the other chunks hold, but the
    placeholder, or lets out an exception that [except Exception] does not
    catch; and streaming stops with a fault.  It is the placeholder when the
    exceptions of the chunks and of the iteration are all caught by
    [except Exception].  A chunk whose [content] is not a string is such a
    chunk, and its exception is a [TypeError]. *)
Theorem failing_chunk_spoils_response :
  (forall items fault s c e,
      In c items ->
      chunk_text c = Raise e ->
      (extract_response_content
         (PObj None (Return true) (Some (items, fault)) s)
       = Return placeholder
       \/ exists e',
            extract_response_content
              (PObj None (Return true) (Some (items, fault)) s)
            = Raise e'
            /\ caught e' = false)
      /\ ((forall c' e',
              In c' items -> chunk_text c' = Raise e' -> caught e' = true) ->
          (forall e', fault = Some e' -> caught e' = true) ->
          extract_response_content
            (PObj None (Return true) (Some (items, fault)) s)
          = Return placeholder)
      /\ exists e',
           snd (consume (PObj None (Return true) (Some (items, fault)) s))
           = Some e')
  /\ (forall a h i r h' it s,
         exists x,
           chunk_text (PObj (Some (Return (PObj a h i r))) h' it s)
           = Raise (Printable x)
           /\ exn_cls x = TypeError).
Proof.
  split.
  - intros items fault s c e Hin Hc.
    pose proof (@chunk_texts_fail items c e Hin Hc) as Hfail.
    pose proof (NormalizerFacts.extract_loop_texts items []) as Hx.
    simpl in Hx. rewrite Hfail in Hx.
    set (response := PObj None (Return true) (Some (items, fault)) s).
    assert (Hbody : exists e0,
               extract_body response = Raise e0
               /\ ((exists c', In c' items /\ chunk_text c' = Raise e0)
                   \/ fault = Some e0
                   \/ caught e0 = true)).
    { unfold response, extract_body. simpl.
      destruct (extract_loop items []) as [chunks|e0] eqn:Hloop; simpl in *.
      - destruct fault as [e0|]; [eexists; split; [reflexivity|]; auto|].
        destruct (join_chunks chunks) as [t|e0] eqn:Hj; simpl in *;
          [discriminate Hx|].
        exists e0. split; [reflexivity|]. right. right.
        clear - Hj. revert e0 Hj.
        induction chunks as [|[t|a h i r] chunks IH]; intros e0; simpl;
          [discriminate| |intros [= <-]; reflexivity].
        destruct (join_chunks chunks); simpl; [discriminate|].
        intros [= <-]. now apply IH.
      - exists e0. split; [reflexivity|]. left.
        exact (@extract_loop_fail _ _ _ Hloop). }
    destruct Hbody as (e0 & Hbody & Hsrc).
    pose proof (NormalizerFacts.extract_cases response) as Hcases.
    rewrite Hbody in Hcases.
    split; [|split].
    + destruct Hcases as [[_ H]|[Hn H]]; [left; exact H|].
      right. exists e0. now split.
    + intros Hitems Hfault.
      assert (Hcaught : caught e0 = true).
      { destruct Hsrc as [(c' & Hin' & Hc')|[Hf|Hy]];
          [exact (Hitems _ _ Hin' Hc') | exact (Hfault _ Hf) | exact Hy]. }
      destruct Hcases as [[_ H]|[Hn _]]; [exact H | congruence].
    + unfold consume. simpl.
      destruct (stream_loop items []) as [acc [e'|]] eqn:Hloop;
        [simpl; eexists; reflexivity|].
      destruct (@stream_loop_none _ _ _ Hloop) as (ts & Hts & _).
      rewrite Hts in Hfail. discriminate.
  - intros a h i r h' it s. eexists. split; reflexivity.
Qed.

Lemma failing_chunk_witness :
  extract_response_content
    (PObj None (Return true)
          (Some ([PStr (txt "Hi");
                  PObj (Some (Return (PObj None (Return false) None
                                           (Return (txt "None")))))
                       (Return false) None (Return (txt "<delta>"))], None))
          (Return (txt "<generator>")))
  = Return placeholder.
Proof.
  destruct failing_chunk_spoils_response as [H _].
  destruct (H [PStr (txt "Hi");
               PObj (Some (Return (PObj None (Return false) None
                                        (Return (txt "None")))))
                    (Return false) None (Return (txt "<delta>"))]
              None (Return (txt "<generator>"))
              (PObj (Some (Return (PObj None (Return false) None
                                        (Return (txt "None")))))
                    (Return false) None (Return (txt "<delta>")))
              (Printable (Exn TypeError (txt "can only concatenate str to str"))))
    as (_ & Hp & _).
  - simpl. right. left. reflexivity.
  - reflexivity.
  - apply Hp.
    + intros c' e' [<-|[<-|[]]]; [discriminate|]. intros [= <-]. reflexivity.
    + discriminate.
Defined.

End StreamingFacts.

(* ================================================================== *)
(** ** One send turn *)

Module SessionFacts.

Import Response App.

Lemma nth_error_update_nth (f : Conversation -> Conversation) :
  forall cs i c,
    nth_error cs i = Some c -> nth_error (update_nth i f cs) i = Some (f c).
Proof.
  induction cs as [|x cs IH]; intros [|i] c H; simpl in *; try discriminate.
  - now injection H as ->.
  - now apply IH.
Qed.

Lemma update_nth_twice (f g : Conversation -> Conversation) :
  forall cs i,
    update_nth i g (update_nth i f cs) = update_nth i (fun c => g (f c)) cs.
Proof.
  induction cs as [|x cs IH]; intros [|i]; simpl; try reflexivity.
  now rewrite IH.
Qed.

Lemma nth_error_update_nth_other (f : Conversation -> Conversation) :
  forall cs i j,
    j <> i -> nth_error (update_nth i f cs) j = nth_error cs j.
Proof.
  induction cs as [|c cs IH]; intros [|i] [|j] H; simpl; try reflexivity;
    try congruence.
  apply IH. congruence.
Qed.

Lemma length_update_nth (f : Conversation -> Conversation) :
  forall cs i, List.length (update_nth i f cs) = List.length cs.
Proof.
  induction cs as [|c cs IH]; intros [|i]; simpl; try reflexivity.
  now rewrite IH.
Qed.

(** What the call without streaming leaves alone: everything but the calls
    made. *)
Lemma plain_request_frame (p : provider) (model : text) (conv : Conversation)
  (acc : text) (st : state) :
  forall st' acc' fault,
    plain_request p model conv acc st = (st', acc', fault) ->
    st' = add_call (mkCall model (payload conv) false) st.
Proof.
  intros st' acc' fault. unfold plain_request, create.
  destruct (p _ _) as [r|e]; [destruct (extract_response_content r)|];
    now intros [= <- _ _].
Qed.

(** What the line about the failed stream leaves alone: everything but the
    output. *)
Lemma log_failure_frame (model : text) (e : thrown) (st st' : state) :
  log_failure model e st = Return st' ->
  exists s,
    str_thrown e = Return s
    /\ Text.encodable (txt "Streaming failed for " ++ model ++ txt ": " ++ s)
       = true
    /\ st' = set_outside
               (print (txt "Streaming failed for " ++ model ++ txt ": " ++ s)
                      (outside st)) st.
Proof.
  unfold log_failure, print_line. destruct (str_thrown e) as [s|e1];
    cbn [bind]; [|discriminate].
  destruct (Text.encodable _) eqn:Henc; cbn [bind]; [|discriminate].
  intros [= <-]. exists s. auto.
Qed.

(** What [request] leaves alone: everything but the calls made and the
    lines printed. *)
Lemma request_frame (p : provider) (model : text) (conv : Conversation)
  (st : state) :
  forall st' acc fault,
    request p model conv st = (st', acc, fault) ->
    conversations st' = conversations st
    /\ selected_index st' = selected_index st
    /\ model_dropdown st' = model_dropdown st
    /\ streaming_toggle st' = streaming_toggle st
    /\ input_field st' = input_field st
    /\ disk (outside st') = disk (outside st)
    /\ write_fault (outside st') = write_fault (outside st).
Proof.
  intros st' acc fault. unfold request.
  destruct (streaming_toggle st) eqn:Hs.
  - unfold create at 1.
    destruct (streaming_attempt _) as [a [e|]].
    + destruct (caught e).
      * destruct (log_failure _ _ _) as [st2|e1] eqn:Hlog.
        -- apply log_failure_frame in Hlog as (s & _ & _ & ->).
           intros H. apply plain_request_frame in H as ->. simpl. auto 10.
        -- intros [= <- _ _]; simpl; auto 10.
      * intros [= <- _ _]; simpl; auto 10.
    + intros [= <- _ _]; simpl; auto 10.
  - intros H. apply plain_request_frame in H as ->. simpl. auto 10.
Qed.

(** The calls [request] makes: one, or two when streaming was enabled and
    the streaming attempt ended in an exception that [except Exception]
    catches and whose line was printed; the same model and payload in
    each. *)
Lemma request_calls (p : provider) (model : text) (conv : Conversation)
  (st st' : state) (acc : text) (fault : option thrown) :
  request p model conv st = (st', acc, fault) ->
  let streaming := mkCall model (payload conv) true in
  let plain := mkCall model (payload conv) false in
  (streaming_toggle st = false /\ calls st' = calls st ++ [plain])
  \/ (streaming_toggle st = true
      /\ ((calls st' = calls st ++ [streaming; plain]
           /\ exists a e s,
                streaming_attempt (p (calls st) streaming) = (a, Some e)
                /\ caught e = true
                /\ str_thrown e = Return s
                /\ Text.encodable
                     (txt "Streaming failed for " ++ model ++ txt ": " ++ s)
                   = true)
          \/ (calls st' = calls st ++ [streaming]
              /\ (streaming_attempt (p (calls st) streaming) = (acc, fault)
                  \/ exists e,
                       streaming_attempt (p (calls st) streaming)
                       = (acc, Some e)
                       /\ caught e = true
                       /\ (str_thrown e = Raise
                             match fault with Some e' => e' | None => e end
                           \/ exists s,
                                str_thrown e = Return s
                                /\ Text.encodable
                                     (txt "Streaming failed for " ++ model
                                      ++ txt ": " ++ s) = false))))).
Proof.
  unfold request. destruct (streaming_toggle st) eqn:Hs.
  - unfold create at 1.
    destruct (streaming_attempt _) as [a [e|]] eqn:Ha.
    + destruct (caught e) eqn:Hc.
      * destruct (log_failure _ _ _) as [st2|e1] eqn:Hlog.
        -- pose proof Hlog as Hl.
           apply log_failure_frame in Hl as (s & Hstr & Henc & ->).
           intros H. apply plain_request_frame in H as ->.
           right. split; [reflexivity|]. left. simpl.
           rewrite <- app_assoc. split; [reflexivity|].
           exists a, e, s. auto.
        -- intros [= <- <- <-]. right. split; [reflexivity|]. right.
           split; [reflexivity|]. right. exists e.
           split; [reflexivity|]. split; [exact Hc|].
           revert Hlog. unfold log_failure, print_line.
           destruct (str_thrown e) as [s|e2]; cbn [bind].
           ++ destruct (Text.encodable _) eqn:Henc; cbn [bind];
                [discriminate|]. intros _. right. exists s. auto.
           ++ intros [= <-]. now left.
      * intros [= <- <- <-]. right. split; [reflexivity|]. right.
        split; [reflexivity|]. now left.
    + intros [= <- <- <-]. right. split; [reflexivity|]. right.
      split; [reflexivity|]. now left.
  - intros H. apply plain_request_frame in H as ->. left. now split.
Qed.

Lemma tame_exn (x : exn) :
  is_Exception (exn_cls x) = true -> tame (Printable x) = true.
Proof. intros H. exact H. Qed.

(** The exceptions [request] lets reach the outer handler, for a provider
    that is well behaved: all are caught there and have a text. *)
Lemma request_tame (p : provider) (model : text) (conv : Conversation)
  (st st' : state) (acc : text) (e : thrown) :
  well_behaved p ->
  request p model conv st = (st', acc, Some e) ->
  tame e = true.
Proof.
  intros Hp.
  assert (Hplain : forall a s0 s1 a1,
             plain_request p model conv a s0 = (s1, a1, Some e) ->
             tame e = true).
  { intros a s0 s1 a1. unfold plain_request, create.
    specialize (Hp (calls s0) (mkCall model (payload conv) false)).
    destruct (p _ _) as [r|e0].
    - pose proof (NormalizerFacts.extract_cases r) as Hc.
      destruct (extract_response_content r) as [t|e1]; [discriminate|].
      intros [= _ _ <-].
      destruct (extract_body r) as [t|e2] eqn:Hb; [discriminate Hc|].
      destruct Hc as [[_ Hc]|[_ Hc]]; [discriminate Hc|].
      injection Hc as <-.
      exact (@NormalizerFacts.extract_body_exceptions tame tame_exn r _
               Hp Hb).
    - intros [= _ _ <-]. exact Hp. }
  unfold request. destruct (streaming_toggle st).
  - unfold create at 1.
    specialize (Hp (calls st) (mkCall model (payload conv) true)).
    assert (Ha : forall a e0,
               streaming_attempt (p (calls st) (mkCall model (payload conv) true))
               = (a, Some e0) -> tame e0 = true).
    { intros a e0. unfold streaming_attempt.
      destruct (p _ _) as [r|e1].
      - intros H.
        apply (@StreamingFacts.consume_exceptions tame tame_exn r e0 Hp).
        now rewrite H.
      - intros [= _ <-]. exact Hp. }
    destruct (streaming_attempt _) as [a [e0|]]; [|discriminate].
    specialize (Ha a e0 eq_refl).
    destruct (caught e0).
    + destruct (log_failure _ _ _) as [st2|e1] eqn:Hlog.
      * apply Hplain.
      * intros [= _ _ <-]. revert Hlog. unfold log_failure, print_line.
        destruct e0 as [x|c inner]; [|discriminate Ha]. cbn [str_thrown bind].
        destruct (Text.encodable _); cbn [bind]; [discriminate|].
        intros [= <-]. reflexivity.
    + intros [= _ _ <-]. exact Ha.
  - apply Hplain.
Qed.

Lemma tame_caught (e : thrown) :
  tame e = true -> caught e = true /\ exists s, str_thrown e = Return s.
Proof.
  destruct e as [x|c inner]; [|discriminate]. intros H.
  split; [exact H|]. eexists; reflexivity.
Qed.

(** The sample providers that raise or break with exceptions that derive
    from [Exception] are well behaved. *)
Lemma always_raise_well_behaved : well_behaved Samples.always_raise.
Proof. intros history c. reflexivity. Qed.

Lemma broken_stream_well_behaved : well_behaved Samples.broken_stream.
Proof.
  intros history c. unfold Samples.broken_stream.
  destruct (call_stream c); reflexivity.
Qed.

(** [stream_response] on a valid selection: the user message is appended
    and saved, the request is made with the conversation that now holds it,
    and the assistant message is appended and saved unless an exception
    leaves the function. *)
Lemma stream_response_result (p : provider) (prompt : text) (st : state)
  (conv : Conversation) (st2 : state) (acc : text) (fault : option thrown) :
  nth_error (conversations st) (selected_index st) = Some conv ->
  request p (chosen_model st) (append_message (user_message prompt) conv)
          (save (append_to_selected (user_message prompt) st))
  = (st2, acc, fault) ->
  let i := selected_index st in
  let cs1 :=
    update_nth i (append_message (user_message prompt)) (conversations st) in
  conversations st2 = cs1
  /\ selected_index st2 = i
  /\ model_dropdown st2 = model_dropdown st
  /\ streaming_toggle st2 = streaming_toggle st
  /\ input_field st2 = input_field st
  /\ nth_error cs1 i = Some (append_message (user_message prompt) conv)
  /\ match final_text (chosen_model st) acc fault with
     | Return final =>
         let cs2 :=
           update_nth i (append_message (assistant_message final)) cs1 in
         exists st',
           stream_response p prompt st = (st', None)
           /\ conversations st' = cs2
           /\ selected_index st' = i
           /\ model_dropdown st' = model_dropdown st
           /\ streaming_toggle st' = streaming_toggle st
           /\ input_field st' = input_field st
           /\ calls st' = calls st2
           /\ outside st' = Store.save_conversations cs2 (outside st2)
           /\ nth_error cs2 i
              = Some (mkConversation (id conv) (title conv)
                        (messages conv
                         ++ [user_message prompt; assistant_message final]))
     | Raise e => stream_response p prompt st = (st2, Some e)
     end.
Proof.
  intros Hnth Hreq i cs1.
  destruct (request_frame _ _ _ _ Hreq) as (Hc & Hi & Hm & Hs & Hf & _).
  simpl in Hc, Hi, Hm, Hs, Hf. fold i cs1 in Hc.
  split; [exact Hc|]. split; [exact Hi|]. split; [exact Hm|].
  split; [exact Hs|]. split; [exact Hf|].
  assert (Hget : nth_error cs1 i
                 = Some (append_message (user_message prompt) conv))
    by (apply nth_error_update_nth; exact Hnth).
  split; [exact Hget|].
  unfold stream_response. rewrite Hnth. cbv zeta.
  change (chosen_model (save (append_to_selected (user_message prompt) st)))
    with (chosen_model st).
  rewrite Hreq. unfold finish.
  destruct (final_text (chosen_model st) acc fault) as [final|e];
    [|reflexivity].
  eexists. split; [reflexivity|].
  unfold save, append_to_selected; simpl. rewrite Hc, Hi.
  repeat (split; [try reflexivity; try assumption|]).
  rewrite (nth_error_update_nth _ _ _ Hget).
  unfold append_message; simpl. now rewrite <- app_assoc.
Qed.

Lemma final_text_tame (model acc : text) (fault : option thrown) :
  (forall e, fault = Some e -> tame e = true) ->
  exists final, final_text model acc fault = Return final.
Proof.
  intros H. unfold final_text. destruct fault as [e|]; [|eauto].
  destruct (@tame_caught e (H e eq_refl)) as [-> [s ->]]. cbn [bind]. eauto.
Qed.
















(** One click with something to send: the conversation selected gets the
    derived title if it had no message, keeps its title otherwise, and has
    messages afterwards, whether or not an exception leaves the turn; none
    does for a provider that is well behaved. *)
Lemma on_send_click_title (p : provider) (st : state) (conv : Conversation) :
  nth_error (conversations st) (selected_index st) = Some conv ->
  Text.strip (input_field st) <> [] ->
  exists st' fault conv',
    on_send_click p st = (st', fault)
    /\ selected_index st' = selected_index st
    /\ nth_error (conversations st') (selected_index st) = Some conv'
    /\ messages conv' <> []
    /\ title conv' = match messages conv with
                     | [] => VStr (derive_title (Text.strip (input_field st)))
                     | _ :: _ => title conv
                     end
    /\ (well_behaved p -> fault = None).
Proof.
  intros Hnth Ht. unfold on_send_click.
  destruct (Text.strip (input_field st)) as [|c t] eqn:Hstrip;
    [congruence|]. rewrite Hnth.
  set (st1 := match messages conv with [] => _ | _ :: _ => st end).
  set (conv1 := match messages conv with
                | [] => set_title (VStr (derive_title (c :: t))) conv
                | _ :: _ => conv
                end).
  assert (H1 : nth_error (conversations (set_input_field [] st1))
                         (selected_index (set_input_field [] st1))
               = Some conv1 /\ selected_index st1 = selected_index st).
  { unfold st1, conv1. destruct (messages conv); simpl; [|now split].
    split; [|reflexivity]. now apply nth_error_update_nth. }
  destruct H1 as [H1 Hi].
  destruct (request p (chosen_model (set_input_field [] st1))
              (append_message (user_message (c :: t)) conv1)
              (save (append_to_selected (user_message (c :: t))
                       (set_input_field [] st1))))
    as [[st2 acc] fault] eqn:Hreq.
  destruct (@stream_response_result p (c :: t) _ conv1 st2 acc fault H1 Hreq)
    as (Hcs & Hsel & _ & _ & _ & Hget1 & Hfin).
  simpl in Hcs, Hsel, Hget1. rewrite Hi in *.
  assert (Htitle : title conv1 = match messages conv with
                                 | [] => VStr (derive_title (c :: t))
                                 | _ :: _ => title conv
                                 end)
    by (unfold conv1; now destruct (messages conv)).
  destruct (final_text _ acc fault) as [final|e] eqn:Hfinal.
  - destruct Hfin as (st' & Hrun & Hcs2 & Hsel2 & _ & _ & _ & _ & _ & Hget).
    simpl in Hsel2, Hget, Hcs2. rewrite Hi in *.
    eexists st', None, _. split; [exact Hrun|]. split; [exact Hsel2|].
    rewrite Hcs2. split; [exact Hget|]. simpl.
    split; [now destruct (messages conv1)|]. split; [exact Htitle|].
    reflexivity.
  - eexists st2, (Some e), _. split; [exact Hfin|]. split; [exact Hsel|].
    rewrite Hcs. split; [exact Hget1|]. simpl.
    split; [now destruct (messages conv1)|]. split; [exact Htitle|].
    intros Hp. exfalso.
    destruct (@final_text_tame (chosen_model (set_input_field [] st1)) acc
                fault) as [final Hf]; [|congruence].
    intros e0 ->. exact (@request_tame p _ _ _ _ _ _ Hp Hreq).
Qed.

(** Once the conversation selected has a message, no later send changes its
    title. *)
Lemma send_all_keeps_title (p : provider) (inputs : list text) :
  forall st conv,
    nth_error (conversations st) (selected_index st) = Some conv ->
    messages conv <> [] ->
    exists st' fault conv',
      send_all p inputs st = (st', fault)
      /\ selected_index st' = selected_index st
      /\ nth_error (conversations st') (selected_index st) = Some conv'
      /\ title conv' = title conv
      /\ (well_behaved p -> fault = None).
Proof.
  induction inputs as [|input inputs IH]; intros st conv Hnth Hmsgs; simpl.
  - exists st, None, conv. auto.
  - destruct (Text.strip input) as [|c t] eqn:Hstrip.
    + unfold on_send_click at 1. simpl. rewrite Hstrip.
      destruct (IH (set_input_field input st) conv Hnth Hmsgs)
        as (st' & fault & conv' & Hrun & Hsel & Hget & Htitle & Hwb).
      exists st', fault, conv'. auto.
    + destruct (@on_send_click_title p (set_input_field input st) conv Hnth)
        as (st1 & fault1 & conv1 & Hrun & Hsel & Hget & Hne & Htitle & Hwb).
      { simpl. rewrite Hstrip. discriminate. }
      rewrite Hrun. simpl in *.
      assert (Ht1 : title conv1 = title conv)
        by (rewrite Htitle; destruct (messages conv); congruence).
      destruct fault1 as [e|].
      * exists st1, (Some e), conv1. split; [reflexivity|].
        split; [exact Hsel|]. split; [exact Hget|]. split; [exact Ht1|].
        exact Hwb.
      * rewrite <- Hsel in Hget.
        destruct (IH st1 conv1 Hget Hne)
          as (st' & fault & conv' & Hrun' & Hsel' & Hget' & Htitle' & Hwb').
        exists st', fault, conv'. rewrite Hsel in *.
        split; [exact Hrun'|]. split; [exact Hsel'|]. split; [exact Hget'|].
        split; [congruence | exact Hwb'].
Qed.

Lemma derive_title_cases (t : text) :
  derive_title t
  = if List.length t <=? 30 then t else firstn 30 t ++ txt "...".
Proof.
  unfold derive_title.
  destruct (Nat.ltb_spec 30 (List.length t)), (Nat.leb_spec (List.length t) 30);
    try reflexivity; lia.
Qed.

(** C6: the first message sent to a conversation sets its title to the
    trimmed prompt when that has at most 30 characters, to its first 30
    characters followed by [...] when it is longer; the sends that follow
    leave the title as it is, and so does any send to a conversation that
    already has messages.  The title is set before the provider is called,
    so this holds whatever the provider does, also when an exception leaves
    a turn and ends the sends; with a provider that is well behaved every
    send is made. *)
Theorem title_set_by_first_message_only (p : provider) (st : state)
  (conv : Conversation) :
  nth_error (conversations st) (selected_index st) = Some conv ->
  (messages conv = [] ->
   forall first later,
     Text.strip first <> [] ->
     exists st' fault conv',
       send_all p (first :: later) st = (st', fault)
       /\ nth_error (conversations st') (selected_index st) = Some conv'
       /\ title conv'
          = VStr (let t := Text.strip first in
                  if List.length t <=? 30 then t
                  else firstn 30 t ++ txt "...")
       /\ (well_behaved p -> fault = None))
  /\ (messages conv <> [] ->
      forall inputs,
        exists st' fault conv',
          send_all p inputs st = (st', fault)
          /\ nth_error (conversations st') (selected_index st) = Some conv'
          /\ title conv' = title conv
          /\ (well_behaved p -> fault = None)).
Proof.
  intros Hnth. split.
  - intros Hempty first later Hfirst. simpl.
    destruct (@on_send_click_title p (set_input_field first st) conv Hnth
                Hfirst)
      as (st1 & fault1 & conv1 & Hrun & Hsel & Hget & Hne & Htitle & Hwb).
    rewrite Hrun. simpl in *.
    assert (Ht1 : title conv1
                  = VStr (if List.length (Text.strip first) <=? 30
                          then Text.strip first
                          else firstn 30 (Text.strip first) ++ txt "..."))
      by (rewrite Htitle, Hempty; now rewrite derive_title_cases).
    destruct fault1 as [e|].
    + exists st1, (Some e), conv1. split; [reflexivity|].
      split; [exact Hget|]. split; [exact Ht1 | exact Hwb].
    + rewrite <- Hsel in Hget.
      destruct (@send_all_keeps_title p later st1 conv1 Hget Hne)
        as (st' & fault & conv' & Hrun' & Hsel' & Hget' & Htitle' & Hwb').
      exists st', fault, conv'. rewrite Hsel in *.
      split; [exact Hrun'|]. split; [exact Hget'|].
      split; [rewrite Htitle'; exact Ht1 | exact Hwb'].
  - intros Hne inputs.
    destruct (@send_all_keeps_title p inputs st conv Hnth Hne)
      as (st' & fault & conv' & Hrun & _ & Hget & Htitle & Hwb).
    exists st', fault, conv'. auto.
Qed.

Lemma title_witness :
  exists st' conv',
    send_all Samples.always_raise
             [txt "  What is the capital of the country of France?  ";
              txt "and of Spain?"]
             Samples.fresh_state = (st', None)
    /\ nth_error (conversations st') 0 = Some conv'
    /\ title conv' = VStr (txt "What is the capital of the cou...").
Proof.
  assert (H : nth_error (conversations Samples.fresh_state)
                        (selected_index Samples.fresh_state)
              = Some (mkConversation (VStr (txt "0000"))
                                     (VStr (txt "New Chat")) []))
    by reflexivity.
  pose proof (@title_set_by_first_message_only Samples.always_raise
                Samples.fresh_state _ H) as [Hfirst _].
  destruct (Hfirst eq_refl
              (txt "  What is the capital of the country of France?  ")
              [txt "and of Spain?"])
    as (st' & fault & conv' & Hrun & Hget & Htitle & Hwb).
  { vm_compute. discriminate. }
  rewrite (Hwb always_raise_well_behaved) in Hrun.
  exists st', conv'. split; [exact Hrun|]. split; [exact Hget|].
  rewrite Htitle. vm_compute. reflexivity.
Defined.

End SessionFacts.

(* ================================================================== *)
(** ** A turn, whatever the provider does *)

Module TurnFacts.

Import Response App.



(** What a turn on a valid selection leaves behind, whether or not an
    exception leaves it. *)
Lemma stream_response_shape (p : provider) (prompt : text) (st : state)
  (conv : Conversation) :
  nth_error (conversations st) (selected_index st) = Some conv ->
  exists st' fault,
    stream_response p prompt st = (st', fault)
    /\ match fault with
       | None =>
           exists final,
             nth_error (conversations st') (selected_index st)
             = Some (mkConversation (id conv) (title conv)
                       (messages conv
                        ++ [user_message prompt; assistant_message final]))
       | Some e =>
           nth_error (conversations st') (selected_index st)
           = Some (mkConversation (id conv) (title conv)
                     (messages conv ++ [user_message prompt]))
       end
    /\ (forall j,
           j <> selected_index st ->
           nth_error (conversations st') j = nth_error (conversations st) j)
    /\ List.length (conversations st') = List.length (conversations st)
    /\ selected_index st' = selected_index st
    /\ model_dropdown st' = model_dropdown st
    /\ streaming_toggle st' = streaming_toggle st
    /\ input_field st' = input_field st
    /\ (well_behaved p -> fault = None).
Proof.
  intros Hnth.
  destruct (request p (chosen_model st)
              (append_message (user_message prompt) conv)
              (save (append_to_selected (user_message prompt) st)))
    as [[st2 acc] fault] eqn:Hreq.
  destruct (@SessionFacts.stream_response_result p prompt st conv st2 acc
              fault Hnth Hreq)
    as (Hcs & Hsel & Hm & Hs & Hi & Hget1 & Hfin).
  destruct (final_text (chosen_model st) acc fault) as [final|e] eqn:Hfinal.
  - destruct Hfin as (st' & Hrun & Hcs' & Hsel' & Hm' & Hs' & Hi' & _ & _
                      & Hget).
    exists st', None. split; [exact Hrun|]. rewrite Hcs'.
    split; [exists final; exact Hget|].
    split; [|split; [|auto 10]].
    + intros j Hj. now rewrite !SessionFacts.nth_error_update_nth_other.
    + now rewrite !SessionFacts.length_update_nth.
  - exists st2, (Some e). split; [exact Hfin|]. rewrite Hcs.
    split; [exact Hget1|].
    split; [|split; [|split; [exact Hsel|split; [exact Hm|split;
                                [exact Hs|split; [exact Hi|]]]]]].
    + intros j Hj. now rewrite SessionFacts.nth_error_update_nth_other.
    + now rewrite SessionFacts.length_update_nth.
    + intros Hp. exfalso.
      destruct (@SessionFacts.final_text_tame (chosen_model st) acc fault)
        as [final Hf]; [|congruence].
      intros e0 ->. exact (@SessionFacts.request_tame p _ _ _ _ _ _ Hp Hreq).
Qed.

(** For any provider, a turn on a valid selection appends the user
    message with the prompt to the selected conversation and, unless an
    exception leaves the turn, one assistant message after it; when an
    exception leaves the turn the user message is the last one.  The id and
    title of that conversation, every other conversation, the selection and
    the widgets' values stay as they were in both cases.  No exception
    leaves the turn when the provider is well behaved.  On an invalid
    selection the turn raises [IndexError] and changes nothing. *)
Theorem turn_appends_user_then_assistant (p : provider) (prompt : text)
  (st : state) :
  (forall conv,
      nth_error (conversations st) (selected_index st) = Some conv ->
      exists st' fault,
        stream_response p prompt st = (st', fault)
        /\ match fault with
           | None =>
               exists final,
                 nth_error (conversations st') (selected_index st)
                 = Some (mkConversation (id conv) (title conv)
                           (messages conv
                            ++ [user_message prompt;
                                assistant_message final]))
           | Some e =>
               nth_error (conversations st') (selected_index st)
               = Some (mkConversation (id conv) (title conv)
                         (messages conv ++ [user_message prompt]))
           end
        /\ (forall j,
               j <> selected_index st ->
               nth_error (conversations st') j
               = nth_error (conversations st) j)
        /\ List.length (conversations st') = List.length (conversations st)
        /\ selected_index st' = selected_index st
        /\ model_dropdown st' = model_dropdown st
        /\ streaming_toggle st' = streaming_toggle st
        /\ input_field st' = input_field st
        /\ (well_behaved p -> fault = None))
  /\ (nth_error (conversations st) (selected_index st) = None ->
      exists e,
        stream_response p prompt st = (st, Some (Printable e))
        /\ exn_cls e = IndexError).
Proof.
  split.
  - intros conv. apply stream_response_shape.
  - intros Hnone. unfold stream_response. rewrite Hnone.
    eexists. split; reflexivity.
Qed.

Lemma turn_witness :
  (exists st' final,
      stream_response Samples.broken_stream (txt "hi") Samples.fresh_state
      = (st', None)
      /\ nth_error (conversations st') 0
         = Some (mkConversation (VStr (txt "0000")) (VStr (txt "New Chat"))
                   [user_message (txt "hi"); assistant_message final]))
  /\ (exists st' e,
         stream_response Samples.interrupted (txt "hi") Samples.fresh_state
         = (st', Some e)
         /\ nth_error (conversations st') 0
            = Some (mkConversation (VStr (txt "0000"))
                      (VStr (txt "New Chat")) [user_message (txt "hi")])).
Proof.
  split.
  - destruct (@turn_appends_user_then_assistant Samples.broken_stream
                (txt "hi") Samples.fresh_state) as [H _].
    destruct (H (mkConversation (VStr (txt "0000")) (VStr (txt "New Chat"))
                   []) eq_refl)
      as (st' & fault & Hrun & Hget & _ & _ & _ & _ & _ & _ & Hwb).
    rewrite (Hwb SessionFacts.broken_stream_well_behaved) in Hrun, Hget.
    destruct Hget as [final Hget].
    exists st', final. split; [exact Hrun | exact Hget].
  - destruct (@turn_appends_user_then_assistant Samples.interrupted
                (txt "hi") Samples.fresh_state) as [H _].
    destruct (H (mkConversation (VStr (txt "0000")) (VStr (txt "New Chat"))
                   []) eq_refl)
      as (st' & fault & Hrun & Hget & _).
    destruct fault as [e|]; [|vm_compute in Hrun; discriminate Hrun].
    exists st', e. split; [exact Hrun | exact Hget].
Defined.



End TurnFacts.

(* ================================================================== *)
(** ** What is sent *)

Module InputFacts.

Import Response App.

Lemma lstrip_split (t : text) :
  exists ws, t = ws ++ Text.lstrip t /\ forallb Text.isspace ws = true.
Proof.
  induction t as [|c t (ws & Ht & Hws)]; [now exists []|].
  simpl. destruct (Text.isspace c) eqn:Hc.
  - exists (c :: ws). simpl. rewrite Hc, Hws. split; [congruence|reflexivity].
  - now exists [].
Qed.

Lemma lstrip_head (t : text) (c : N) (r : text) :
  Text.lstrip t = c :: r -> Text.isspace c = false.
Proof.
  induction t as [|d t IH]; simpl; [discriminate|].
  destruct (Text.isspace d) eqn:Hd; [exact IH|].
  intros [= <- _]. exact Hd.
Qed.

Lemma lstrip_blank (t : text) :
  Text.lstrip t = [] <-> forallb Text.isspace t = true.
Proof.
  induction t as [|c t IH]; simpl; [tauto|].
  destruct (Text.isspace c); simpl; [exact IH|]. split; discriminate.
Qed.

Lemma forallb_rev (P : N -> bool) (t : text) :
  forallb P (rev t) = forallb P t.
Proof.
  induction t as [|c t IH]; [reflexivity|].
  simpl. rewrite forallb_app, IH. simpl. rewrite andb_true_r.
  apply andb_comm.
Qed.

Lemma strip_blank (t : text) :
  Text.strip t = [] <-> forallb Text.isspace t = true.
Proof.
  unfold Text.strip, Text.rstrip. split.
  - intros H. apply (f_equal (@rev N)) in H. rewrite rev_involutive in H.
    simpl in H. apply lstrip_blank in H. rewrite forallb_rev in H.
    destruct (Text.lstrip t) as [|c r] eqn:Hl; [now apply lstrip_blank|].
    apply lstrip_head in Hl. simpl in H. rewrite Hl in H. discriminate.
  - intros H. apply lstrip_blank in H. now rewrite H.
Qed.

(** [strip] removes whitespace at both ends and nothing else. *)
Lemma strip_split (t : text) :
  exists l r,
    t = l ++ Text.strip t ++ r
    /\ forallb Text.isspace l = true /\ forallb Text.isspace r = true.
Proof.
  destruct (lstrip_split t) as (l & Ht & Hl).
  destruct (lstrip_split (rev (Text.lstrip t))) as (ws & Hu & Hws).
  exists l, (rev ws). unfold Text.strip, Text.rstrip.
  split; [|split; [exact Hl | now rewrite forallb_rev]].
  rewrite <- rev_app_distr, <- Hu, rev_involutive. exact Ht.
Qed.

Lemma strip_ends (t : text) (c : N) (r : text) :
  Text.strip t = c :: r ->
  Text.isspace c = false /\ Text.isspace (last (c :: r) c) = false.
Proof.
  intros H. destruct (strip_split t) as (l & ws & Ht & _ & _).
  unfold Text.strip, Text.rstrip in *.
  destruct (lstrip_split (rev (Text.lstrip t))) as (ws' & Hu & _).
  split.
  - apply (f_equal (@rev N)) in Hu. rewrite rev_involutive, rev_app_distr in Hu.
    rewrite H in Hu. simpl in Hu. now apply lstrip_head in Hu.
  - destruct (Text.lstrip (rev (Text.lstrip t))) as [|d v] eqn:Hv;
      [discriminate|].
    apply lstrip_head in Hv. simpl in H. rewrite <- H.
    now rewrite last_last.
Qed.

Lemma last_default (l : text) (a b : N) : l <> [] -> last l a = last l b.
Proof.
  induction l as [|c l IH]; [congruence|]. intros _.
  destruct l as [|d l]; [reflexivity|]. apply IH. discriminate.
Qed.

(** An input made of whitespace only is ignored: nothing is appended, no
    call is made, nothing is written, and the field keeps its text; this
    holds whatever the selection is. *)
Theorem blank_input_ignored (p : provider) (st : state) :
  forallb Text.isspace (input_field st) = true ->
  on_send_click p st = (st, None).
Proof.
  intros H. apply strip_blank in H. unfold on_send_click. now rewrite H.
Qed.

Lemma blank_input_witness :
  on_send_click Samples.always_raise
    (set_input_field (txt "   ") Samples.fresh_state)
  = (set_input_field (txt "   ") Samples.fresh_state, None).
Proof.
  apply (@blank_input_ignored Samples.always_raise
           (set_input_field (txt "   ") Samples.fresh_state)).
  reflexivity.
Defined.

(** An input that is not blank is sent trimmed: the user message holds the
    input without the whitespace at its two ends and nothing else removed,
    it is not empty and neither starts nor ends with whitespace, and the
    input field is emptied; this holds for every provider, also when an
    exception leaves the turn.  The user message is followed by one
    assistant message unless an exception leaves the turn, and none does
    when the provider is well behaved. *)
Theorem sent_message_is_trimmed (p : provider) (st : state)
  (conv : Conversation) :
  nth_error (conversations st) (selected_index st) = Some conv ->
  forallb Text.isspace (input_field st) = false ->
  exists st' fault conv' l r,
    let t := Text.strip (input_field st) in
    on_send_click p st = (st', fault)
    /\ input_field st' = []
    /\ nth_error (conversations st') (selected_index st) = Some conv'
    /\ match fault with
       | None =>
           exists final,
             messages conv'
             = messages conv ++ [user_message t; assistant_message final]
       | Some _ => messages conv' = messages conv ++ [user_message t]
       end
    /\ input_field st = l ++ t ++ r
    /\ forallb Text.isspace l = true
    /\ forallb Text.isspace r = true
    /\ t <> []
    /\ Text.isspace (hd 32%N t) = false
    /\ Text.isspace (last t 32%N) = false
    /\ (well_behaved p -> fault = None).
Proof.
  intros Hnth Hblank.
  destruct (Text.strip (input_field st)) as [|c t] eqn:Hstrip.
  { apply strip_blank in Hstrip. congruence. }
  destruct (strip_split (input_field st)) as (l & r & Hsplit & Hl & Hr).
  destruct (@strip_ends (input_field st) c t Hstrip) as [Hhd Hlast].
  unfold on_send_click. rewrite Hstrip, Hnth.
  set (st1 := match messages conv with [] => _ | _ :: _ => st end).
  set (conv1 := match messages conv with
                | [] => set_title (VStr (derive_title (c :: t))) conv
                | _ :: _ => conv
                end).
  assert (H1 : nth_error (conversations (set_input_field [] st1))
                         (selected_index (set_input_field [] st1))
               = Some conv1
               /\ selected_index st1 = selected_index st
               /\ messages conv1 = messages conv).
  { unfold st1, conv1. destruct (messages conv) eqn:Hm; simpl.
    - split; [|split; [reflexivity|exact Hm]].
      now apply SessionFacts.nth_error_update_nth.
    - now split. }
  destruct H1 as (H1 & Hi & Hm).
  destruct (@TurnFacts.stream_response_shape p (c :: t) _ conv1 H1)
    as (st' & fault & Hrun & Hget & _ & _ & _ & _ & _ & Hinput & Hwb).
  simpl in Hget, Hinput. rewrite Hi in Hget.
  rewrite (@last_default (c :: t) 32%N c) by discriminate.
  rewrite Hstrip in Hsplit. cbn [hd].
  destruct fault as [e|].
  - exists st', (Some e). eexists. exists l, r.
    split; [exact Hrun|]. split; [exact Hinput|]. split; [exact Hget|].
    cbn [messages]. rewrite Hm.
    repeat split; try assumption; discriminate.
  - destruct Hget as [final Hget].
    exists st', None. eexists. exists l, r.
    split; [exact Hrun|]. split; [exact Hinput|]. split; [exact Hget|].
    cbn [messages]. rewrite Hm.
    split; [exists final; reflexivity|].
    repeat split; try assumption; discriminate.
Qed.

Lemma sent_message_witness :
  exists st' conv',
    on_send_click Samples.always_raise
      (set_input_field (txt "  hello ") Samples.fresh_state) = (st', None)
    /\ nth_error (conversations st') 0 = Some conv'
    /\ hd_error (messages conv') = Some (user_message (txt "hello")).
Proof.
  destruct (@sent_message_is_trimmed Samples.always_raise
              (set_input_field (txt "  hello ") Samples.fresh_state)
              (mkConversation (VStr (txt "0000")) (VStr (txt "New Chat")) [])
              eq_refl eq_refl)
    as (st' & fault & conv' & l & r & Hrun & _ & Hget & Hmsgs & _ & _ & _
        & _ & _ & _ & Hwb).
  rewrite (Hwb SessionFacts.always_raise_well_behaved) in Hrun, Hmsgs.
  destruct Hmsgs as [final Hmsgs].
  exists st', conv'. split; [exact Hrun|]. split; [exact Hget|].
  rewrite Hmsgs. reflexivity.
Defined.

(** The title derived from a first message has at most 33 characters, is
    the message itself when that has at most 30, agrees with the message on
    its first 30 characters, and is empty only for an empty message. *)
Theorem derive_title_bounds (t : text) :
  List.length (derive_title t) <= 33
  /\ (List.length t <= 30 -> derive_title t = t)
  /\ (30 < List.length t -> List.length (derive_title t) = 33)
  /\ firstn 30 (derive_title t) = firstn 30 t
  /\ (derive_title t = [] -> t = []).
Proof.
  unfold derive_title. destruct (Nat.ltb_spec 30 (List.length t)) as [H|H].
  - assert (Hlen : List.length (firstn 30 t) = 30)
      by (rewrite length_firstn; lia).
    repeat split.
    + rewrite length_app, Hlen. simpl. lia.
    + lia.
    + intros _. rewrite length_app, Hlen. reflexivity.
    + rewrite firstn_app, Hlen, firstn_firstn. simpl.
      now rewrite app_nil_r.
    + destruct t; [reflexivity|]. simpl. discriminate.
  - repeat split; try reflexivity; try tauto; lia.
Qed.

Lemma derive_title_witness :
  derive_title (txt "short question") = txt "short question"
  /\ List.length
       (derive_title (txt "a question that goes on for a good while"))
     = 33.
Proof.
  split.
  - apply (proj1 (proj2 (derive_title_bounds (txt "short question")))).
    simpl. lia.
  - apply (proj1 (proj2 (proj2
             (derive_title_bounds
                (txt "a question that goes on for a good while"))))).
    simpl. lia.
Defined.

End InputFacts.

(* ================================================================== *)
(** ** Conversations made and selected *)

Module ChatFacts.

Import App Chats.

Lemma grows_refl (cs : list Conversation) : grows cs cs.
Proof. intros j c H. exists c, []. now rewrite app_nil_r. Qed.

Lemma grows_trans (a b c : list Conversation) :
  grows a b -> grows b c -> grows a c.
Proof.
  intros Hab Hbc j x Hx.
  destruct (Hab j x Hx) as (y & e1 & Hy & Hid1 & Hm1).
  destruct (Hbc j y Hy) as (z & e2 & Hz & Hid2 & Hm2).
  exists z, (e1 ++ e2). split; [exact Hz|]. split; [congruence|].
  now rewrite Hm2, Hm1, app_assoc.
Qed.

Lemma grows_app (cs more : list Conversation) : grows cs (cs ++ more).
Proof.
  intros j c H. exists c, []. rewrite app_nil_r.
  split; [|now split]. rewrite nth_error_app1; [exact H|].
  apply nth_error_Some. congruence.
Qed.

Lemma grows_update (cs : list Conversation) (i : nat)
  (f : Conversation -> Conversation) :
  (forall c,
      id (f c) = id c /\ exists extra, messages (f c) = messages c ++ extra) ->
  grows cs (update_nth i f cs).
Proof.
  intros Hf j c H. destruct (Nat.eq_dec j i) as [->|Hj].
  - exists (f c). destruct (Hf c) as [Hid [extra Hm]]. exists extra.
    split; [now apply SessionFacts.nth_error_update_nth|]. now split.
  - exists c, []. rewrite app_nil_r.
    rewrite SessionFacts.nth_error_update_nth_other by exact Hj. now split.
Qed.

(** Same length and same id at every position: the same ids. *)
Lemma grows_ids (cs cs' : list Conversation) :
  grows cs cs' -> List.length cs' = List.length cs ->
  map id cs' = map id cs.
Proof.
  revert cs'. induction cs as [|c cs IH]; intros [|c' cs'] Hg Hlen;
    simpl in *; try discriminate; [reflexivity|].
  destruct (Hg 0 c eq_refl) as (x & e & Hx & Hid & _). simpl in Hx.
  injection Hx as <-. rewrite Hid. f_equal. apply IH; [|lia].
  intros j y Hy. exact (Hg (S j) y Hy).
Qed.

Lemma grows_length (cs cs' : list Conversation) :
  grows cs cs' -> List.length cs <= List.length cs'.
Proof.
  intros Hg. destruct cs as [|c0 cs0] eqn:E; [simpl; lia|]. rewrite <- E in *.
  destruct (nth_error cs (List.length cs - 1)) as [c|] eqn:Hc.
  - destruct (Hg _ _ Hc) as (c' & _ & Hc' & _).
    assert (List.length cs - 1 < List.length cs')
      by (apply nth_error_Some; congruence).
    subst cs. simpl in *. lia.
  - apply nth_error_None in Hc. subst cs. simpl in *. lia.
Qed.

(** What a click on send does to the list, whether or not an exception
    leaves it. *)
Lemma on_send_click_effect (p : provider) (st st' : state)
  (fault : option thrown) :
  on_send_click p st = (st', fault) ->
  grows (conversations st) (conversations st')
  /\ List.length (conversations st') = List.length (conversations st)
  /\ selected_index st' = selected_index st
  /\ (valid st -> well_behaved p -> fault = None).
Proof.
  unfold on_send_click.
  destruct (Text.strip (input_field st)) as [|c t].
  { intros [= <- <-]. split; [apply grows_refl|]. now repeat split. }
  destruct (nth_error (conversations st) (selected_index st)) as [conv|] eqn:Hnth.
  2:{ intros [= <- <-]. split; [apply grows_refl|]. repeat split.
      intros Hv. apply nth_error_None in Hnth. unfold valid in Hv. lia. }
  set (st1 := match messages conv with [] => _ | _ :: _ => st end).
  set (conv1 := match messages conv with
                | [] => set_title (VStr (derive_title (c :: t))) conv
                | _ :: _ => conv
                end).
  assert (H1 : nth_error (conversations (set_input_field [] st1))
                         (selected_index (set_input_field [] st1))
               = Some conv1
               /\ selected_index st1 = selected_index st
               /\ grows (conversations st) (conversations st1)
               /\ List.length (conversations st1)
                  = List.length (conversations st)).
  { unfold st1, conv1. destruct (messages conv) eqn:Hm; simpl.
    - split; [now apply SessionFacts.nth_error_update_nth|].
      split; [reflexivity|]. split; [|apply SessionFacts.length_update_nth].
      apply grows_update. intros x. split; [reflexivity|].
      exists []. simpl. now rewrite app_nil_r.
    - split; [exact Hnth|]. split; [reflexivity|].
      split; [apply grows_refl | reflexivity]. }
  destruct H1 as (H1 & Hi & Hg & Hlen).
  destruct (@TurnFacts.stream_response_shape p (c :: t) _ conv1 H1)
    as (st2 & fault2 & Hrun & Hget & Hother & Hlen2 & Hsel & _ & _ & _ & Hwb).
  rewrite Hrun. intros [= <- <-]. simpl in *. rewrite Hi in *.
  split; [|split; [congruence | split; [exact Hsel | intros _; exact Hwb]]].
  apply (grows_trans Hg). intros j x Hx.
  destruct (Nat.eq_dec j (selected_index st)) as [->|Hj].
  - rewrite H1 in Hx. injection Hx as <-.
    destruct fault2 as [e|]; [|destruct Hget as [final Hget]];
      eexists _, _; (split; [exact Hget|]); split; reflexivity.
  - exists x, []. rewrite app_nil_r, (Hother j Hj). now split.
Qed.

Lemma new_chat_effect (new_id : text) (st : state) :
  let c :=
    mkConversation (VStr new_id)
      (VStr (txt "Chat "
             ++ Encoder.intstr
                  (Z.of_nat (List.length (conversations st) + 1)))) [] in
  exists st',
    new_chat new_id st = (st', None)
    /\ conversations st' = conversations st ++ [c]
    /\ selected_index st' = List.length (conversations st)
    /\ outside st'
       = Store.save_conversations (conversations st ++ [c]) (outside st)
    /\ calls st' = calls st.
Proof.
  intros c. unfold new_chat, select_convo, rebuild_messages. fold c. simpl.
  rewrite length_app. simpl.
  replace (List.length (conversations st) + 1 - 1)
    with (List.length (conversations st)) by lia.
  rewrite nth_error_app2, Nat.sub_diag by lia. simpl.
  eexists. split; [reflexivity|]. simpl. auto.
Qed.

Lemma select_convo_effect (idx : nat) (st : state) :
  (idx < List.length (conversations st) ->
   select_convo idx st = (set_selected_index idx st, None))
  /\ (List.length (conversations st) <= idx ->
      exists e, select_convo idx st = (set_selected_index idx st, Some e)).
Proof.
  unfold select_convo, rebuild_messages. simpl.
  destruct (nth_error (conversations st) idx) eqn:H; split; intros Hi.
  - reflexivity.
  - apply nth_error_None in Hi. congruence.
  - apply nth_error_None in H. lia.
  - eexists; reflexivity.
Qed.

(** What one event does to the list, whether or not an exception leaves
    its handler. *)
Lemma handle_effect (p : provider) (ev : event) (st st' : state)
  (fault : option thrown) :
  handle p ev st = (st', fault) ->
  grows (conversations st) (conversations st')
  /\ map id (conversations st') = map id (conversations st) ++ new_ids [ev].
Proof.
  destruct ev as [input|new_id|idx]; simpl.
  - intros H. apply on_send_click_effect in H as (Hg & Hlen & _).
    simpl in *. split; [exact Hg|]. rewrite app_nil_r.
    now apply grows_ids.
  - destruct (new_chat_effect new_id st) as (st1 & -> & Hcs & _).
    intros [= <- _]. rewrite Hcs. split; [apply grows_app|].
    now rewrite map_app.
  - unfold select_convo. destruct (rebuild_messages _);
      intros [= <- _]; simpl; (split; [apply grows_refl|]);
      now rewrite app_nil_r.
Qed.

Lemma run_effect (p : provider) (evs : list event) :
  forall st st',
    run p evs st = (st', None) ->
    grows (conversations st) (conversations st')
    /\ map id (conversations st')
       = map id (conversations st) ++ new_ids evs.
Proof.
  induction evs as [|ev evs IH]; intros st st'; simpl.
  - intros [= <-]. split; [apply grows_refl|]. now rewrite app_nil_r.
  - destruct (handle p ev st) as [st1 [e|]] eqn:H1; [discriminate|].
    intros H2. apply handle_effect in H1 as [Hg1 Hid1].
    apply IH in H2 as [Hg2 Hid2].
    split; [exact (grows_trans Hg1 Hg2)|].
    rewrite Hid2, Hid1, <- app_assoc. f_equal.
    now destruct ev.
Qed.

(** One event on a valid selection, the event naming a conversation that
    exists if it is a selection: the selection stays valid; an exception
    can leave the handler of a send only, and none does when the provider
    is well behaved. *)
Lemma handle_valid (p : provider) (ev : event) (st : state) :
  valid st ->
  in_range (List.length (conversations st)) [ev] = true ->
  exists st' fault,
    handle p ev st = (st', fault)
    /\ valid st'
    /\ List.length (conversations st')
       = List.length (conversations st) + List.length (new_ids [ev])
    /\ (well_behaved p -> fault = None)
    /\ (fault <> None -> exists input, ev = Send input).
Proof.
  intros Hv Hin. destruct ev as [input|new_id|idx]; simpl in *.
  - destruct (on_send_click p (set_input_field input st)) as [st' fault]
      eqn:Hrun.
    exists st', fault. split; [reflexivity|].
    apply on_send_click_effect in Hrun as (_ & Hlen & Hsel & Hwb).
    unfold valid in *. simpl in *.
    split; [lia|]. split; [lia|]. split; [now apply Hwb | eauto].
  - destruct (new_chat_effect new_id st) as (st' & -> & Hcs & Hsel & _).
    exists st', None. split; [reflexivity|]. unfold valid.
    rewrite Hcs, Hsel, length_app. simpl.
    split; [lia|]. split; [lia|]. split; congruence.
  - rewrite andb_true_r in Hin. apply Nat.ltb_lt in Hin.
    destruct (select_convo_effect idx st) as [Hs _]. rewrite (Hs Hin).
    eexists _, None. split; [reflexivity|]. unfold valid. simpl.
    split; [lia|]. split; [lia|]. split; congruence.
Qed.

Lemma run_valid (p : provider) (evs : list event) :
  forall st,
    valid st ->
    in_range (List.length (conversations st)) evs = true ->
    exists st' fault,
      run p evs st = (st', fault)
      /\ valid st'
      /\ (well_behaved p -> fault = None)
      /\ (forall e,
             fault = Some e ->
             exists done input rest s,
               evs = done ++ Send input :: rest
               /\ run p done st = (s, None)
               /\ valid s
               /\ on_send_click p (set_input_field input s)
                  = (st', Some e)).
Proof.
  induction evs as [|ev evs IH]; intros st Hv Hin; simpl.
  - exists st, None. split; [reflexivity|]. split; [exact Hv|].
    split; [reflexivity | discriminate].
  - destruct (@handle_valid p ev st Hv)
      as (st1 & fault1 & Hrun & Hv1 & Hlen & Hwb & Hsend).
    { destruct ev; simpl in *; try reflexivity.
      apply andb_true_iff in Hin as [-> _]. reflexivity. }
    rewrite Hrun. destruct fault1 as [e1|].
    + exists st1, (Some e1). split; [reflexivity|]. split; [exact Hv1|].
      split; [exact Hwb|]. intros e [= <-].
      destruct Hsend as [input ->]; [discriminate|].
      exists [], input, evs, st. simpl in Hrun. now repeat split.
    + destruct (IH st1 Hv1) as (st' & fault & Hrun' & Hv' & Hwb' & Hfrom).
      { rewrite Hlen. destruct ev; simpl in *.
        - now rewrite Nat.add_0_r.
        - now rewrite Nat.add_1_r.
        - rewrite Nat.add_0_r. now apply andb_true_iff in Hin as [_ ->]. }
      exists st', fault. split; [exact Hrun'|]. split; [exact Hv'|].
      split; [exact Hwb'|]. intros e He.
      destruct (Hfrom e He) as (done & input & rest & s & -> & Hd & Hs & Hc).
      exists (ev :: done), input, rest, s. split; [reflexivity|].
      split; [simpl; now rewrite Hrun|]. now split.
Qed.

Lemma log2_div10 (n : N) :
  (10 <= n)%N -> (N.log2 (n / 10) < N.log2 n)%N.
Proof.
  intros H.
  assert (H1 : (0 < n / 10)%N) by (apply N.div_str_pos; lia).
  assert (H2 : (2 * (n / 10) <= n)%N).
  { pose proof (N.Div0.mul_div_le n 10). lia. }
  apply N.log2_le_mono in H2. rewrite N.log2_double in H2 by exact H1. lia.
Qed.

(** The digits written for a number read back as the number. *)
Lemma pos_digits_spec (fuel : nat) :
  forall n,
    N.to_nat (N.log2 n) < fuel ->
    exists ds,
      (forall acc, Encoder.pos_digits fuel n acc = ds ++ acc)
      /\ ds <> []
      /\ forallb Decoder.is_digit ds = true
      /\ forall a0,
           fold_left (fun acc c => (acc * 10 + Z.of_N (c - 48))%Z) ds a0
           = (a0 * 10 ^ Z.of_nat (List.length ds) + Z.of_N n)%Z.
Proof.
  induction fuel as [|fuel IH]; intros n Hfuel; [lia|].
  cbn [Encoder.pos_digits]. destruct (N.ltb_spec n 10) as [Hlt|Hge].
  - exists [(48 + n mod 10)%N]. rewrite N.mod_small by exact Hlt.
    split; [reflexivity|]. split; [discriminate|]. split.
    + cbn [forallb]. unfold Decoder.is_digit.
      rewrite andb_true_r. apply andb_true_iff.
      clear - Hlt. split; apply N.leb_le; lia.
    + intros a0. cbn [fold_left List.length].
      replace (48 + n - 48)%N with n by lia.
      change (Z.of_nat 1) with 1%Z. rewrite Z.pow_1_r. reflexivity.
  - destruct (IH (n / 10)%N) as (ds & Happ & Hne & Hdig & Hval).
    { pose proof (log2_div10 Hge). lia. }
    exists (ds ++ [(48 + n mod 10)%N]). split; [|split; [|split]].
    + intros acc. rewrite Happ, <- app_assoc. reflexivity.
    + destruct ds; discriminate.
    + rewrite forallb_app, Hdig. cbn [forallb andb]. unfold Decoder.is_digit.
      rewrite andb_true_r. apply andb_true_iff.
      assert (Hm : (n mod 10 < 10)%N) by (apply N.mod_lt; discriminate).
      clear - Hm. generalize dependent (n mod 10)%N. intros d Hd.
      split; apply N.leb_le; lia.
    + intros a0. rewrite fold_left_app, Hval. cbn [fold_left].
      rewrite length_app. cbn [List.length].
      rewrite Nat2Z.inj_add, Z.pow_add_r by lia.
      change (Z.of_nat 1) with 1%Z. rewrite Z.pow_1_r.
      assert (Hn : Z.of_N n = (10 * Z.of_N (n / 10) + Z.of_N (n mod 10))%Z).
      { rewrite (N.div_mod n 10) at 1 by discriminate.
        rewrite N2Z.inj_add, N2Z.inj_mul. reflexivity. }
      rewrite Hn. replace (48 + n mod 10 - 48)%N with (n mod 10)%N.
      * ring.
      * clear. generalize (n mod 10)%N. intros d. lia.
Qed.

Lemma intstr_digits (k : nat) :
  forallb Decoder.is_digit (Encoder.intstr (Z.of_nat k)) = true
  /\ Decoder.digits_value (Encoder.intstr (Z.of_nat k)) = Z.of_nat k.
Proof.
  unfold Encoder.intstr.
  destruct (Z.ltb_spec (Z.of_nat k) 0) as [H|_]; [lia|].
  destruct (@pos_digits_spec (S (N.to_nat (N.log2 (Z.abs_N (Z.of_nat k)))))
              (Z.abs_N (Z.of_nat k)))
    as (ds & Happ & _ & Hdig & Hval); [lia|].
  rewrite Happ, app_nil_r. split; [exact Hdig|].
  unfold Decoder.digits_value. rewrite Hval. rewrite N2Z.inj_abs_N. lia.
Qed.

(** [New chat] never raises.  It appends one conversation without messages,
    with the id drawn and the title [Chat ] followed by the decimal digits
    of the new number of conversations; it leaves the conversations there
    were as they are, selects the new one, which is the last, saves the
    whole list, and calls no provider. *)
Theorem new_chat_appends_and_selects (new_id : text) (st : state) :
  exists st' digits,
    new_chat new_id st = (st', None)
    /\ conversations st'
       = conversations st
         ++ [mkConversation (VStr new_id) (VStr (txt "Chat " ++ digits)) []]
    /\ forallb Decoder.is_digit digits = true
    /\ Decoder.digits_value digits
       = Z.of_nat (List.length (conversations st') )
    /\ selected_index st' = List.length (conversations st)
    /\ nth_error (conversations st') (selected_index st')
       = Some (mkConversation (VStr new_id) (VStr (txt "Chat " ++ digits)) [])
    /\ outside st'
       = Store.save_conversations (conversations st') (outside st)
    /\ calls st' = calls st.
Proof.
  destruct (new_chat_effect new_id st) as (st' & Hrun & Hcs & Hsel & Hout & Hc).
  destruct (intstr_digits (List.length (conversations st) + 1)) as [Hd Hv].
  exists st', (Encoder.intstr (Z.of_nat (List.length (conversations st) + 1))).
  split; [exact Hrun|]. split; [exact Hcs|]. split; [exact Hd|].
  rewrite Hv, Hsel, Hcs, length_app. cbn [List.length].
  split; [reflexivity|]. split; [reflexivity|].
  rewrite nth_error_app2, Nat.sub_diag by lia.
  split; [reflexivity|]. split; [exact Hout | exact Hc].
Qed.

(** From a state whose selection names a conversation, over any sequence of
    sends, new chats and selections of conversations that exist, the
    selection names a conversation after every event, for every provider:
    no handler hits the [IndexError] of [conversations[selected_index]].
    An exception that ends the sequence left a send turn made on a valid
    selection, after the events before it were handled without one; with a
    provider that is well behaved there is none, and every event is
    handled. *)
Theorem selection_stays_valid (p : provider) (evs : list event) (st : state) :
  valid st ->
  in_range (List.length (conversations st)) evs = true ->
  exists st' fault,
    run p evs st = (st', fault)
    /\ valid st'
    /\ (well_behaved p -> fault = None)
    /\ (forall e,
           fault = Some e ->
           exists done input rest s,
             evs = done ++ Send input :: rest
             /\ run p done st = (s, None)
             /\ valid s
             /\ on_send_click p (set_input_field input s) = (st', Some e)).
Proof. apply run_valid. Qed.

Lemma selection_stays_valid_witness :
  exists st',
    run Samples.broken_stream
        [Send (txt "hi"); NewChat (txt "1111"); Select 0; Send (txt "yo")]
        Samples.fresh_state
    = (st', None)
    /\ valid st'.
Proof.
  destruct (@selection_stays_valid Samples.broken_stream
              [Send (txt "hi"); NewChat (txt "1111"); Select 0;
               Send (txt "yo")]
              Samples.fresh_state) as (st' & fault & Hrun & Hv & Hwb & _).
  - unfold valid. simpl. lia.
  - reflexivity.
  - rewrite (Hwb SessionFacts.broken_stream_well_behaved) in Hrun.
    exists st'. split; [exact Hrun | exact Hv].
Defined.

(** [main] starts, when it starts, with a selection that names a
    conversation, the first: the conversations loaded when there are some,
    one fresh conversation otherwise; it has written nothing to the file
    and called no provider.  It does not start exactly when
    [load_conversations] raises; for a data file that is missing, readable,
    or unreadable with an exception that derives from [Exception], that is
    the [UnicodeEncodeError] of the print of a report that holds a
    surrogate, and [main] starts when the file is missing. *)
Theorem startup_selection_valid (new_id : text) (w : world) :
  match main new_id w with
  | Return st =>
      valid st
      /\ selected_index st = 0
      /\ (exists cs,
             fst (Store.load_conversations w) = Return cs
             /\ conversations st
                = match cs with
                  | [] => [mkConversation (VStr new_id)
                                          (VStr (txt "New Chat")) []]
                  | _ :: _ => cs
                  end)
      /\ disk (outside st) = disk w
      /\ calls st = []
  | Raise e => fst (Store.load_conversations w) = Raise e
  end
  /\ (disk w = Missing -> exists st, main new_id w = Return st)
  /\ ((forall e, disk w = Unreadable e -> is_Exception (exn_cls e) = true) ->
      forall e,
        main new_id w = Raise e ->
        exists x,
          Text.encodable (exn_str x) = false
          /\ e = Printable
                   (encode_error
                      (txt "Error loading conversations: " ++ exn_str x))
          /\ thrown_cls e = UnicodeEncodeError).
Proof.
  split; [|split].
  - unfold main, valid.
    destruct (LoadFacts.load_keeps_disk w) as [Hd _].
    destruct (Store.load_conversations w) as [[[|c cs]|e] w']; simpl in *.
    + split; [lia|]. split; [reflexivity|]. split; [eauto|]. now split.
    + split; [lia|]. split; [reflexivity|]. split; [eauto|]. now split.
    + reflexivity.
  - intros Hm. unfold main, Store.load_conversations. rewrite Hm.
    eexists. reflexivity.
  - intros Hread e. unfold main.
    destruct (@LoadFacts.load_conversations_cases w Hread)
      as [[cs ->]|[[x [_ ->]]|[x [Hx ->]]]]; simpl; try discriminate.
    intros [= <-]. exists x. now repeat split.
Qed.

Lemma startup_selection_witness :
  exists st,
    main (txt "0000")
         (Store.save_conversations [Samples.plain_conversation]
                                   Samples.no_file)
    = Return st
    /\ valid st
    /\ conversations st = [Samples.plain_conversation].
Proof.
  pose proof (@startup_selection_valid (txt "0000")
                (Store.save_conversations [Samples.plain_conversation]
                                          Samples.no_file))
    as [H _].
  destruct (main (txt "0000")
              (Store.save_conversations [Samples.plain_conversation]
                                        Samples.no_file)) as [st|e] eqn:Hm;
    [|vm_compute in Hm; discriminate Hm].
  destruct H as (Hv & _ & (cs & Hload & Hcs) & _).
  exists st. split; [reflexivity|]. split; [exact Hv|].
  rewrite Hcs. vm_compute in Hload. injection Hload as <-. reflexivity.
Defined.

(** Over any sequence of events handled without an exception, the ids of
    the conversations are those there were, in their places, followed by
    the ids drawn for the new chats, in order: no id is changed, dropped
    or moved.  So the ids stay distinct as long as every id drawn is new. *)
Theorem ids_kept_and_appended (p : provider) (evs : list event)
  (st st' : state) :
  run p evs st = (st', None) ->
  map id (conversations st') = map id (conversations st) ++ new_ids evs
  /\ (NoDup (map id (conversations st) ++ new_ids evs) ->
      NoDup (map id (conversations st'))).
Proof.
  intros H. apply run_effect in H as [_ Hid]. rewrite Hid. split; auto.
Qed.

Lemma ids_kept_and_appended_witness :
  exists st',
    run Samples.broken_stream
        [Send (txt "hi"); NewChat (txt "1111"); Select 0; Send (txt "yo")]
        Samples.fresh_state
    = (st', None)
    /\ map id (conversations st') = [VStr (txt "0000"); VStr (txt "1111")].
Proof.
  destruct (run Samples.broken_stream
              [Send (txt "hi"); NewChat (txt "1111"); Select 0;
               Send (txt "yo")]
              Samples.fresh_state) as [st' [e|]] eqn:Hrun;
    [vm_compute in Hrun; discriminate Hrun|].
  exists st'. split; [reflexivity|].
  destruct (@ids_kept_and_appended _ _ _ _ Hrun) as [Hid _].
  exact Hid.
Defined.

(** Over any sequence of events handled without an exception, every
    conversation stays at its position with its id, and its messages are
    those it had, in order, followed by the messages added: none is
    edited, removed or reordered, and no conversation is removed. *)
Theorem history_only_grows (p : provider) (evs : list event)
  (st st' : state) :
  run p evs st = (st', None) ->
  grows (conversations st) (conversations st')
  /\ List.length (conversations st) <= List.length (conversations st').
Proof.
  intros H. apply run_effect in H as [Hg _].
  split; [exact Hg | exact (grows_length Hg)].
Qed.

Lemma history_only_grows_witness :
  exists st',
    run Samples.always_raise
        [Send (txt "hi"); NewChat (txt "1111"); Send (txt "yo")]
        Samples.fresh_state
    = (st', None)
    /\ grows (conversations Samples.fresh_state) (conversations st').
Proof.
  destruct (run Samples.always_raise
              [Send (txt "hi"); NewChat (txt "1111"); Send (txt "yo")]
              Samples.fresh_state) as [st' [e|]] eqn:Hrun;
    [vm_compute in Hrun; discriminate Hrun|].
  exists st'. split; [reflexivity|].
  destruct (@history_only_grows _ _ _ _ Hrun) as [Hg _].
  exact Hg.
Defined.

End ChatFacts.

(* ================================================================== *)
(** ** What the file gives back *)

Module PersistenceFacts.

Import Store App Chats.

Lemma snoc_neq (A : Type) (l : list A) (x : A) : l ++ [x] <> l.
Proof.
  intros H. apply (f_equal (@List.length A)) in H.
  rewrite length_app in H. simpl in H. lia.
Qed.


(** A send of a text that is not blank, when no exception leaves it, ends
    with a save of the list as it then is. *)
Lemma on_send_click_saved (p : provider) (st st' : state) :
  Text.strip (input_field st) <> [] ->
  on_send_click p st = (st', None) ->
  conversations st' <> []
  /\ exists w,
       outside st' = save_conversations (conversations st') w
       /\ write_fault w = write_fault (outside st).
Proof.
  intros Ht. unfold on_send_click.
  destruct (Text.strip (input_field st)) as [|c t]; [congruence|].
  destruct (nth_error (conversations st) (selected_index st)) as [conv|] eqn:Hnth;
    [|discriminate].
  set (st1 := match messages conv with [] => _ | _ :: _ => st end).
  assert (H1 : (exists conv1,
                   nth_error (conversations (set_input_field [] st1))
                             (selected_index (set_input_field [] st1))
                   = Some conv1)
               /\ outside st1 = outside st).
  { unfold st1. destruct (messages conv); simpl; [|eauto].
    split; [|reflexivity].
    eexists. apply SessionFacts.nth_error_update_nth. exact Hnth. }
  destruct H1 as [[conv1 H1] Hout1].
  destruct (request p (chosen_model (set_input_field [] st1))
              (append_message (user_message (c :: t)) conv1)
              (save (append_to_selected (user_message (c :: t))
                       (set_input_field [] st1))))
    as [[st2 acc] fault] eqn:Hreq.
  destruct (@SessionFacts.stream_response_result p (c :: t) _ conv1 st2 acc
              fault H1 Hreq)
    as (_ & _ & _ & _ & _ & _ & Hfin).
  destruct (final_text _ acc fault) as [final|e];
    [|rewrite Hfin; discriminate].
  destruct Hfin as (st'' & Hrun & Hcs & _ & _ & _ & _ & _ & Hout & Hget).
  rewrite Hrun. intros [= <-]. split.
  - rewrite Hcs. intros Hnil. rewrite Hnil in Hget.
    destruct (selected_index (set_input_field [] st1)); discriminate Hget.
  - exists (outside st2). split; [rewrite Hout, Hcs; reflexivity|].
    destruct (@SessionFacts.request_frame p _ _ _ _ _ _ Hreq)
      as (_ & _ & _ & _ & _ & _ & Hwf).
    rewrite Hwf. unfold save. simpl.
    rewrite SaveFacts.save_keeps_write_fault. now rewrite Hout1.
Qed.

(** A stored document that is valid JSON but not an array never gives a
    conversation: [load_conversations] returns the empty list.  The fault is
    printed, except for the empty object and the empty string, over which
    the loop does not run at all. *)
Theorem non_array_document_loads_empty (w : world) (t : text) (v : value) :
  disk w = Content t ->
  Decoder.loads (universal_newlines t) = Some v ->
  (forall l, v <> VList l) ->
  fst (load_conversations w) = Return []
  /\ (stdout (snd (load_conversations w)) = stdout w
      <-> v = VDict [] \/ v = VStr []).
Proof.
  intros Hd Hv Hl. unfold load_conversations, load_body, json_load.
  rewrite Hd, Hv. cbn [bind].
  destruct v as [|b|z|lit|s|l|d]; simpl;
    try (split; [reflexivity|]; split;
         [intros H; exfalso; eapply snoc_neq; exact H
         |intros [H|H]; discriminate H]).
  - destruct s as [|c s]; simpl.
    + split; [reflexivity|]. split; auto.
    + split; [reflexivity|]. split;
        [intros H; exfalso; eapply snoc_neq; exact H
        |intros [H|H]; discriminate H].
  - exfalso. eapply Hl. reflexivity.
  - destruct d as [|kv d]; simpl.
    + split; [reflexivity|]. split; auto.
    + split; [reflexivity|]. split;
        [intros H; exfalso; eapply snoc_neq; exact H
        |intros [H|H]; discriminate H].
Qed.

Lemma non_array_document_witness :
  fst (load_conversations (mkWorld (Content (txt "42")) None []))
  = Return []
  /\ (stdout (snd (load_conversations (mkWorld (Content (txt "42")) None [])))
      = []
      <-> VInt 42 = VDict [] \/ VInt 42 = VStr []).
Proof.
  apply (@non_array_document_loads_empty
           (mkWorld (Content (txt "42")) None []) (txt "42") (VInt 42)).
  - reflexivity.
  - vm_compute. reflexivity.
  - intros l. discriminate.
Defined.



(** The file after a save does not depend on what an earlier save left:
    saving [b] after [a] leaves what saving [b] alone leaves, whether the
    save of [a] went through, stopped partway or could not open the file.
    So a save that stopped partway is repaired by the next save that goes
    through: when the fields of [b] are strings without surrogates and the
    file can be written, [b] is what is loaded afterwards. *)
Theorem last_save_wins (a b : list Conversation) (w : world) :
  disk (save_conversations b (save_conversations a w))
  = disk (save_conversations b w)
  /\ (write_fault w = None ->
      Forall (fun c => Fields.all_fields Fields.is_utf8_str c = true) b ->
      fst (load_conversations
             (save_conversations b (save_conversations a w)))
      = Return b).
Proof.
  pose proof (SaveFacts.save_keeps_write_fault a w) as Hwf.
  split.
  - destruct (write_fault w) as [e|] eqn:Hw.
    + unfold save_conversations at 1. rewrite Hwf.
      unfold save_conversations. rewrite Hw. reflexivity.
    + rewrite !RoundTripFacts.save_disk_open; congruence.
  - intros Hw Hb. apply RoundTripFacts.load_saved; congruence.
Qed.

Lemma last_save_wins_witness :
  fst (load_conversations
         (save_conversations [Samples.plain_conversation]
            (save_conversations [Samples.surrogate_conversation]
               Samples.no_file)))
  = Return [Samples.plain_conversation].
Proof.
  destruct (@last_save_wins [Samples.surrogate_conversation]
              [Samples.plain_conversation] Samples.no_file) as [_ H].
  apply H.
  - reflexivity.
  - repeat constructor.
Defined.

(** After a new chat, or a send of a text that is not blank, the file holds
    the session: when it can be written and every id, title, role and
    content in memory is a string without surrogates, loading it gives the
    conversations in memory, and a restart of [main] on it starts with
    exactly these, adding none. *)
Theorem restart_restores_session (p : provider) (ev : event)
  (st st' : state) (new_id : text) :
  write_fault (outside st) = None ->
  match ev with
  | Send input => Text.strip input <> []
  | NewChat _ => True
  | Select _ => False
  end ->
  handle p ev st = (st', None) ->
  Forall (fun c => Fields.all_fields Fields.is_utf8_str c = true)
         (conversations st') ->
  fst (load_conversations (outside st')) = Return (conversations st')
  /\ exists st'',
       main new_id (outside st') = Return st''
       /\ conversations st'' = conversations st'.
Proof.
  intros Hw Hev Hrun Hall.
  assert (H : conversations st' <> []
              /\ exists w,
                   outside st' = save_conversations (conversations st') w
                   /\ write_fault w = None).
  { destruct ev as [input|id0|idx]; simpl in Hrun; [| |contradiction].
    - destruct (@on_send_click_saved p (set_input_field input st) st' Hev Hrun)
        as (Hne & w & Hout & Hwf).
      split; [exact Hne|]. exists w. split; [exact Hout|].
      simpl in Hwf. congruence.
    - unfold new_chat, select_convo in Hrun.
      destruct (rebuild_messages _); [|discriminate].
      injection Hrun as <-. simpl. split.
      + intros Hnil. apply app_eq_nil in Hnil as [_ Hnil]. discriminate.
      + exists (outside st). now split. }
  destruct H as (Hne & w & Hout & Hwf).
  assert (Hload : fst (load_conversations (outside st'))
                  = Return (conversations st'))
    by (rewrite Hout; now apply RoundTripFacts.load_saved).
  split; [exact Hload|]. unfold main.
  destruct (load_conversations (outside st')) as [loaded w'].
  simpl in Hload. subst loaded. cbn [bind].
  eexists. split; [reflexivity|]. simpl.
  destruct (conversations st'); [congruence | reflexivity].
Qed.

Lemma restart_restores_witness :
  exists st' st'',
    handle Samples.broken_stream (Send (txt " hi ")) Samples.fresh_state
    = (st', None)
    /\ main (txt "9999") (outside st') = Return st''
    /\ conversations st'' = conversations st'.
Proof.
  destruct (handle Samples.broken_stream (Send (txt " hi "))
              Samples.fresh_state) as [st' [e|]] eqn:Hrun;
    [vm_compute in Hrun; discriminate Hrun|].
  destruct (@restart_restores_session Samples.broken_stream
              (Send (txt " hi ")) Samples.fresh_state st' (txt "9999"))
    as (_ & st'' & Hmain & Hcs).
  - reflexivity.
  - vm_compute. discriminate.
  - exact Hrun.
  - vm_compute in Hrun. injection Hrun as <-. repeat constructor.
  - exists st', st''. split; [reflexivity|]. split; [exact Hmain | exact Hcs].
Defined.

End PersistenceFacts.

(* ================================================================== *)
(** ** What is shown *)

Module ViewFacts.

Import App Chats Views.

Lemma in_enumerate (A : Type) (l : list A) :
  forall start i x,
    In (i, x) (enumerate start l) ->
    start <= i /\ nth_error l (i - start) = Some x.
Proof.
  induction l as [|y l IH]; intros start i x; simpl; [contradiction|].
  intros [H|H].
  - injection H as <- <-. rewrite Nat.sub_diag. split; [lia | reflexivity].
  - apply IH in H as [Hle Hnth]. split; [lia|].
    replace (i - start) with (S (i - S start)) by lia. exact Hnth.
Qed.

Lemma enumerate_fst (A : Type) (l : list A) :
  forall start, map fst (enumerate start l) = seq start (List.length l).
Proof.
  induction l as [|y l IH]; intros start; simpl; [reflexivity|].
  now rewrite IH.
Qed.

Lemma enumerate_snd (A : Type) (l : list A) :
  forall start, map snd (enumerate start l) = l.
Proof.
  induction l as [|y l IH]; intros start; simpl; [reflexivity|].
  now rewrite IH.
Qed.

(** How many entries of [enumerate] carry the index [k]. *)
Lemma enumerate_count (A : Type) (k : nat) (l : list A) :
  forall start,
    List.length (filter (fun ic : nat * A => fst ic =? k) (enumerate start l))
    = if (start <=? k) && (k <? start + List.length l) then 1 else 0.
Proof.
  induction l as [|y l IH]; intros start; simpl.
  - destruct (Nat.leb_spec start k), (Nat.ltb_spec k (start + 0));
      simpl; try reflexivity; lia.
  - specialize (IH (S start)).
    destruct (Nat.eqb_spec start k) as [Heq|Hne]; cbn [List.length];
      rewrite IH;
      destruct (Nat.leb_spec (S start) k), (Nat.leb_spec start k),
        (Nat.ltb_spec k (S start + List.length l)),
        (Nat.ltb_spec k (start + S (List.length l)));
      simpl; try reflexivity; lia.
Qed.

(** Every button of the conversation list names a conversation that
    exists: it carries that conversation's title, it is drawn as selected
    exactly when it names the conversation selected, and a click on it
    selects that conversation without an exception and shows one bubble
    per message of it. *)
Theorem every_button_selects (st : state) (b : button) :
  In b (rebuild_convo_list st) ->
  exists c,
    nth_error (conversations st) (on_click b) = Some c
    /\ label b = title c
    /\ highlighted b = (on_click b =? selected_index st)
    /\ in_range (List.length (conversations st)) [Select (on_click b)] = true
    /\ select_convo (on_click b) st
       = (set_selected_index (on_click b) st, None)
    /\ rebuild_messages (set_selected_index (on_click b) st)
       = Return (map (fun m => (content m, is_user m)) (messages c)).
Proof.
  unfold rebuild_convo_list. intros H. apply in_map_iff in H as ([i c] & <- & H).
  apply in_enumerate in H as [_ H]. rewrite Nat.sub_0_r in H. simpl.
  exists c. split; [exact H|]. split; [reflexivity|]. split; [reflexivity|].
  assert (Hlt : i < List.length (conversations st))
    by (apply nth_error_Some; congruence).
  split; [now apply Nat.ltb_lt in Hlt as ->|].
  unfold select_convo, rebuild_messages. simpl. rewrite H. now split.
Qed.

Lemma every_button_witness :
  exists c,
    nth_error (conversations Samples.fresh_state) 0 = Some c
    /\ select_convo 0 Samples.fresh_state
       = (set_selected_index 0 Samples.fresh_state, None).
Proof.
  destruct (@every_button_selects Samples.fresh_state
              (mkButton (VStr (txt "New Chat")) 0 true))
    as (c & Hc & _ & _ & _ & Hsel & _).
  - left. reflexivity.
  - exists c. split; [exact Hc | exact Hsel].
Defined.

(** The conversation list shows one button per conversation, in order,
    labelled with the titles and clicking to the positions 0, 1, 2, ...;
    when the selection names a conversation exactly one button is drawn as
    selected, and none otherwise. *)
Theorem one_button_per_conversation (st : state) :
  map label (rebuild_convo_list st) = map title (conversations st)
  /\ map on_click (rebuild_convo_list st)
     = seq 0 (List.length (conversations st))
  /\ List.length (filter highlighted (rebuild_convo_list st))
     = if selected_index st <? List.length (conversations st) then 1 else 0.
Proof.
  unfold rebuild_convo_list. split; [|split].
  - rewrite map_map. simpl.
    rewrite <- (enumerate_snd (conversations st) 0) at 2.
    now rewrite map_map.
  - rewrite map_map. simpl. apply enumerate_fst.
  - assert (Hf : forall l : list (nat * Conversation),
               List.length
                 (filter highlighted
                    (map (fun ic =>
                            mkButton (title (snd ic)) (fst ic)
                                     (fst ic =? selected_index st)) l))
               = List.length
                   (filter (fun ic : nat * Conversation =>
                              fst ic =? selected_index st) l)).
    { induction l as [|ic l IH]; simpl; [reflexivity|].
      destruct (fst ic =? selected_index st); simpl; now rewrite IH. }
    rewrite Hf, enumerate_count. reflexivity.
Qed.

(** A turn on a valid selection adds two bubbles to what a rebuild of the
    message view shows: the prompt, laid out as the user's, then the text
    of the assistant's message, laid out as not the user's; the bubbles
    there were stay, in order.  When an exception leaves the turn, which
    none does with a provider that is well behaved, the bubble of the
    prompt is the only one added. *)
Theorem turn_adds_two_bubbles (p : provider) (prompt : text) (st : state)
  (conv : Conversation) :
  nth_error (conversations st) (selected_index st) = Some conv ->
  exists st' fault old,
    rebuild_messages st = Return old
    /\ stream_response p prompt st = (st', fault)
    /\ match fault with
       | None =>
           exists final,
             rebuild_messages st'
             = Return (old ++ [(VStr prompt, true); (VStr final, false)])
       | Some _ =>
           rebuild_messages st' = Return (old ++ [(VStr prompt, true)])
       end
    /\ (well_behaved p -> fault = None).
Proof.
  intros Hnth.
  destruct (@TurnFacts.stream_response_shape p prompt st conv Hnth)
    as (st' & fault & Hrun & Hget & _ & _ & Hsel & _ & _ & _ & Hwb).
  exists st', fault, (map (fun m => (content m, is_user m)) (messages conv)).
  unfold rebuild_messages. rewrite Hnth, Hsel.
  split; [reflexivity|]. split; [exact Hrun|]. split; [|exact Hwb].
  destruct fault as [e|].
  - rewrite Hget. cbn [messages]. rewrite map_app. reflexivity.
  - destruct Hget as [final Hget]. exists final. rewrite Hget.
    cbn [messages]. rewrite map_app. reflexivity.
Qed.

Lemma turn_adds_two_bubbles_witness :
  exists st' final,
    stream_response Samples.always_raise (txt "hi") Samples.fresh_state
    = (st', None)
    /\ rebuild_messages st'
       = Return [(VStr (txt "hi"), true); (VStr final, false)].
Proof.
  destruct (@turn_adds_two_bubbles Samples.always_raise (txt "hi")
              Samples.fresh_state
              (mkConversation (VStr (txt "0000")) (VStr (txt "New Chat")) [])
              eq_refl)
    as (st' & fault & old & Hold & Hrun & Hshow & Hwb).
  injection Hold as <-.
  rewrite (Hwb SessionFacts.always_raise_well_behaved) in Hrun, Hshow.
  destruct Hshow as [final Hshow].
  exists st', final. split; [exact Hrun | exact Hshow].
Defined.

End ViewFacts.

